(** * Sql2GraphQL: the schema compiler and the resolver registry

    A shallow embedding of [src/graphql/compiler.js] (class [Compiler]) and of
    the resolver class (class [Resolver]) of Sql2GraphQL, with the properties
    of the expression parser, of the resolver registry and of the schema
    build that the specification states.

    Conventions of the embedding.
    - A JavaScript string is a [string]: a sequence of code units, here the
      code units 0..255.
    - A JavaScript object used as a dictionary is an association list in
      insertion order ([obj]): an assignment to an existing key keeps the
      key's place, a new key goes last. [keys] gives the enumeration order
      of [Object.keys] and of [for .. in]: the array indices first,
      ascending, then the other keys in insertion order. Only own keys
      are held: a name that every object inherits from
      [Object.prototype] ([inherited]) reads as absent, and an assignment
      to [__proto__] adds a key like any other, where the engine sets the
      prototype instead. The properties that depend on either corner
      exclude it by a hypothesis.
    - A function that can throw returns a [result]; code that writes
      before it throws returns what it wrote together with the exception.
    - An async method is the list of its segments, the stretches of code
      between two awaits. An awaited call runs the segments one after the
      other; a call that is not awaited runs the first segment and leaves
      the rest to the job queue, which resumes the waiting methods in
      turn. The methods of the driver answer at once (what is awaited is a
      value or a settled promise).
    - The resolvers run in a world: the context objects, which are passed
      by reference, the database behind the driver, and the calls made to
      the driver. Records and arguments are values. A number is an
      integer; its text is its decimal digits, which is what [String]
      gives for the safe integers ([printable]). *)

From Stdlib Require Import String Ascii List Bool Arith ZArith NArith Lia.
From Stdlib Require Import Permutation.
From Stdlib Require Import DecimalString.
Import ListNotations.

Local Open Scope string_scope.
Local Open Scope list_scope.

(* ================================================================== *)
(** * JavaScript strings *)
(* ================================================================== *)

Module JsString.

(** White space and line terminators removed by [String.prototype.trim],
    among the code units 0..255: TAB, LF, VT, FF, CR, SP, NBSP. *)
Definition is_ws (c : ascii) : bool :=
  let n := nat_of_ascii c in
  (((9 <=? n) && (n <=? 13)) || (n =? 32) || (n =? 160))%nat.

Fixpoint trimStart (s : string) : string :=
  match s with
  | EmptyString => EmptyString
  | String c s' => if is_ws c then trimStart s' else s
  end.

Fixpoint trimEnd (s : string) : string :=
  match s with
  | EmptyString => EmptyString
  | String c s' =>
      match trimEnd s' with
      | EmptyString => if is_ws c then EmptyString else String c EmptyString
      | t => String c t
      end
  end.

(** [s.trim()] *)
Definition trim (s : string) : string := trimEnd (trimStart s).

(** [s.split(sep)] for a non-empty separator: cut at every occurrence of
    [sep], found from left to right, the search resuming right after each
    occurrence. [skip] counts the code units of a found separator still to
    be passed over, [cur] is the piece being collected. *)
Fixpoint split_go (sep : string) (skip : nat) (cur : string) (s : string)
  : list string :=
  match s with
  | EmptyString => [cur]
  | String c s' =>
      match skip with
      | S k => split_go sep k cur s'
      | O =>
          if prefix sep s
          then cur :: split_go sep (String.length sep - 1) EmptyString s'
          else split_go sep 0 (cur ++ String c EmptyString)%string s'
      end
  end.

Definition split (sep : string) (s : string) : list string :=
  split_go sep 0 EmptyString s.

(** [l.join(sep)] on a list of strings *)
Fixpoint join (sep : string) (l : list string) : string :=
  match l with
  | [] => EmptyString
  | [x] => x
  | x :: rest => (x ++ sep ++ join sep rest)%string
  end.

(** [s] from position [i] on *)
Fixpoint drop (i : nat) (s : string) : string :=
  match i, s with
  | O, _ => s
  | S _, EmptyString => EmptyString
  | S j, String _ s' => drop j s'
  end.

(** The last code unit *)
Fixpoint last_char (s : string) : option ascii :=
  match s with
  | EmptyString => None
  | String c EmptyString => Some c
  | String _ s' => last_char s'
  end.

(** Decimal rendering of an integer number value *)
Definition of_Z (z : Z) : string := NilEmpty.string_of_int (Z.to_int z).

End JsString.

(* ================================================================== *)
(** * Results of code that can throw *)
(* ================================================================== *)

(** The two kinds of exception the modelled code raises itself:
    [new Error(msg)] and the engine's [TypeError]. [UserError] stands for
    whatever a collaborator (driver, handler, hook) throws. *)
Inductive error : Type :=
| Error (msg : string)
| TypeError
| UserError (tag : string).

Inductive result (A : Type) : Type :=
| Ok (a : A)
| Throw (e : error).
Arguments Ok {A} a.
Arguments Throw {A} e.

Definition rbind {A B} (r : result A) (k : A -> result B) : result B :=
  match r with
  | Ok a => k a
  | Throw e => Throw e
  end.

(** [l.map(f)] / [l.forEach(f)] threading a state, stopping at the first
    exception *)
Fixpoint each {S A} (f : S -> A -> result S) (l : list A) (s : S)
  : result S :=
  match l with
  | [] => Ok s
  | x :: rest => rbind (f s x) (each f rest)
  end.

(* ================================================================== *)
(** * JavaScript objects used as dictionaries *)
(* ================================================================== *)

Module JsObject.

Definition obj (V : Type) : Type := list (string * V).

Section Ops.
Context {V : Type}.

(** [o[k]], [None] for [undefined] *)
Fixpoint get (k : string) (o : obj V) : option V :=
  match o with
  | [] => None
  | (k', v) :: o' => if String.eqb k k' then Some v else get k o'
  end.

(** [o[k] = v]: an existing key keeps its place, a new key goes last *)
Fixpoint set (k : string) (v : V) (o : obj V) : obj V :=
  match o with
  | [] => [(k, v)]
  | (k', v') :: o' =>
      if String.eqb k k' then (k, v) :: o' else (k', v') :: set k v o'
  end.

Definition has (k : string) (o : obj V) : bool :=
  match get k o with Some _ => true | None => false end.

(** The names of the properties of [Object.prototype]. For such a name
    [k] and an object without the own key [k], [o[k]] is the inherited
    property, which is truthy, and not [undefined]; the assignment
    [o["__proto__"] = v] sets the prototype of [o] and adds no key. *)
Definition inherited (k : string) : bool :=
  existsb (String.eqb k)
    ["constructor"; "__defineGetter__"; "__defineSetter__";
     "hasOwnProperty"; "__lookupGetter__"; "__lookupSetter__";
     "isPrototypeOf"; "propertyIsEnumerable"; "toString"; "valueOf";
     "__proto__"; "toLocaleString"].

(** The assignments [o[k] = v] for the pairs of a list, in order *)
Definition set_all (kvs : list (string * V)) (o : obj V) : obj V :=
  fold_left (fun o kv => set (fst kv) (snd kv) o) kvs o.
End Ops.

(** ** Enumeration order *)

Definition is_digit (c : ascii) : bool :=
  let n := nat_of_ascii c in ((48 <=? n) && (n <=? 57))%nat.

Fixpoint all_digits (s : string) : bool :=
  match s with
  | EmptyString => true
  | String c s' => is_digit c && all_digits s'
  end.

Fixpoint digits_value (acc : N) (s : string) : N :=
  match s with
  | EmptyString => acc
  | String c s' => digits_value (acc * 10 + (N_of_ascii c - 48))%N s'
  end.

(** An array index is a canonical numeric string ("0", or digits without a
    leading zero) whose value is at most 2^32 - 2. *)
Definition array_index (k : string) : option N :=
  match k with
  | EmptyString => None
  | String c rest =>
      if all_digits k
         && (negb (Ascii.eqb c "0") || String.eqb rest EmptyString)
         && (String.length k <=? 10)%nat
      then let n := digits_value 0 k in
           if (n <=? 4294967294)%N then Some n else None
      else None
  end.

Fixpoint insert_sorted (x : N * string) (l : list (N * string))
  : list (N * string) :=
  match l with
  | [] => [x]
  | y :: l' => if (fst x <=? fst y)%N then x :: l else y :: insert_sorted x l'
  end.

Fixpoint index_keys (ks : list string) : list (N * string) :=
  match ks with
  | [] => []
  | k :: rest =>
      match array_index k with
      | Some n => insert_sorted (n, k) (index_keys rest)
      | None => index_keys rest
      end
  end.

Definition is_plain (k : string) : bool :=
  match array_index k with Some _ => false | None => true end.

(** Own property keys in enumeration order *)
Definition order_keys (ks : list string) : list string :=
  map snd (index_keys ks) ++ filter is_plain ks.

Definition keys {V} (o : obj V) : list string := order_keys (map fst o).

(** ** Objects with one entry per item of a list *)

(** The object with the entry [key x : val x] for every [x] of [l], in
    the order of [l] *)
Definition zone {V} (key : string -> string) (val : string -> V)
    (l : list string) : obj V :=
  map (fun x => (key x, val x)) l.

(** [val] with the value at [x] replaced *)
Definition upd {V} (val : string -> V) (x : string) (v : V) : string -> V :=
  fun y => if String.eqb y x then v else val y.

(** [if (!o[k]) o[k] = {}], for an object of objects and a name [k]
    that is not [inherited] *)
Definition ensure_key {V} (k : string) (o : obj (obj V)) : obj (obj V) :=
  if has k o then o else set k [] o.

(** [o[k][f] = v], when [o[k]] is there *)
Definition set_field {V} (k f : string) (v : V) (o : obj (obj V))
  : obj (obj V) :=
  match get k o with
  | Some fields => set k (set f v fields) o
  | None => o
  end.

(** The strings of a list are pairwise distinct *)
Fixpoint distinct (ks : list string) : bool :=
  match ks with
  | [] => true
  | k :: rest =>
      negb (existsb (String.eqb k) rest) && distinct rest
  end.

(** The assignments [o[k][f] = v] for the pairs of a list, in order *)
Definition set_fields {V} (k : string) (kvs : list (string * V))
    (o : obj (obj V)) : obj (obj V) :=
  fold_left (fun o kv => set_field k (fst kv) (snd kv) o) kvs o.

End JsObject.
Import JsObject.

(* ================================================================== *)
(** * The expression parser (class Resolver) *)
(* ================================================================== *)

Module Parser.
Import JsString.

(** The alternatives of [/<=>|>=|<=|=|>|<|~|#/], in the order they are
    written *)
Definition operators : list string :=
  ["<=>"; ">="; "<="; "="; ">"; "<"; "~"; "#"].

(** The first alternative that matches at the start of [s] *)
Definition match_here (s : string) : option string :=
  find (fun op => prefix op s) operators.

(** [regex.exec(s)]: the position of the match and the matched text
    ([op[0]]); the positions are tried from left to right *)
Fixpoint exec (s : string) : option (nat * string) :=
  match match_here s with
  | Some op => Some (0, op)
  | None =>
      match s with
      | EmptyString => None
      | String _ s' =>
          match exec s' with
          | Some (i, op) => Some (S i, op)
          | None => None
          end
      end
  end.

Definition conditions : Type := list (list string).

(** The body of the callback that [parseFilterExpression] maps over the
    clauses. [filter[tablename]] is read among the own keys: the one key
    of [filter] is the trimmed table name, taken not to be [__proto__]. *)
Definition filter_clause (tablename : string) (filter : obj conditions)
    (f1 : string) : result (obj conditions) :=
  match exec f1 with
  | None => Throw (Error ("Filter operation not suported in: " ++ f1)%string)
  | Some (_, op0) =>
      let op := trim op0 in
      let condition := map trim (op :: split op f1) in
      match get tablename filter with
      | None => Throw TypeError
      | Some arr => Ok (set tablename (arr ++ [condition]) filter)
      end
  end.

(** [filter[tablename.trim()] = []] adds the one key of the result, for
    a trimmed table name other than [__proto__] *)
Definition parseFilterExpression (filterExpr tablename : string)
  : result (obj conditions) :=
  let filter := set (trim tablename) [] [] in
  each (filter_clause tablename) (split ";" filterExpr) filter.

Definition pagination_clause (tablename : string)
    (pagination : obj conditions) (f1 : string) : result (obj conditions) :=
  let params := map trim (split "=" f1) in
  match get tablename pagination with
  | None => Throw TypeError
  | Some arr => Ok (set tablename (arr ++ [params]) pagination)
  end.

(** [pagination[tablename.trim()] = []] adds the one key of the result,
    for a trimmed table name other than [__proto__] *)
Definition parsePaginationExpression (expression tablename : string)
  : result (obj conditions) :=
  let pagination := set (trim tablename) [] [] in
  each (pagination_clause tablename) (split ";" expression) pagination.

(** ** What the parsers are expected to give *)

(** A clause contains an occurrence of an operator *)
Definition has_operator (clause : string) : Prop :=
  exists i op, In op operators /\ prefix op (drop i clause) = true.

(** The condition of a clause: the operator found, then the trimmed
    pieces of the clause cut at the occurrences of that operator *)
Definition condition_of (clause : string) : list string :=
  match exec clause with
  | Some (_, op) => op :: map trim (split op clause)
  | None => []
  end.

(** The pair of a pagination clause *)
Definition pair_of (clause : string) : list string :=
  map trim (split "=" clause).

End Parser.

(* ================================================================== *)
(** * Driver metadata *)
(* ================================================================== *)

Module Foreign.
(** [column.__foreign] *)
Record t : Type := mk { tablename : string; columnname : string }.
End Foreign.

Module Column.
(** The metadata of one column, [dbSchema[tablename][c]]. [nativeType]
    stands for what only the driver reads. *)
Record t : Type := mk {
  name : string;
  nativeType : string;
  __foreign : option Foreign.t
}.
End Column.

Module Reverse.
(** One entry of [dbSchema[tablename].__reverse] *)
Record t : Type := mk {
  ftablename : string;
  fcolumnname : string;
  columnname : string
}.
End Reverse.

Module Table.
(** [dbSchema[tablename]]: the columns by name, and [__reverse] *)
Record t : Type := mk {
  columns : obj Column.t;
  __reverse : list Reverse.t
}.
End Table.

Definition DbSchema : Type := obj Table.t.

(* ================================================================== *)
(** * The schema compiler (src/graphql/compiler.js) *)
(* ================================================================== *)

Module Compiler.
Import JsString.

Definition nl : string := String (ascii_of_nat 10) EmptyString.

(** The [type] of a field: a name, or the one-element array [[name]] *)
Inductive TypeRef : Type :=
| Named (n : string)
| ListOf (n : string).

(** A field of a type: [{ name, type, params }]; [params] is absent in the
    [items] field of a page type *)
Record FieldDef : Type := mkField {
  name : string;
  type : TypeRef;
  params : option (obj string)
}.

(** [this.schema = { type: {}, input: {} }] *)
Record Schema : Type := mkSchema {
  types : obj (obj FieldDef);
  inputs : obj (obj string)
}.

Definition empty_schema : Schema := mkSchema [] [].

(** What the compiler asks of the driver *)
Record Driver : Type := mkDriver {
  getTableColumnsFromSchema : string -> list string;
  mapDbColumnToGraphqlType : string -> option Column.t -> result string
}.

(** A stretch of an async method between two awaits: it updates the
    schema in place and may throw, leaving what it wrote. *)
Definition segment : Type := Schema -> Schema * option error.

Definition seg_pure (f : Schema -> Schema) : segment :=
  fun s => (f s, None).

Definition seg_skip : segment := fun s => (s, None).

(** [l.forEach(f)] / [l.map(f)] on the schema, stopping at an exception *)
Fixpoint seg_each {A} (f : A -> segment) (l : list A) : segment :=
  fun s =>
    match l with
    | [] => (s, None)
    | x :: rest =>
        match f x s with
        | (s', None) => seg_each f rest s'
        | (s', Some e) => (s', Some e)
        end
    end.

Definition seg_seq (a b : segment) : segment :=
  fun s =>
    match a s with
    | (s', None) => b s'
    | (s', Some e) => (s', Some e)
    end.

(** [this.schema.type[t][f] = def], a [TypeError] when [type[t]] is
    undefined *)
Definition set_type_field (t f : string) (def : FieldDef) : segment :=
  fun s =>
    match get t (types s) with
    | Some fields =>
        (mkSchema (set t (set f def fields) (types s)) (inputs s), None)
    | None => (s, Some TypeError)
    end.

Definition set_input_field (i f : string) (ty : string) : segment :=
  fun s =>
    match get i (inputs s) with
    | Some fields =>
        (mkSchema (types s) (set i (set f ty fields) (inputs s)), None)
    | None => (s, Some TypeError)
    end.

(** [if (!this.schema.type[t]) this.schema.type[t] = {}], for a name
    [t] that is not [inherited] (with an inherited name the test finds
    the inherited property and nothing is added) *)
Definition ensure_type (t : string) (s : Schema) : Schema :=
  if has t (types s) then s else mkSchema (set t [] (types s)) (inputs s).

(** [if (!this.schema.input[i]) this.schema.input[i] = {}], for a name
    [i] that is not [inherited] *)
Definition ensure_input (i : string) (s : Schema) : Schema :=
  if has i (inputs s) then s else mkSchema (types s) (set i [] (inputs s)).

(** [try { body } catch (err) {}]: what [body] wrote before it threw
    stays *)
Definition try_catch (body : segment) : segment :=
  fun s => (fst (body s), None).

(** The parameters of the paginated and of the singleton fields *)
Definition query_params : obj string :=
  [("filter", "String"); ("pagination", "String"); ("where", "Condition");
   ("_debug", "Boolean"); ("_cache", "Boolean")].

(** ** Calls that are not awaited *)

(** The compiler at some point of a run: its schema, the jobs that wait in
    the job queue (each the segments an async method has still to run),
    and the exceptions that ended methods nobody awaited *)
Record Run : Type := mkRun {
  schema : Schema;
  queue : list (list segment);
  rejected : list error
}.

(** A call of an async method that is not awaited, and the resumption of
    one by the job queue: its next segment runs; what is left of the
    method is a job put at the end of the queue; an exception ends the
    method. *)
Definition call (m : list segment) (r : Run) : Run :=
  match m with
  | [] => r
  | g :: rest =>
      match g (schema r) with
      | (s', None) =>
          mkRun s'
            (match rest with [] => queue r | _ => queue r ++ [rest] end)
            (rejected r)
      | (s', Some e) => mkRun s' (queue r) (rejected r ++ [e])
      end
  end.

(** The job queue: the first job is resumed, until no job is left *)
Fixpoint run_jobs (fuel : nat) (r : Run) : Run :=
  match fuel with
  | O => r
  | S fuel' =>
      match queue r with
      | [] => r
      | job :: queue' =>
          run_jobs fuel' (call job (mkRun (schema r) queue' (rejected r)))
      end
  end.

(** The segments still to run *)
Definition pending (queue : list (list segment)) : nat :=
  list_sum (map (@List.length segment) queue).

(** The run once the job queue has emptied: every resumption runs a
    segment, so [pending] resumptions are enough *)
Definition settle (r : Run) : Run := run_jobs (pending (queue r)) r.

(** ** The order in which the job queue runs the segments *)

(** [s'] has the types and the inputs of [s], and maybe more *)
Definition extends (s s' : Schema) : Prop :=
  (forall k, has k (types s) = true -> has k (types s') = true) /\
  (forall k, has k (inputs s) = true -> has k (inputs s') = true).

(** A method that cannot throw, whatever is added to the schema between
    its segments, and that only adds to the schema *)
Fixpoint robust (job : list segment) (s : Schema) : Prop :=
  match job with
  | [] => True
  | g :: rest =>
      forall s', extends s s' ->
        snd (g s') = None /\ extends s' (fst (g s')) /\
        robust rest (fst (g s'))
  end.

(** The next segments of the jobs of a queue, one after the other *)
Definition heads (q : list (list segment)) (s : Schema) : Schema :=
  fold_left (fun s job => match job with
                          | [] => s
                          | g :: _ => fst (g s)
                          end) q s.

(** What is left of the jobs after their next segments *)
Definition tails (q : list (list segment)) : list (list segment) :=
  filter (fun job => match job with [] => false | _ => true end)
    (map (@tl segment) q).

(** [n] turns of the queue *)
Fixpoint layers (n : nat) (q : list (list segment)) (s : Schema) : Schema :=
  match n with
  | O => s
  | S n' => layers n' (tails q) (heads q s)
  end.

Fixpoint tails_n (n : nat) (q : list (list segment))
  : list (list segment) :=
  match n with
  | O => q
  | S n' => tails_n n' (tails q)
  end.

Section WithDriver.
(** [utils.toCamelCase], of [src/utils/utils], which the sources do not
    include: a parameter of the development *)
Variable toCamelCase : string -> string.
Variable dbSchema : DbSchema.
Variable dbDriver : Driver.

(** [this.dbSchema[tablename][c]]: a [TypeError] when the table is
    undefined, [Ok None] when the column is *)
Definition column_meta (tablename c : string) : result (option Column.t) :=
  match get tablename dbSchema with
  | None => Throw TypeError
  | Some t => Ok (get c (Table.columns t))
  end.

(** ** mapDbTableToGraphqlType *)

(** The callback of [columns.forEach]: the assignment inside [try] *)
Definition type_scalar (field tablename child : string) : segment :=
  try_catch (fun s =>
    match get field (types s) with
    | None => (s, Some TypeError)
    | Some _ =>
        match rbind (column_meta tablename child)
                    (mapDbColumnToGraphqlType dbDriver child) with
        | Throw e => (s, Some e)
        | Ok ty =>
            set_type_field field child
              (mkField child (Named ty) (Some [])) s
        end
    end).

(** The callback of [columns.map]: the foreign relation of a column *)
Definition type_foreign (field tablename c : string) : segment :=
  fun s =>
    match column_meta tablename c with
    | Throw e => (s, Some e)
    | Ok None => (s, Some TypeError)
    | Ok (Some column) =>
        match Column.__foreign column with
        | Some fk =>
            let child := (c ++ "_" ++ Foreign.tablename fk)%string in
            set_type_field field child
              (mkField child (Named (toCamelCase (Foreign.tablename fk)))
                 (Some [])) s
        | None => (s, None)
        end
    end.

(** The callback of [__reverse.map] *)
Definition type_reverse (field : string) (r : Reverse.t) : segment :=
  let child := Reverse.ftablename r in
  set_type_field field child
    (mkField child (Named (toCamelCase child ++ "Page")%string)
       (Some query_params)).

Definition page_fields (field : string) : obj FieldDef :=
  [("total", mkField "total" (Named "Int") (Some []));
   ("items", mkField "items" (ListOf field) None)].

Definition type_page (field : string) : segment :=
  seg_pure (fun s =>
    mkSchema (set (field ++ "Page")%string (page_fields field) (types s))
             (inputs s)).

Definition type_reverses (field tablename : string) : segment :=
  fun s =>
    match get tablename dbSchema with
    | None => (s, Some TypeError)
    | Some t => seg_each (type_reverse field) (Table.__reverse t) s
    end.

(** The segments of [mapDbTableToGraphqlType]: up to the first [await];
    the [forEach] and its [await]; the rest *)
Definition mapDbTableToGraphqlType (tablename : string) : list segment :=
  let field := toCamelCase tablename in
  let columns := getTableColumnsFromSchema dbDriver tablename in
  [ seg_pure (ensure_type field);
    seg_each (type_scalar field tablename) columns;
    seg_seq (seg_each (type_foreign field tablename) columns)
      (seg_seq (type_reverses field tablename) (type_page field)) ].

(** ** mapDbTableToGraphqlQuery, mapDbTableToGraphqlFirstOf *)

Definition mapDbTableToGraphqlQuery (tablename : string) : list segment :=
  let field := toCamelCase tablename in
  [ seg_skip;
    seg_seq (seg_pure (ensure_type "Query"))
      (set_type_field "Query" (field ++ "GetPage")%string
         (mkField (field ++ "GetPage")%string
            (Named (field ++ "Page")%string) (Some query_params))) ].

Definition mapDbTableToGraphqlFirstOf (tablename : string) : list segment :=
  let field := toCamelCase tablename in
  [ seg_skip;
    seg_seq (seg_pure (ensure_type "Query"))
      (set_type_field "Query" (field ++ "GetFirst")%string
         (mkField (field ++ "GetFirst")%string (Named field)
            (Some query_params))) ].

(** ** getInputName, mapDbTableToGraphqlInput *)

Definition getInputName (tablename : string) : string :=
  (toCamelCase tablename ++ "Input")%string.

Definition input_scalar (name tablename col : string) : segment :=
  try_catch (fun s =>
    match get name (inputs s) with
    | None => (s, Some TypeError)
    | Some _ =>
        match rbind (column_meta tablename col)
                    (mapDbColumnToGraphqlType dbDriver col) with
        | Throw e => (s, Some e)
        | Ok ty => set_input_field name col ty s
        end
    end).

(** The segments of [mapDbTableToGraphqlInput]: the call of
    [getInputName] up to its [await]; the end of [getInputName], which
    resumes the caller; up to [await columns]; the [forEach] and its
    [await]; the return *)
Definition mapDbTableToGraphqlInput (tablename : string) : list segment :=
  let name := getInputName tablename in
  let columns := getTableColumnsFromSchema dbDriver tablename in
  [ seg_skip;
    seg_skip;
    seg_pure (ensure_input name);
    seg_each (input_scalar name tablename) columns;
    seg_skip ].

(** ** mapDbTableToGraphqlMutation *)

(** The segments: up to [await toCamelCase]; up to [await getInputName],
    which has run to its own [await]; the end of [getInputName]; the
    assignment *)
Definition mapDbTableToGraphqlMutation (tablename : string)
  : list segment :=
  let field := toCamelCase tablename in
  let name := getInputName tablename in
  [ seg_skip;
    seg_pure (ensure_type "Mutation");
    seg_skip;
    set_type_field "Mutation" (field ++ "PutItem")%string
      (mkField (field ++ "PutItem")%string (Named field)
         (Some [("_debug", "Boolean"); ("input", (name ++ "!")%string)])) ].

(** ** addType, addInput *)

Definition addType (type field : string) (returns : TypeRef)
    (params : option (obj string)) : segment :=
  seg_seq (seg_pure (ensure_type type))
    (set_type_field type field (mkField field returns params)).

Definition addInput (input field subType : string) : segment :=
  seg_seq (seg_pure (ensure_input input))
    (set_input_field input field subType).

(** ** Running async methods *)

(** [await m(...)]: the segments one after the other; an exception
    ends the method and is thrown at the [await] *)
Fixpoint await (m : list segment) : segment :=
  match m with
  | [] => seg_skip
  | g :: rest => seg_seq g (await rest)
  end.

(** The five passes in the order the builds call them *)
Definition passes (tablename : string) : list (list segment) :=
  [ mapDbTableToGraphqlType tablename;
    mapDbTableToGraphqlQuery tablename;
    mapDbTableToGraphqlFirstOf tablename;
    mapDbTableToGraphqlMutation tablename;
    mapDbTableToGraphqlInput tablename ].

(** [buildSchemaByTable]: every pass awaited *)
Definition buildSchemaByTable (tablename : string) : segment :=
  seg_each await (passes tablename).

(** [async_buildSchema]: every pass of every table awaited, the tables
    in the order of [for (tablename in this.dbSchema)] *)
Definition async_buildSchema : segment :=
  seg_each buildSchemaByTable (keys dbSchema).

(** [buildSchema]: the methods are called and not awaited, the tables in
    the order of [for (tablename in this.dbSchema)]. The result is the
    schema at the [return], with the jobs then in the queue. *)
Definition buildSchema (s : Schema) : Run :=
  fold_left (fun r tablename => fold_left (fun r m => call m r)
                                  (passes tablename) r)
    (keys dbSchema) (mkRun s [] []).

(** The schema after a full build by [buildSchema], once the job queue
    has emptied *)
Definition built : Schema := schema (settle (buildSchema empty_schema)).

(** ** Rendering *)

Definition buildParamsFromObject (o : obj string) (join_ : string)
  : string :=
  let params :=
    flat_map (fun k => match get k o with
                       | Some v => [(k ++ ": " ++ v)%string]
                       | None => []
                       end) (keys o) in
  match params with
  | [] => EmptyString
  | _ => ("(" ++ join join_ params ++ ")")%string
  end.

Definition buildQuery (name returns : string) (params : obj string)
  : string :=
  (name ++ buildParamsFromObject params ", " ++ ": " ++ returns)%string.

Definition render_field (f : FieldDef) : string :=
  let type := match type f with
              | ListOf n => ("[" ++ n ++ "]")%string
              | Named n => n
              end in
  ("  " ++ name f
     ++ buildParamsFromObject
          (match params f with Some p => p | None => [] end) ", "
     ++ ": " ++ type)%string.

Definition type_block (field : string) (fields : obj FieldDef) : string :=
  let subfields :=
    flat_map (fun key => match get key fields with
                         | Some f => [render_field f]
                         | None => []
                         end) (keys fields) in
  ("type " ++ field ++ " {" ++ nl ++ join nl subfields ++ nl ++ "}")%string.

Definition input_block (field : string) (fields : obj string) : string :=
  let subfields :=
    flat_map (fun key => match get key fields with
                         | Some ty => [("  " ++ key ++ ": " ++ ty)%string]
                         | None => []
                         end) (keys fields) in
  ("input " ++ field ++ " {" ++ nl ++ join nl subfields ++ nl ++ "}")%string.

(** The array [items] of [getSDL] *)
Definition sdl_items (s : Schema) : list string :=
  flat_map (fun field => match get field (types s) with
                         | Some fields => [type_block field fields]
                         | None => []
                         end) (keys (types s))
  ++ flat_map (fun field => match get field (inputs s) with
                            | Some fields => [input_block field fields]
                            | None => []
                            end) (keys (inputs s)).

(** [getSDL(refresh)] on the cached text [sdl]: the text returned and
    the new cache. The method awaits inside its two loops; this is the
    call made when no job waits in the queue, so that nothing runs
    between two of its steps. *)
Definition getSDL (refresh : bool) (sdl : string) (s : Schema)
  : string * string :=
  let sdl' :=
    if (String.eqb sdl EmptyString || refresh)%bool
    then (join (nl ++ nl) (sdl_items s) ++ nl)%string
    else sdl in
  (trim sdl', sdl').

(** ** What a full build is expected to give *)

Definition tables : list string := keys dbSchema.

(** The type the driver maps a column to *)
Definition column_type (tablename c : string) : result string :=
  rbind (column_meta tablename c) (mapDbColumnToGraphqlType dbDriver c).

(** The scalar field of a column: none when the driver fails to map the
    column *)
Definition scalar_entry (tablename c : string)
  : list (string * FieldDef) :=
  match column_type tablename c with
  | Ok ty => [(c, mkField c (Named ty) (Some []))]
  | Throw _ => []
  end.

(** One scalar field per column the driver maps, in the order the driver
    enumerates the columns *)
Definition scalar_fields (tablename : string) : obj FieldDef :=
  flat_map (scalar_entry tablename)
    (getTableColumnsFromSchema dbDriver tablename).

(** The relation field of a column with a foreign key *)
Definition foreign_entry (tablename c : string)
  : list (string * FieldDef) :=
  match column_meta tablename c with
  | Ok (Some column) =>
      match Column.__foreign column with
      | Some fk =>
          let child := (c ++ "_" ++ Foreign.tablename fk)%string in
          [(child,
            mkField child (Named (toCamelCase (Foreign.tablename fk)))
              (Some []))]
      | None => []
      end
  | _ => []
  end.

(** One relation field per column with a foreign key, in column order *)
Definition foreign_fields (tablename : string) : obj FieldDef :=
  flat_map (foreign_entry tablename)
    (getTableColumnsFromSchema dbDriver tablename).

Definition reverse_entry (r : Reverse.t) : string * FieldDef :=
  (Reverse.ftablename r,
   mkField (Reverse.ftablename r)
     (Named (toCamelCase (Reverse.ftablename r) ++ "Page")%string)
     (Some query_params)).

(** One paginated field per reverse relation, in the order of
    [__reverse] *)
Definition reverse_fields (tablename : string) : obj FieldDef :=
  match get tablename dbSchema with
  | Some t => map reverse_entry (Table.__reverse t)
  | None => []
  end.

(** The fields of the type of a table: scalars, then foreign relations,
    then reverse relations *)
Definition expected_fields (tablename : string) : obj FieldDef :=
  scalar_fields tablename ++ foreign_fields tablename
    ++ reverse_fields tablename.

Definition query_entries (tablename : string)
  : list (string * FieldDef) :=
  let field := toCamelCase tablename in
  [((field ++ "GetPage")%string,
    mkField (field ++ "GetPage")%string (Named (field ++ "Page")%string)
      (Some query_params));
   ((field ++ "GetFirst")%string,
    mkField (field ++ "GetFirst")%string (Named field)
      (Some query_params))].

(** The fields of [Query]: the page and the first of every table, in
    table order *)
Definition query_fields : obj FieldDef := flat_map query_entries tables.

Definition mutation_entry (tablename : string) : string * FieldDef :=
  let field := toCamelCase tablename in
  ((field ++ "PutItem")%string,
   mkField (field ++ "PutItem")%string (Named field)
     (Some [("_debug", "Boolean");
            ("input", (getInputName tablename ++ "!")%string)])).

Definition mutation_fields : obj FieldDef := map mutation_entry tables.

Definition input_entry (tablename c : string) : list (string * string) :=
  match column_type tablename c with
  | Ok ty => [(c, ty)]
  | Throw _ => []
  end.

Definition input_fields (tablename : string) : obj string :=
  flat_map (input_entry tablename)
    (getTableColumnsFromSchema dbDriver tablename).

Definition page_entry (tablename : string) : string * obj FieldDef :=
  ((toCamelCase tablename ++ "Page")%string,
   page_fields (toCamelCase tablename)).

(** The types in order: the types of the tables in the order the tables
    are processed; [Query] and [Mutation]; the page types in table
    order *)
Definition expected_types : obj (obj FieldDef) :=
  zone toCamelCase expected_fields tables
  ++ match tables with
     | [] => []
     | _ => [("Query", query_fields); ("Mutation", mutation_fields)]
     end
  ++ map page_entry tables.

Definition expected_inputs : obj (obj string) :=
  zone getInputName input_fields tables.

Definition expected_schema : Schema :=
  mkSchema expected_types expected_inputs.

(** The block of a type: its fields in the order of its entries *)
Definition expected_type_block (entry : string * obj FieldDef) : string :=
  ("type " ++ fst entry ++ " {" ++ nl
     ++ join nl (map (fun kv => render_field (snd kv)) (snd entry))
     ++ nl ++ "}")%string.

Definition expected_input_block (entry : string * obj string) : string :=
  ("input " ++ fst entry ++ " {" ++ nl
     ++ join nl (map (fun kv => ("  " ++ fst kv ++ ": " ++ snd kv)%string)
                   (snd entry))
     ++ nl ++ "}")%string.

(** The blocks of the text: the types in order, then the inputs *)
Definition expected_items : list string :=
  map expected_type_block expected_types
  ++ map expected_input_block expected_inputs.

Definition expected_sdl : string :=
  trim (join (nl ++ nl) expected_items ++ nl)%string.

(** The generated names do not collide: the names of the types are
    pairwise distinct, and so are the names of the fields of the type of
    each table *)
Definition names_distinct : Prop :=
  NoDup (map fst expected_types) /\
  forall tablename, In tablename tables ->
    NoDup (map fst (expected_fields tablename)).

(** No generated name is an array index *)
Definition names_plain : Prop :=
  forall tablename, In tablename tables ->
    is_plain (toCamelCase tablename) = true /\
    Forall (fun k => is_plain k = true)
      (map fst (expected_fields tablename)).

(** The schema describes every column the driver enumerates, and no
    column is named [__proto__]: the field of such a column would not
    become a key of the type *)
Definition columns_described : Prop :=
  forall tablename c, In tablename tables ->
    In c (getTableColumnsFromSchema dbDriver tablename) ->
    c <> "__proto__" /\
    exists column, column_meta tablename c = Ok (Some column).

(** ** The layers of a full build, table by table, as assignments *)

(** Second layer: the scalar fields, the two fields of [Query], and
    [Mutation] *)
Definition layer1_types (tablename : string) (tys : obj (obj FieldDef))
  : obj (obj FieldDef) :=
  ensure_key "Mutation"
    (set_fields "Query" (query_entries tablename)
       (ensure_key "Query"
          (set_fields (toCamelCase tablename) (scalar_fields tablename)
             tys))).

(** Third layer: the relation fields and the page type; the input *)
Definition layer2_types (tablename : string) (tys : obj (obj FieldDef))
  : obj (obj FieldDef) :=
  let field := toCamelCase tablename in
  set (field ++ "Page")%string (page_fields field)
    (set_fields field (foreign_fields tablename ++ reverse_fields tablename)
       tys).

Definition layer2_inputs (tablename : string) (ins : obj (obj string))
  : obj (obj string) :=
  ensure_key (getInputName tablename) ins.

(** Fourth layer: the field of [Mutation]; the fields of the input *)
Definition layer3_types (tablename : string) (tys : obj (obj FieldDef))
  : obj (obj FieldDef) :=
  set_fields "Mutation" [mutation_entry tablename] tys.

Definition layer3_inputs (tablename : string) (ins : obj (obj string))
  : obj (obj string) :=
  set_fields (getInputName tablename) (input_fields tablename) ins.

(** The keys [Query] and [Mutation], present when there is a table *)
Definition special_keys : list string :=
  match tables with [] => [] | _ => ["Query"; "Mutation"] end.

(** What the second layer does to [Query] and [Mutation] *)
Definition tail1 (tablename : string) (tail : obj (obj FieldDef))
  : obj (obj FieldDef) :=
  ensure_key "Mutation"
    (set_fields "Query" (query_entries tablename) (ensure_key "Query" tail)).

(** ** What a build that awaits every pass is expected to give *)

(** The type of a table and its page type *)
Definition table_entries (tablename : string) : obj (obj FieldDef) :=
  [(toCamelCase tablename, expected_fields tablename); page_entry tablename].

(** The types in order: the type and the page type of the first table,
    [Query] and [Mutation], then the type and the page type of every
    other table *)
Definition awaited_types : obj (obj FieldDef) :=
  match tables with
  | [] => []
  | first :: rest =>
      table_entries first
      ++ [("Query", query_fields); ("Mutation", mutation_fields)]
      ++ flat_map table_entries rest
  end.

(** The assignments of the awaited passes of a table, as one step on the
    types and one on the inputs *)
Definition table_types (tablename : string) (tys : obj (obj FieldDef))
  : obj (obj FieldDef) :=
  let field := toCamelCase tablename in
  set_fields "Mutation" [mutation_entry tablename]
    (ensure_key "Mutation"
       (set_fields "Query" (query_entries tablename)
          (ensure_key "Query"
             (set (field ++ "Page")%string (page_fields field)
                (set_fields field
                   (scalar_fields tablename ++ foreign_fields tablename
                    ++ reverse_fields tablename)
                   (ensure_key field tys)))))).

Definition table_inputs (tablename : string) (ins : obj (obj string))
  : obj (obj string) :=
  set_fields (getInputName tablename) (input_fields tablename)
    (ensure_key (getInputName tablename) ins).

End WithDriver.

End Compiler.

(* ================================================================== *)
(** * The resolver registry (class Resolver) *)
(* ================================================================== *)

Module Resolver.
Import JsString Parser.

#[local] Set Warnings "-register-all".

(** Values passed to and returned by resolvers: primitives (a number is
    an integer), arrays and plain objects held by value, and opaque host
    objects ([VHost]: the registry itself, the connection handle). *)
Inductive value : Type :=
| VUndefined
| VNull
| VBool (b : bool)
| VNum (z : Z)
| VStr (s : string)
| VArr (l : list value)
| VObj (o : list (string * value))
| VHost (tag : string).

(** [!!v] *)
Definition truthy (v : value) : bool :=
  match v with
  | VUndefined | VNull => false
  | VBool b => b
  | VNum z => negb (Z.eqb z 0)
  | VStr s => negb (String.eqb s EmptyString)
  | VArr _ | VObj _ | VHost _ => true
  end.

(** [String(v)], which is also what ['' + v] gives, for the values that
    are [printable] (below) *)
Fixpoint to_string (v : value) : string :=
  match v with
  | VUndefined => "undefined"
  | VNull => "null"
  | VBool true => "true"
  | VBool false => "false"
  | VNum z => of_Z z
  | VStr s => s
  | VArr l =>
      join "," (map (fun x => match x with
                              | VUndefined | VNull => EmptyString
                              | _ => to_string x
                              end) l)
  | VObj _ | VHost _ => "[object Object]"
  end.

(** The values whose text [to_string] gives as [String] does: a number
    is a safe integer (the text of a larger one is rounded, and written
    with an exponent from 10^21 on), an object is a plain one without a
    key [toString] or [valueOf] of its own, and no host object occurs. *)
Fixpoint printable (v : value) : bool :=
  match v with
  | VNum z => (Z.abs z <=? 9007199254740991)%Z
  | VArr l => forallb printable l
  | VObj o => negb (has "toString" o) && negb (has "valueOf" o)
  | VHost _ => false
  | _ => true
  end.

(** [v[k]]: reading a property of [undefined] or [null] is a
    [TypeError]; an absent property is [undefined] *)
Definition prop (v : value) (k : string) : result value :=
  match v with
  | VUndefined | VNull => Throw TypeError
  | VObj o => Ok (match get k o with Some x => x | None => VUndefined end)
  | VArr l =>
      Ok (match array_index k with
          | Some n => nth (N.to_nat n) l VUndefined
          | None => VUndefined
          end)
  | _ => Ok VUndefined
  end.

(** The parsed form of a filter or of a pagination, as a value *)
Definition value_of_conditions (o : obj conditions) : value :=
  VObj (map (fun '(k, cs) => (k, VArr (map (fun c => VArr (map VStr c)) cs)))
          o).

(** A call made to the driver *)
Inductive Call : Type :=
| CallPage (tablename : string) (args : obj value)
| CallPageTotal (tablename : string) (args : obj value)
| CallFirstOf (tablename : string) (args : obj value)
| CallPutItem (tablename : string) (data : obj value).

(** What the resolvers ask of the driver; [D] is the state of the database
    behind it *)
Module Driver.
Record t (D : Type) : Type := mk {
  db : value;
  dbSchema : DbSchema;
  getTablesFromSchema : list string;
  getTableColumnsFromSchema : string -> list string;
  getPrimaryKeyFromSchema : string -> string;
  page : string -> obj value -> D -> result value * D;
  pageTotal : string -> obj value -> D -> result value * D;
  firstOf : string -> obj value -> D -> result value * D;
  putItem : string -> obj value -> D -> result value * D
}.
Arguments mk {D}.
Arguments db {D}.
Arguments dbSchema {D}.
Arguments getTablesFromSchema {D}.
Arguments getTableColumnsFromSchema {D}.
Arguments getPrimaryKeyFromSchema {D}.
Arguments page {D}.
Arguments pageTotal {D}.
Arguments firstOf {D}.
Arguments putItem {D}.
End Driver.

Section WithStore.
(** The state of the database behind the driver *)
Variable D : Type.

(** The world a resolver runs in: the objects that are passed by
    reference (the context objects), the database, and the calls made to
    the driver so far *)
Record World : Type := mkWorld {
  heap : list (obj value);
  store : D;
  calls : list Call
}.

Definition loc : Type := nat.

(** An async function: it changes the world and returns or throws *)
Definition M (A : Type) : Type := World -> result A * World.

Definition ret {A} (a : A) : M A := fun w => (Ok a, w).
Definition throw {A} (e : error) : M A := fun w => (Throw e, w).
Definition bind {A B} (m : M A) (k : A -> M B) : M B :=
  fun w => match m w with
           | (Ok a, w') => k a w'
           | (Throw e, w') => (Throw e, w')
           end.
Definition lift {A} (r : result A) : M A := fun w => (r, w).

Notation "x <- m ;; k" := (bind m (fun x => k))
  (at level 61, m at next level, right associativity).

(** A call of a method of the driver, recorded in [calls] *)
Definition driver_call (c : Call) (f : D -> result value * D) : M value :=
  fun w =>
    let '(r, d') := f (store w) in
    (r, mkWorld (heap w) d' (calls w ++ [c])).

(** The arguments a resolver function is called with: [args] and
    [context] may be left out ([None] for [undefined]); a context is an
    object passed by reference *)
Definition handler : Type := value -> obj value -> loc -> M value.

Definition hook_fn : Type :=
  string -> string -> value -> obj value -> loc -> M value.

(** [this.beforeHook] *)
Record Hook : Type := mkHook {
  validator : hook_fn;
  rejected : hook_fn
}.

Definition default_hook : Hook :=
  mkHook (fun _ _ _ _ _ => ret (VBool true))
         (fun _ _ _ _ _ => ret VNull).

(** A function of the resolver map. It reads [this.beforeHook] when it
    is called: the hook then active is its first argument. *)
Definition resolverFn : Type :=
  Hook -> value -> option (obj value) -> option loc -> M value.

Definition Resolvers : Type := obj (obj resolverFn).

(** The function registered under [namespace] and [name], if there is
    one *)
Definition resolver_at (namespace name : string) (rs : Resolvers)
  : option resolverFn :=
  match get namespace rs with
  | Some fields => get name fields
  | None => None
  end.

(** ** parseArgsCommon *)

(** [Object.assign({}, args)]: the own properties in enumeration order *)
Definition assign (args : obj value) : obj value :=
  flat_map (fun k => match get k args with
                     | Some v => [(k, v)]
                     | None => []
                     end) (keys args).

Definition arg (k : string) (args : obj value) : value :=
  match get k args with Some v => v | None => VUndefined end.

(** [args.filter] is handed to [parseFilterExpression] as it is
    ([filterExpr.split] is a [TypeError] unless it is a string);
    [args.pagination] goes through [String(..)] *)
Definition parseArgsCommon (tablename : string) (args : obj value)
  : result (obj value) :=
  let localArgs := assign args in
  rbind
    (if truthy (arg "filter" args)
     then match arg "filter" args with
          | VStr f =>
              rbind (parseFilterExpression f tablename)
                (fun p => Ok (set "filter" (value_of_conditions p)
                                localArgs))
          | _ => Throw TypeError
          end
     else Ok localArgs)
    (fun localArgs =>
       if truthy (arg "pagination" args)
       then rbind (parsePaginationExpression
                     (to_string (arg "pagination" args)) tablename)
              (fun p => Ok (set "pagination" (value_of_conditions p)
                              localArgs))
       else Ok localArgs).

Section WithDriver.
(** [this.dbDriver] *)
Variable dbDriver : option (Driver.t D).
(** [utils.toCamelCase] (not among the sources) *)
Variable toCamelCase : string -> string.

(** [this.dbDriver.m(...)], a [TypeError] without a driver *)
Definition with_driver {A} (k : Driver.t D -> M A) : M A :=
  match dbDriver with
  | Some d => k d
  | None => throw TypeError
  end.

(** ** The API methods *)

Definition GetPage (tablename : string) (parent : value)
    (args : obj value) (context : option loc) : M value :=
  args <- lift (parseArgsCommon tablename args) ;;
  total <- with_driver (fun d =>
             driver_call (CallPageTotal tablename args)
               (Driver.pageTotal d tablename args)) ;;
  items <- with_driver (fun d =>
             driver_call (CallPage tablename args)
               (Driver.page d tablename args)) ;;
  ret (VObj [("total", total); ("tablename", VStr tablename);
             ("items", items)]).

Definition GetFirstOf (tablename : string) (parent : value)
    (args : obj value) (context : option loc) : M value :=
  args <- lift (parseArgsCommon tablename args) ;;
  with_driver (fun d =>
    driver_call (CallFirstOf tablename args) (Driver.firstOf d tablename args)).

Definition putItem (tablename : string) (parent : value)
    (data : obj value) (context : option loc) : M value :=
  with_driver (fun d =>
    let pk := Driver.getPrimaryKeyFromSchema d tablename in
    id <- lift (prop (arg "input" data) pk) ;;
    result <- driver_call (CallPutItem tablename data)
                (Driver.putItem d tablename data) ;;
    id <- (if truthy id then ret id else lift (prop result "0")) ;;
    let args :=
      [("filter",
        VObj [(tablename, VArr [VArr [VStr "="; VStr pk; id]])])] in
    driver_call (CallFirstOf tablename args) (Driver.firstOf d tablename args)).

(** ** add *)

(** [context.ioc = v] on the object at [l] *)
Definition set_ioc (l : loc) (v : value) : M unit :=
  fun w =>
    match nth_error (heap w) l with
    | None => (Throw TypeError, w)
    | Some o =>
        (Ok tt,
         mkWorld (firstn l (heap w) ++ set "ioc" v o
                    :: skipn (S l) (heap w))
                 (store w) (calls w))
    end.

(** [{}] as a default context: a new object *)
Definition new_object : M loc :=
  fun w => (Ok (List.length (heap w)),
            mkWorld (heap w ++ [[]]) (store w) (calls w)).

(** The value of [{ resolver: this, db }] *)
Definition ioc : value :=
  VObj [("resolver", VHost "Resolver");
        ("db", match dbDriver with
               | Some d => Driver.db d
               | None => VNull
               end)].

(** The default parameters [root = null], [args = {}] *)
Definition root_or_null (root : value) : value :=
  match root with VUndefined => VNull | _ => root end.

Definition args_or_empty (args : option (obj value)) : obj value :=
  match args with Some a => a | None => [] end.

(** The default parameter [context = {}], then [context.ioc = { .. }] *)
Definition enter (context : option loc) : M loc :=
  context <- match context with
             | Some l => ret l
             | None => new_object
             end ;;
  _ <- set_ioc context ioc ;;
  ret context.

(** What follows in the function that [add] stores: the validator, then
    the handler or the rejection *)
Definition guarded (namespace name : string) (cb : handler)
    (beforeHook : Hook) (root : value) (args : obj value) (context : loc)
  : M value :=
  passBefore <- validator beforeHook namespace name root args context ;;
  if truthy passBefore
  then cb root args context
  else rejected beforeHook namespace name root args context.

(** The function that [add] stores *)
Definition wrapped (namespace name : string) (cb : handler)
  : resolverFn :=
  fun beforeHook root args context =>
    let root := root_or_null root in
    let args := args_or_empty args in
    context <- enter context ;;
    guarded namespace name cb beforeHook root args context.

(** [if (!this.resolvers[namespace]) this.resolvers[namespace] = {}],
    for a namespace that is not [inherited] *)
Definition ensure_namespace (namespace : string) (rs : Resolvers)
  : Resolvers :=
  if has namespace rs then rs else set namespace [] rs.

(** [this.resolvers[namespace][name] = f] *)
Definition register (namespace name : string) (f : resolverFn)
    (rs : Resolvers) : Resolvers :=
  let rs := ensure_namespace namespace rs in
  match get namespace rs with
  | Some fields => set namespace (set name f fields) rs
  | None => rs
  end.

Definition add (namespace name : string) (cb : handler)
    (rs : Resolvers) : Resolvers :=
  register namespace name (wrapped namespace name cb) rs.

(** ** Relation resolvers *)

(** [(args.filter ? args.filter + ';' : '') + fcolumnname + '#' + v] *)
Definition relation_filter (args : obj value) (fcolumnname : string)
    (v : value) : string :=
  ((if truthy (arg "filter" args)
    then to_string (arg "filter" args) ++ ";"
    else EmptyString)
   ++ fcolumnname ++ "#" ++ to_string v)%string.

(** The function registered for a foreign key column; it is stored
    as it is, without the pipeline of [add] *)
Definition foreign_resolver (column : Column.t)
    (ftablename fcolumnname : string) : resolverFn :=
  fun _ item args context =>
    v <- lift (prop item (Column.name column)) ;;
    if negb (truthy v) then ret VNull
    else
      match args with
      | None => throw TypeError
      | Some args =>
          let args :=
            set "filter" (VStr (relation_filter args fcolumnname v))
              args in
          GetFirstOf ftablename item args context
      end.

Definition reverse_resolver (r : Reverse.t) : resolverFn :=
  fun _ item args context =>
    match args with
    | None => throw TypeError
    | Some args =>
        v <- lift (prop item (Reverse.columnname r)) ;;
        let args :=
          set "filter"
            (VStr (relation_filter args (Reverse.fcolumnname r) v))
            args in
        GetPage (Reverse.ftablename r) item args context
    end.

(** A step of a build of the resolver map: the map after it, and the
    exception that ended it, if any *)
Definition build_step : Type := Resolvers -> Resolvers * option error.

Fixpoint build_each {A} (f : A -> build_step) (l : list A)
  : build_step :=
  fun rs =>
    match l with
    | [] => (rs, None)
    | x :: rest =>
        match f x rs with
        | (rs', None) => build_each f rest rs'
        | (rs', Some e) => (rs', Some e)
        end
    end.

(** The callback of [columns.map] in [createForeignFieldsResolvers] *)
Definition foreign_step (d : Driver.t D) (tablename c : string)
  : build_step :=
  fun rs =>
    let queryName := toCamelCase tablename in
    match get tablename (Driver.dbSchema d) with
    | None => (rs, Some TypeError)
    | Some t =>
        match get c (Table.columns t) with
        | None => (rs, Some TypeError)
        | Some column =>
            match Column.__foreign column with
            | None => (rs, None)
            | Some fk =>
                let field := (c ++ "_" ++ Foreign.tablename fk)%string in
                (register queryName field
                   (foreign_resolver column (Foreign.tablename fk)
                      (Foreign.columnname fk)) rs, None)
            end
        end
    end.

Definition createForeignFieldsResolvers (d : Driver.t D)
    (tablename : string) : build_step :=
  build_each (foreign_step d tablename)
    (Driver.getTableColumnsFromSchema d tablename).

Definition createReverseRelationsResolvers (d : Driver.t D)
    (tablename : string) : build_step :=
  let queryName := toCamelCase tablename in
  fun rs =>
    match get tablename (Driver.dbSchema d) with
    | None => (rs, Some TypeError)
    | Some t =>
        build_each (fun r rs =>
          (register queryName (Reverse.ftablename r)
             (reverse_resolver r) rs, None)) (Table.__reverse t) rs
    end.

Definition addDefaultFieldsResolvers (tablename : string)
  : build_step :=
  fun rs =>
    let typeName := toCamelCase tablename in
    let rs :=
      add "Query" (typeName ++ "GetPage")%string
        (fun parent args context =>
           GetPage tablename parent args (Some context)) rs in
    let rs :=
      add "Query" (typeName ++ "GetFirst")%string
        (fun parent args context =>
           GetFirstOf tablename parent args (Some context)) rs in
    let rs :=
      add "Mutation" (typeName ++ "Put")%string
        (fun parent args context =>
           putItem tablename parent args (Some context)) rs in
    (rs, None).

(** [getResolvers(withDatabase)]: the map after the build, and the
    exception the build ended with, if any *)
Definition getResolvers (withDatabase : bool) : build_step :=
  match (if withDatabase then dbDriver else None) with
  | Some d =>
      build_each (fun tablename rs =>
        match addDefaultFieldsResolvers tablename rs with
        | (rs, Some e) => (rs, Some e)
        | (rs, None) =>
            match createForeignFieldsResolvers d tablename rs with
            | (rs, Some e) => (rs, Some e)
            | (rs, None) => createReverseRelationsResolvers d tablename rs
            end
        end) (Driver.getTablesFromSchema d)
  | None => fun rs => (rs, None)
  end.

End WithDriver.
End WithStore.

End Resolver.

(* ================================================================== *)
(** * The example of the README: tables foo and bar *)
(* ================================================================== *)

Module Example.

(** Modelled from the spec: [utils.toCamelCase] ([src/utils/utils] is not
    among the sources). The spec's end-to-end example turns the table
    names [foo] and [bar] into the type names [Foo] and [Bar]: the first
    letter is put in upper case. *)
Definition toCamelCase (s : string) : string :=
  match s with
  | EmptyString => EmptyString
  | String c r =>
      let n := nat_of_ascii c in
      String (if ((97 <=? n) && (n <=? 122))%nat
              then ascii_of_nat (n - 32) else c) r
  end.

(** [foo(id serial, name boolean)],
    [bar(id serial, foo_id integer references foo.id)] *)
Definition foo : Table.t :=
  Table.mk [("id", Column.mk "id" "serial" None);
            ("name", Column.mk "name" "boolean" None)]
           [].

Definition bar : Table.t :=
  Table.mk [("id", Column.mk "id" "serial" None);
            ("foo_id",
             Column.mk "foo_id" "integer" (Some (Foreign.mk "foo" "id")))]
           [].

Definition dbSchema : DbSchema := [("foo", foo); ("bar", bar)].

Definition columns_of (db : DbSchema) (tablename : string) : list string :=
  match get tablename db with
  | Some t => map fst (Table.columns t)
  | None => []
  end.

(** A column type mapping: it knows [serial], [integer] and [boolean] and
    throws on any other native type *)
Definition mapColumn (c : string) (meta : option Column.t) : result string :=
  match meta with
  | None => Throw TypeError
  | Some m =>
      if String.eqb (Column.nativeType m) "boolean" then Ok "Boolean"
      else if String.eqb (Column.nativeType m) "serial" then Ok "Int"
      else if String.eqb (Column.nativeType m) "integer" then Ok "Int"
      else Throw (UserError "unknown column type")
  end.

Definition compilerDriver (db : DbSchema) : Compiler.Driver :=
  Compiler.mkDriver (columns_of db) mapColumn.

(** A driver for the resolvers over a database that only counts the
    queries it has served; [firstOf] answers with the record [{ id: 1 }] *)
Definition resolverDriver : Resolver.Driver.t nat :=
  Resolver.Driver.mk (Resolver.VHost "knex") dbSchema ["foo"; "bar"]
    (columns_of dbSchema) (fun _ => "id")
    (fun _ _ n => (Ok (Resolver.VArr []), S n))
    (fun _ _ n => (Ok (Resolver.VNum 0), S n))
    (fun _ _ n => (Ok (Resolver.VObj [("id", Resolver.VNum 1)]), S n))
    (fun _ _ n => (Ok (Resolver.VArr [Resolver.VNum 1]), S n)).

(** A driver whose metadata has gone stale: for every table it
    enumerates a column [ghost] that the schema does not describe, and
    it lists a table [gone] that the schema does not have *)
Definition staleDriver : Resolver.Driver.t nat :=
  Resolver.Driver.mk (Resolver.VHost "knex") dbSchema ["foo"; "bar"; "gone"]
    (fun tablename => columns_of dbSchema tablename ++ ["ghost"])
    (fun _ => "id")
    (fun _ _ n => (Ok (Resolver.VArr []), S n))
    (fun _ _ n => (Ok (Resolver.VNum 0), S n))
    (fun _ _ n => (Ok (Resolver.VObj [("id", Resolver.VNum 1)]), S n))
    (fun _ _ n => (Ok (Resolver.VArr [Resolver.VNum 1]), S n)).

(** [people(id serial)], to which the table [posts] refers twice, by
    [author_id] and by [editor_id] *)
Definition people : Table.t :=
  Table.mk [("id", Column.mk "id" "serial" None)]
           [Reverse.mk "posts" "author_id" "id";
            Reverse.mk "posts" "editor_id" "id"].

Definition pressSchema : DbSchema := [("people", people)].

Definition pressDriver : Resolver.Driver.t nat :=
  Resolver.Driver.mk (Resolver.VHost "knex") pressSchema ["people"]
    (columns_of pressSchema) (fun _ => "id")
    (fun _ _ n => (Ok (Resolver.VArr []), S n))
    (fun _ _ n => (Ok (Resolver.VNum 0), S n))
    (fun _ _ n => (Ok (Resolver.VObj [("id", Resolver.VNum 1)]), S n))
    (fun _ _ n => (Ok (Resolver.VArr [Resolver.VNum 1]), S n)).


(** [users(id serial, posts integer, name boolean)], to which
    [posts(id serial, user_id integer references users.id)] refers: the
    reverse relation of [users] has the name of its column [posts] *)
Definition users : Table.t :=
  Table.mk [("id", Column.mk "id" "serial" None);
            ("posts", Column.mk "posts" "integer" None);
            ("name", Column.mk "name" "boolean" None)]
           [Reverse.mk "posts" "user_id" "id"].

Definition posts : Table.t :=
  Table.mk [("id", Column.mk "id" "serial" None);
            ("user_id",
             Column.mk "user_id" "integer"
               (Some (Foreign.mk "users" "id")))]
           [].

Definition blogSchema : DbSchema := [("users", users); ("posts", posts)].

(** [baz(id serial, data json)]: the driver cannot map [json] *)
Definition baz : Table.t :=
  Table.mk [("id", Column.mk "id" "serial" None);
            ("data", Column.mk "data" "json" None)]
           [].

Definition jsonSchema : DbSchema := [("baz", baz)].

(** [odd(id serial, "7" integer)]: a column whose name is an array
    index *)
Definition odd : Table.t :=
  Table.mk [("id", Column.mk "id" "serial" None);
            ("7", Column.mk "7" "integer" None)]
           [].

Definition oddSchema : DbSchema := [("odd", odd)].

(** A world with one context object, [{ user: "ann" }], at location 0 *)
Definition world0 : Resolver.World nat :=
  Resolver.mkWorld nat [[("user", Resolver.VStr "ann")]] 0 [].

(** [world0] once a wrapped resolver of [resolverDriver] has written
    [ioc] into the context object *)
Definition world1 : Resolver.World nat :=
  Resolver.mkWorld nat
    [[("user", Resolver.VStr "ann");
      ("ioc", Resolver.VObj [("resolver", Resolver.VHost "Resolver");
                             ("db", Resolver.VHost "knex")])]] 0 [].

(** A record of [bar] that references the record 1 of [foo] *)
Definition barRecord : Resolver.value :=
  Resolver.VObj [("id", Resolver.VNum 7); ("foo_id", Resolver.VNum 1)].


Definition fooIdColumn : Column.t :=
  Column.mk "foo_id" "integer" (Some (Foreign.mk "foo" "id")).

(** A hook whose validator always answers [false] and whose rejection
    answers ["denied"] *)
Definition denyHook : Resolver.Hook nat :=
  Resolver.mkHook nat
    (fun _ _ _ _ _ => Resolver.ret nat (Resolver.VBool false))
    (fun _ _ _ _ _ => Resolver.ret nat (Resolver.VStr "denied")).

(** A handler that counts its invocations in the store *)
Definition countingHandler : Resolver.handler nat :=
  fun _ _ _ w =>
    (Ok (Resolver.VStr "handled"),
     Resolver.mkWorld nat (Resolver.heap nat w) (S (Resolver.store nat w))
       (Resolver.calls nat w)).

End Example.

(* ================================================================== *)
(** * Properties of the expression parser *)
(* ================================================================== *)

Module ParserFacts.
Import JsString Parser.

Lemma find_first {A} (p : A -> bool) (l : list A) (x : A) :
  find p l = Some x ->
  exists before after,
    l = before ++ x :: after /\ p x = true /\
    (forall y, In y before -> p y = false).
Proof.
  induction l as [|a l IH]; simpl; [discriminate|].
  destruct (p a) eqn:Ha.
  - intros [= <-]. exists [], l. repeat split; auto. intros y [].
  - intros H. destruct (IH H) as (b & c & -> & Hx & Hb).
    exists (a :: b), c. repeat split; auto.
    intros y [<- | Hy]; auto.
Qed.

Lemma match_here_None (s : string) :
  match_here s = None <->
  forall op, In op operators -> prefix op s = false.
Proof.
  unfold match_here. split.
  - intros H op Hop. exact (find_none _ _ H op Hop).
  - intros H. destruct (find _ operators) as [op|] eqn:E; auto.
    apply find_some in E. destruct E as [Hin Hp].
    rewrite (H op Hin) in Hp. discriminate.
Qed.

Lemma drop_empty (i : nat) : drop i EmptyString = EmptyString.
Proof. destruct i; reflexivity. Qed.

Lemma exec_Some (s : string) (i : nat) (op : string) :
  exec s = Some (i, op) ->
  match_here (drop i s) = Some op /\
  forall j, j < i -> match_here (drop j s) = None.
Proof.
  revert i. induction s as [|c s IH]; intros i.
  - discriminate.
  - cbn [exec]. destruct (match_here (String c s)) eqn:E.
    + intros [= <- <-]. split; auto. intros j Hj; lia.
    + destruct (exec s) as [[i' op']|] eqn:E'; [|discriminate].
      intros [= <- <-]. destruct (IH _ eq_refl) as [H1 H2].
      split; auto. intros [|j] Hj; simpl; auto. apply H2. lia.
Qed.

Lemma exec_None (s : string) :
  exec s = None -> forall j, match_here (drop j s) = None.
Proof.
  induction s as [|c s IH].
  - intros _ j. now rewrite drop_empty.
  - cbn [exec]. destruct (match_here (String c s)) eqn:E; [discriminate|].
    destruct (exec s) as [[i' op']|] eqn:E'; [discriminate|].
    intros _ [|j]; simpl; auto.
Qed.

(** A clause has an occurrence of an operator exactly when the regular
    expression matches *)
Lemma exec_complete (s : string) (i : nat) (op : string) :
  In op operators -> prefix op (drop i s) = true -> exec s <> None.
Proof.
  intros Hin Hp E. pose proof (exec_None s E i) as H.
  rewrite match_here_None in H. rewrite (H op Hin) in Hp. discriminate.
Qed.

Lemma trim_operator (op : string) : In op operators -> trim op = op.
Proof.
  unfold operators. simpl.
  intros H. repeat (destruct H as [<- | H]; [reflexivity|]). destruct H.
Qed.

Lemma match_here_In (s op : string) :
  match_here s = Some op -> In op operators.
Proof. intros H. apply find_some in H. tauto. Qed.

(** ** Strings *)

Lemma prefix_length (a b : string) :
  prefix a b = true -> String.length a <= String.length b.
Proof.
  revert b. induction a as [|c a IH]; intros [|d b] H; simpl in *;
    try lia; try discriminate.
  destruct (ascii_dec c d); [|discriminate]. apply IH in H. lia.
Qed.

Lemma append_empty_r (s : string) : (s ++ "")%string = s.
Proof. induction s; simpl; congruence. Qed.

Lemma append_assoc (a b c : string) :
  ((a ++ b) ++ c)%string = (a ++ b ++ c)%string.
Proof. induction a; simpl; congruence. Qed.

(** Passing over what is left of a separator *)
Lemma split_go_skip (sep : string) (k : nat) (cur s : string) :
  k <= String.length s ->
  split_go sep k cur s = split_go sep 0 cur (drop k s).
Proof.
  revert s. induction k as [|k IH]; intros s Hk; [reflexivity|].
  destruct s as [|c s]; simpl in *; [lia|]. apply IH. lia.
Qed.

(** Without an occurrence of the separator there is one piece *)
Lemma split_go_none (sep cur s : string) :
  (forall j, prefix sep (drop j s) = false) ->
  split_go sep 0 cur s = [(cur ++ s)%string].
Proof.
  revert cur. induction s as [|c s IH]; intros cur H; cbn [split_go].
  - now rewrite append_empty_r.
  - pose proof (H 0) as H0. cbn [drop] in H0.
    rewrite H0. rewrite IH.
    + now rewrite append_assoc.
    + intros j. exact (H (S j)).
Qed.

(** The first occurrence of the separator ends the first piece; the
    search resumes after it *)
Lemma split_go_first (sep cur s : string) (i : nat) :
  sep <> EmptyString ->
  prefix sep (drop i s) = true ->
  (forall j, j < i -> prefix sep (drop j s) = false) ->
  split_go sep 0 cur s =
    (cur ++ substring 0 i s)%string
      :: split_go sep 0 EmptyString (drop (i + String.length sep) s).
Proof.
  intros Hsep. revert cur s. induction i as [|i IH]; intros cur s Hp Hlt.
  - cbn [drop] in Hp. destruct s as [|c s].
    + destruct sep; [congruence|discriminate].
    + cbn [split_go]. rewrite Hp. cbn [substring]. rewrite append_empty_r.
      f_equal. rewrite split_go_skip.
      * f_equal. destruct sep as [|a sep]; [congruence|].
        cbn [String.length Nat.add Nat.sub drop]. now rewrite Nat.sub_0_r.
      * apply prefix_length in Hp. cbn [String.length] in Hp. lia.
  - destruct s as [|c s].
    + rewrite drop_empty in Hp. destruct sep; [congruence|discriminate].
    + cbn [split_go]. pose proof (Hlt 0 ltac:(lia)) as H0. cbn [drop] in H0.
      rewrite H0. cbn [drop] in Hp. rewrite (IH _ s Hp).
      * cbn [substring Nat.add drop String.append].
        now rewrite append_assoc.
      * intros j Hj. exact (Hlt (S j) ltac:(lia)).
Qed.

Lemma split_nonempty (sep s : string) : split sep s <> [].
Proof.
  unfold split. generalize 0 as k, EmptyString as cur.
  induction s as [|c s IH]; intros k cur; cbn [split_go]; [discriminate|].
  destruct k; [destruct (prefix sep (String c s))|]; try discriminate;
    apply IH.
Qed.

Lemma trimEnd_cons (c : ascii) (s : string) :
  is_ws c = false -> trimEnd (String c s) = String c (trimEnd s).
Proof.
  intros H. simpl. destruct (trimEnd s); [now rewrite H|reflexivity].
Qed.

Lemma trimEnd_idempotent (s : string) : trimEnd (trimEnd s) = trimEnd s.
Proof.
  induction s as [|c s IH]; [reflexivity|].
  simpl. destruct (trimEnd s) as [|d u] eqn:E.
  - destruct (is_ws c) eqn:W; [reflexivity|]. simpl. now rewrite W.
  - change (trimEnd (String c (String d u)))
      with (match trimEnd (String d u) with
            | EmptyString =>
                if is_ws c then EmptyString else String c EmptyString
            | t => String c t
            end).
    now rewrite IH.
Qed.

Lemma trimStart_head (s : string) :
  match trimStart s with
  | EmptyString => True
  | String c _ => is_ws c = false
  end.
Proof.
  induction s as [|c s IH]; simpl; auto.
  destruct (is_ws c) eqn:W; auto.
Qed.

(** A trimmed token has nothing left to trim *)
Lemma trim_idempotent (s : string) : trim (trim s) = trim s.
Proof.
  unfold trim. pose proof (trimStart_head s) as H.
  destruct (trimStart s) as [|c t]; [reflexivity|].
  rewrite (trimEnd_cons _ _ H). cbn [trimStart]. rewrite H.
  rewrite (trimEnd_cons _ _ H). now rewrite trimEnd_idempotent.
Qed.

(** ** Objects with one key *)

Lemma get_single {V} (k : string) (v : V) : get k [(k, v)] = Some v.
Proof. simpl. now rewrite String.eqb_refl. Qed.

Lemma set_single {V} (k : string) (v v' : V) :
  set k v' [(k, v)] = [(k, v')].
Proof. simpl. now rewrite String.eqb_refl. Qed.

Lemma get_single_other {V} (k k' : string) (v : V) :
  k <> k' -> get k [(k', v)] = None.
Proof. intros H. simpl. apply String.eqb_neq in H. now rewrite H. Qed.

(** ** The two parsers *)

Lemma has_operator_exec (clause : string) :
  has_operator clause <-> exec clause <> None.
Proof.
  split.
  - intros (i & op & Hin & Hp). exact (exec_complete _ _ _ Hin Hp).
  - intros H. destruct (exec clause) as [[i op]|] eqn:E; [|congruence].
    apply exec_Some in E. destruct E as [E _].
    exists i, op. split; [exact (match_here_In _ _ E)|].
    apply find_some in E. tauto.
Qed.

Lemma exec_In (s : string) (i : nat) (op : string) :
  exec s = Some (i, op) -> In op operators.
Proof. intros H. apply exec_Some in H. exact (match_here_In _ _ (proj1 H)). Qed.

Lemma filter_clause_ok (table : string) (conds : conditions)
    (clause : string) :
  exec clause <> None ->
  filter_clause table [(table, conds)] clause =
    Ok [(table, conds ++ [condition_of clause])].
Proof.
  intros H. unfold filter_clause, condition_of.
  destruct (exec clause) as [[i op]|] eqn:E; [|congruence].
  rewrite (trim_operator op (exec_In _ _ _ E)).
  rewrite get_single, set_single. cbn [map].
  now rewrite (trim_operator op (exec_In _ _ _ E)).
Qed.

Lemma filter_clauses_ok (table : string) (clauses : list string) :
  forall conds,
    Forall (fun c => exec c <> None) clauses ->
    each (filter_clause table) clauses [(table, conds)] =
      Ok [(table, conds ++ map condition_of clauses)].
Proof.
  induction clauses as [|c cs IH]; intros conds H; simpl.
  - now rewrite app_nil_r.
  - inversion H; subst. rewrite filter_clause_ok by assumption. simpl.
    rewrite IH by assumption. now rewrite <- app_assoc.
Qed.

(** The filter parser stops at the first clause without an operator *)
Lemma filter_clauses_throw (table : string) (clauses : list string) :
  forall conds,
    Exists (fun c => exec c = None) clauses ->
    exists c, In c clauses /\ exec c = None /\
      each (filter_clause table) clauses [(table, conds)] =
        Throw (Error ("Filter operation not suported in: " ++ c)%string).
Proof.
  induction clauses as [|c cs IH]; intros conds H; [inversion H|].
  destruct (exec c) as [[i op]|] eqn:E.
  - assert (Hcs : Exists (fun c => exec c = None) cs).
    { inversion H; subst; [congruence|assumption]. }
    cbn [each]. rewrite filter_clause_ok by congruence. cbn [rbind].
    destruct (IH (conds ++ [condition_of c]) Hcs) as (c' & Hin & Hc & Heq).
    exists c'. repeat split; auto. now right.
  - exists c. repeat split; [now left|assumption|].
    cbn [each]. unfold filter_clause. now rewrite E.
Qed.

Lemma pagination_clauses_ok (table : string) (clauses : list string) :
  forall conds,
    each (pagination_clause table) clauses [(table, conds)] =
      Ok [(table, conds ++ map pair_of clauses)].
Proof.
  induction clauses as [|c cs IH]; intros conds; simpl.
  - now rewrite app_nil_r.
  - unfold pagination_clause at 1. rewrite get_single, set_single. simpl.
    rewrite IH. now rewrite <- app_assoc.
Qed.

Lemma clauses_dec (clauses : list string) :
  Forall (fun c => exec c <> None) clauses \/
  Exists (fun c => exec c = None) clauses.
Proof.
  induction clauses as [|c cs [IH | IH]].
  - left. constructor.
  - destruct (exec c) eqn:E.
    + left. constructor; congruence.
    + right. now constructor.
  - right. now constructor 2.
Qed.

(** With a table name that is its own trimmed form, the filter parser
    throws exactly when a clause has no operator *)
Lemma parseFilterExpression_throws (expr table : string) :
  trim table = table ->
  (exists e, parseFilterExpression expr table = Throw e) <->
  Exists (fun c => ~ has_operator c) (split ";" expr).
Proof.
  intros Ht. unfold parseFilterExpression. rewrite Ht. cbn [set].
  split.
  - intros [e He]. apply Exists_exists.
    destruct (clauses_dec (split ";" expr)) as [Hall | Hex].
    + rewrite filter_clauses_ok in He by assumption. discriminate.
    + apply Exists_exists in Hex. destruct Hex as (c & Hin & Hc).
      exists c. split; auto. rewrite has_operator_exec. congruence.
  - intros H. apply Exists_exists in H. destruct H as (c & Hin & Hc).
    assert (Hex : Exists (fun c => exec c = None) (split ";" expr)).
    { apply Exists_exists. exists c. split; auto.
      rewrite has_operator_exec in Hc.
      destruct (exec c); [exfalso; apply Hc; discriminate | reflexivity]. }
    destruct (filter_clauses_throw table _ [] Hex) as (c' & _ & _ & Heq).
    eexists. exact Heq.
Qed.

(** The pagination parser checks nothing *)
Lemma parsePaginationExpression_ok (expr table : string) :
  trim table = table ->
  parsePaginationExpression expr table =
    Ok [(table, map pair_of (split ";" expr))].
Proof.
  intros Ht. unfold parsePaginationExpression. rewrite Ht. cbn [set].
  now rewrite pagination_clauses_ok.
Qed.

End ParserFacts.

(* ================================================================== *)
(** * The expression parser: operators, conditions, errors *)
(* ================================================================== *)

Section ParserProperties.
Import JsString Parser ParserFacts.

(** C2: for a table name that is its own trimmed form and is not
    [__proto__], and an expression whose clauses each contain one of
    the eight operators, parseFilterExpression returns one condition per
    clause, and the head of each condition is the operator taken by a
    leftmost-starting, fixed-priority scan over
    [<=>, >=, <=, =, >, <, ~, #]: it occurs in the clause at a position
    before which none of the eight occurs, and none of those written
    before it in this list occurs at that position. The rest of the
    condition is the trimmed pieces of the clause cut at that operator. *)
Theorem C2_operator_leftmost_fixed_priority (filterExpr tablename : string) :
  trim tablename = tablename ->
  tablename <> "__proto__" ->
  Forall (fun clause =>
    exists i op,
      In op ["<=>"; ">="; "<="; "="; ">"; "<"; "~"; "#"] /\
      prefix op (drop i clause) = true)
    (split ";" filterExpr) ->
  exists conds,
    parseFilterExpression filterExpr tablename = Ok [(tablename, conds)] /\
    Forall2 (fun clause condition =>
      exists i op before after,
        ["<=>"; ">="; "<="; "="; ">"; "<"; "~"; "#"] =
          before ++ op :: after /\
        prefix op (drop i clause) = true /\
        (forall op', In op' before -> prefix op' (drop i clause) = false) /\
        (forall j op', j < i ->
           In op' ["<=>"; ">="; "<="; "="; ">"; "<"; "~"; "#"] ->
           prefix op' (drop j clause) = false) /\
        condition = op :: map trim (split op clause))
      (split ";" filterExpr) conds.
Proof.
  intros Ht _ Hall.
  assert (Hexec : Forall (fun c => exec c <> None) (split ";" filterExpr)).
  { eapply Forall_impl; [|exact Hall]. intros c. apply has_operator_exec. }
  exists (map condition_of (split ";" filterExpr)). split.
  - unfold parseFilterExpression. rewrite Ht. cbn [set].
    rewrite filter_clauses_ok; [reflexivity | assumption].
  - clear Hall. induction Hexec as [|clause cs H _ IH]; cbn [map];
      constructor; [|exact IH].
    destruct (exec clause) as [[i op]|] eqn:E; [clear H | congruence].
    destruct (exec_Some _ _ _ E) as [Hhere Hbefore].
    destruct (find_first _ _ _ Hhere) as (before & after & Hops & Hp & Hb).
    exists i, op, before, after.
    split; [exact Hops|]. split; [assumption|]. split; [assumption|].
    split.
    + intros j op' Hj Hin. specialize (Hbefore j Hj).
      rewrite match_here_None in Hbefore. auto.
    + unfold condition_of. now rewrite E.
Qed.

(** In the expression [a>=b;c<=>d] the operators are [>=], not [>] or
    [=], and [<=>], not [<=] *)
Lemma C2_witness :
  (exists conds,
     parseFilterExpression "a>=b;c<=>d" "t" = Ok [("t", conds)] /\
     Forall2 (fun clause condition =>
       exists i op before after,
         ["<=>"; ">="; "<="; "="; ">"; "<"; "~"; "#"] =
           before ++ op :: after /\
         prefix op (drop i clause) = true /\
         (forall op', In op' before -> prefix op' (drop i clause) = false) /\
         (forall j op', j < i ->
            In op' ["<=>"; ">="; "<="; "="; ">"; "<"; "~"; "#"] ->
            prefix op' (drop j clause) = false) /\
         condition = op :: map trim (split op clause))
       (split ";" "a>=b;c<=>d") conds) /\
  parseFilterExpression "a>=b;c<=>d" "t" =
    Ok [("t", [[">="; "a"; "b"]; ["<=>"; "c"; "d"]])].
Proof.
  split; [|reflexivity].
  apply (C2_operator_leftmost_fixed_priority "a>=b;c<=>d" "t").
  - reflexivity.
  - discriminate.
  - repeat constructor.
    + exists 1, ">=". split; [simpl; tauto | reflexivity].
    + exists 1, "<=>". split; [simpl; tauto | reflexivity].
Defined.

(** In the clause [a>=b] the operator is [>=], not [>] or [=] *)
Example exec_ge : exec "a>=b" = Some (1, ">=").
Proof. reflexivity. Qed.

(** C3, as stated, fails: every clause of [a=b=c] contains an operator,
    and the condition made of it has four tokens, not the three of
    [operator, field, value]. *)
Lemma C3_counterexample :
  Forall has_operator (split ";" "a=b=c") /\
  parseFilterExpression "a=b=c" "t" = Ok [("t", [["="; "a"; "b"; "c"]])] /\
  ~ (exists op field value,
        parseFilterExpression "a=b=c" "t" = Ok [("t", [[op; field; value]])]).
Proof.
  split; [|split].
  - repeat constructor. exists 1, "=". split; [simpl; tauto | reflexivity].
  - reflexivity.
  - intros (op & field & value & H). vm_compute in H. discriminate.
Qed.

(** C3, amended: for a table name that is its own trimmed form and is
    not [__proto__], and an expression whose clauses each contain an
    operator, the result has the
    table name as its single key, mapped to one condition per clause, in
    clause order: the operator found, then the trimmed pieces of the
    clause cut at every occurrence of that operator. Every token is
    trimmed, and the condition is the triple [operator, field, value] when
    the operator does not occur again in the text after it. *)
Theorem C3_parseFilterExpression_conditions (expr table : string) :
  trim table = table ->
  table <> "__proto__" ->
  Forall has_operator (split ";" expr) ->
  parseFilterExpression expr table =
    Ok [(table, map condition_of (split ";" expr))] /\
  Forall (fun clause =>
    exists i op,
      exec clause = Some (i, op) /\
      condition_of clause = op :: map trim (split op clause) /\
      Forall (fun token => trim token = token) (condition_of clause) /\
      ((forall j, prefix op (drop j (drop (i + String.length op) clause))
                  = false) ->
       condition_of clause =
         [op; trim (substring 0 i clause);
          trim (drop (i + String.length op) clause)]))
    (split ";" expr).
Proof.
  intros Ht _ Hall. split.
  - unfold parseFilterExpression. rewrite Ht. cbn [set].
    rewrite filter_clauses_ok; [reflexivity|].
    eapply Forall_impl; [|exact Hall]. intros c. apply has_operator_exec.
  - eapply Forall_impl; [|exact Hall]. intros clause H.
    apply has_operator_exec in H.
    destruct (exec clause) as [[i op]|] eqn:E; [clear H | congruence].
    exists i, op. unfold condition_of. rewrite E.
    pose proof (exec_In _ _ _ E) as Hin.
    destruct (exec_Some _ _ _ E) as [Hhere Hbefore].
    repeat split.
    + constructor; [now apply trim_operator|].
      apply Forall_forall. intros token Htok. apply in_map_iff in Htok.
      destruct Htok as (piece & <- & _). apply trim_idempotent.
    + intros Hrest. f_equal. unfold split.
      rewrite (split_go_first op EmptyString clause i).
      * rewrite split_go_none by assumption. reflexivity.
      * intros ->. revert Hin. unfold operators. simpl.
        intuition discriminate.
      * apply find_some in Hhere. tauto.
      * intros j Hj. specialize (Hbefore j Hj).
        rewrite match_here_None in Hbefore. auto.
Qed.

Lemma C3_witness :
  parseFilterExpression "a=1;b#2,3" "t" =
    Ok [("t", map condition_of (split ";" "a=1;b#2,3"))] /\
  Forall (fun clause =>
    exists i op,
      exec clause = Some (i, op) /\
      condition_of clause = op :: map trim (split op clause) /\
      Forall (fun token => trim token = token) (condition_of clause) /\
      ((forall j, prefix op (drop j (drop (i + String.length op) clause))
                  = false) ->
       condition_of clause =
         [op; trim (substring 0 i clause);
          trim (drop (i + String.length op) clause)]))
    (split ";" "a=1;b#2,3").
Proof.
  apply (C3_parseFilterExpression_conditions "a=1;b#2,3" "t").
  - reflexivity.
  - discriminate.
  - repeat constructor.
    + exists 1, "=". split; [simpl; tauto | reflexivity].
    + exists 1, "#". split; [simpl; tauto | reflexivity].
Defined.

(** The example of the specification *)
Example parseFilterExpression_example :
  parseFilterExpression "a=1;b#2,3" "t" =
    Ok [("t", [["="; "a"; "1"]; ["#"; "b"; "2,3"]])].
Proof. reflexivity. Qed.

(** C6: with the table name [" t"], which the parser trims for the key
    of its result and does not trim where it pushes, the filter parser
    throws a TypeError on an expression whose only clause contains an
    operator, and the pagination parser throws on a key=value text. *)
Theorem C6_untrimmed_table_name_throws :
  Forall has_operator (split ";" "a=1") /\
  parseFilterExpression "a=1" " t" = Throw TypeError /\
  parsePaginationExpression "limit=2" " t" = Throw TypeError.
Proof.
  split; [|split]; try reflexivity.
  repeat constructor. exists 1, "=". split; [simpl; tauto | reflexivity].
Qed.

(** C9, as stated, fails: with the untrimmed table name [" t"] and the
    non-empty expression [abc], the filter parser fails with the error it
    throws for a clause without an operator, which is not a type error. *)
Lemma C9_counterexample :
  trim " t" <> " t" /\
  "abc" <> EmptyString /\
  parseFilterExpression "abc" " t" =
    Throw (Error "Filter operation not suported in: abc") /\
  parseFilterExpression "abc" " t" <> Throw TypeError.
Proof.
  split; [discriminate|]. split; [discriminate|].
  split; [reflexivity | discriminate].
Qed.

(** C9, amended: for a table name that differs from its trimmed form and
    every expression, neither parser returns a result. The pagination
    parser fails with a type error; the filter parser fails with a type
    error when the first clause contains an operator, and with the error
    for an unsupported operation on the first clause when it does not. *)
Theorem C9_untrimmed_table_name (expr table : string) :
  trim table <> table ->
  parsePaginationExpression expr table = Throw TypeError /\
  parseFilterExpression expr table =
    match exec (hd EmptyString (split ";" expr)) with
    | Some _ => Throw TypeError
    | None =>
        Throw (Error ("Filter operation not suported in: "
                      ++ hd EmptyString (split ";" expr))%string)
    end.
Proof.
  intros Ht. unfold parsePaginationExpression, parseFilterExpression.
  cbn [set]. pose proof (split_nonempty ";" expr) as Hne.
  destruct (split ";" expr) as [|c cs]; [congruence|]. cbn [hd each].
  assert (Hget : forall v : conditions, get table [(trim table, v)] = None).
  { intros v. apply get_single_other. congruence. }
  split.
  - unfold pagination_clause. now rewrite Hget.
  - unfold filter_clause. destruct (exec c) as [[i op]|]; [|reflexivity].
    now rewrite Hget.
Qed.

Lemma C9_witness :
  parsePaginationExpression "limit=2" " t" = Throw TypeError /\
  parseFilterExpression "limit=2" " t" =
    match exec (hd EmptyString (split ";" "limit=2")) with
    | Some _ => Throw TypeError
    | None =>
        Throw (Error ("Filter operation not suported in: "
                      ++ hd EmptyString (split ";" "limit=2"))%string)
    end.
Proof.
  apply (C9_untrimmed_table_name "limit=2" " t"). discriminate.
Defined.

End ParserProperties.

(* ================================================================== *)
(** * Properties of objects *)
(* ================================================================== *)

Module ObjectFacts.

Section Facts.
Context {V : Type}.
Implicit Types (o : obj V) (k : string) (v : V).

Lemma get_set_same k v o : get k (set k v o) = Some v.
Proof.
  induction o as [|[k' v'] o IH]; simpl.
  - now rewrite String.eqb_refl.
  - destruct (String.eqb k k') eqn:E; simpl.
    + now rewrite String.eqb_refl.
    + now rewrite E.
Qed.

Lemma get_set_other k k' v o : k <> k' -> get k (set k' v o) = get k o.
Proof.
  intros Hne. induction o as [|[k'' v''] o IH]; simpl.
  - apply String.eqb_neq in Hne. now rewrite Hne.
  - destruct (String.eqb k' k'') eqn:E; simpl.
    + apply String.eqb_eq in E. subst k''.
      apply String.eqb_neq in Hne. now rewrite Hne.
    + destruct (String.eqb k k''); auto.
Qed.

Lemma get_None k o : get k o = None <-> ~ In k (map fst o).
Proof.
  induction o as [|[k' v'] o IH]; simpl; [tauto|].
  destruct (String.eqb k k') eqn:E.
  - apply String.eqb_eq in E. subst. split; [discriminate | tauto].
  - apply String.eqb_neq in E. rewrite IH. intuition congruence.
Qed.

Lemma has_false k o : has k o = false <-> ~ In k (map fst o).
Proof.
  unfold has. rewrite <- get_None. destruct (get k o); split; congruence.
Qed.

(** A new key goes last *)
Lemma set_fresh k v o : ~ In k (map fst o) -> set k v o = o ++ [(k, v)].
Proof.
  induction o as [|[k' v'] o IH]; simpl; auto.
  intros H. destruct (String.eqb k k') eqn:E.
  - apply String.eqb_eq in E. subst. tauto.
  - rewrite IH; tauto.
Qed.

(** An existing key keeps its place *)
Lemma keys_set_present k v o :
  In k (map fst o) -> map fst (set k v o) = map fst o.
Proof.
  induction o as [|[k' v'] o IH]; simpl; [tauto|].
  intros H. destruct (String.eqb k k') eqn:E; simpl.
  - apply String.eqb_eq in E. now subst.
  - apply String.eqb_neq in E. f_equal. apply IH.
    destruct H; congruence.
Qed.

Lemma keys_set_fresh k v o :
  ~ In k (map fst o) -> map fst (set k v o) = map fst o ++ [k].
Proof. intros H. rewrite set_fresh by assumption. now rewrite map_app. Qed.

Lemma set_set k v v' o : set k v (set k v' o) = set k v o.
Proof.
  induction o as [|[k' v''] o IH]; simpl.
  - now rewrite String.eqb_refl.
  - destruct (String.eqb k k') eqn:E; simpl.
    + now rewrite String.eqb_refl.
    + rewrite E. now rewrite IH.
Qed.

Lemma set_get_id k v o : get k o = Some v -> set k v o = o.
Proof.
  induction o as [|[k' v'] o IH]; simpl; [discriminate|].
  destruct (String.eqb k k') eqn:E.
  - apply String.eqb_eq in E. subst. now intros [= ->].
  - intros H. now rewrite IH.
Qed.

Lemma get_app k (o1 o2 : obj V) :
  get k (o1 ++ o2) =
    match get k o1 with Some v => Some v | None => get k o2 end.
Proof.
  induction o1 as [|[k' v'] o1 IH]; simpl; auto.
  destruct (String.eqb k k'); auto.
Qed.

Lemma set_app_l k v (o1 o2 : obj V) :
  In k (map fst o1) -> set k v (o1 ++ o2) = set k v o1 ++ o2.
Proof.
  induction o1 as [|[k' v'] o1 IH]; simpl; [tauto|].
  intros H. destruct (String.eqb k k') eqn:E; auto.
  apply String.eqb_neq in E. simpl. f_equal. apply IH.
  destruct H; congruence.
Qed.

Lemma set_app_r k v (o1 o2 : obj V) :
  ~ In k (map fst o1) -> set k v (o1 ++ o2) = o1 ++ set k v o2.
Proof.
  induction o1 as [|[k' v'] o1 IH]; simpl; auto.
  intros H. destruct (String.eqb k k') eqn:E.
  - apply String.eqb_eq in E. subst. tauto.
  - f_equal. apply IH. tauto.
Qed.

Lemma In_get k o : In k (map fst o) -> exists v, get k o = Some v.
Proof.
  intros H. destruct (get k o) as [v|] eqn:E; [now exists v|].
  apply get_None in E. tauto.
Qed.

(** Assignments to new, distinct keys append them in order *)
Lemma set_all_fresh (kvs : list (string * V)) o :
  NoDup (map fst o ++ map fst kvs) -> set_all kvs o = o ++ kvs.
Proof.
  revert o. induction kvs as [|[k v] kvs IH]; intros o H.
  - unfold set_all. simpl. now rewrite app_nil_r.
  - change (set_all ((k, v) :: kvs) o) with (set_all kvs (set k v o)).
    simpl in H.
    assert (Hk : ~ In k (map fst o)).
    { apply NoDup_remove_2 in H. intros Hin. apply H.
      apply in_or_app. now left. }
    rewrite (set_fresh k v o Hk). rewrite IH.
    + now rewrite <- app_assoc.
    + rewrite map_app. simpl. rewrite <- app_assoc. exact H.
Qed.

Lemma set_all_app (kvs1 kvs2 : list (string * V)) o :
  set_all (kvs1 ++ kvs2) o = set_all kvs2 (set_all kvs1 o).
Proof. unfold set_all. apply fold_left_app. Qed.

End Facts.

(** ** Objects with one entry per item of a list *)

Section Zone.
Context {V : Type}.
Variable key : string -> string.
Variable l : list string.
Hypothesis key_distinct : NoDup (map key l).

Lemma key_injective (x y : string) :
  In x l -> In y l -> key x = key y -> x = y.
Proof.
  clear -key_distinct. induction l as [|a l' IH]; simpl; [tauto|].
  inversion key_distinct as [|? ? Ha Hl']; subst.
  intros [<- | Hx] [<- | Hy] E; auto.
  - exfalso. apply Ha. rewrite E. now apply in_map.
  - exfalso. apply Ha. rewrite <- E. now apply in_map.
Qed.

Lemma zone_keys (val : string -> V) : map fst (zone key val l) = map key l.
Proof. unfold zone. rewrite map_map. reflexivity. Qed.

Lemma zone_ext (val val' : string -> V) :
  (forall x, In x l -> val x = val' x) -> zone key val l = zone key val' l.
Proof.
  intros H. unfold zone. apply map_ext_in. intros x Hx. now rewrite H.
Qed.

Lemma zone_get (val : string -> V) (x : string) :
  In x l -> get (key x) (zone key val l) = Some (val x).
Proof.
  clear -key_distinct. induction l as [|a l' IH]; simpl; [tauto|].
  inversion key_distinct as [|? ? Ha Hl']; subst.
  intros [<- | Hx].
  - now rewrite String.eqb_refl.
  - destruct (String.eqb (key x) (key a)) eqn:E; [|now apply IH].
    apply String.eqb_eq in E. exfalso. apply Ha. rewrite <- E.
    now apply in_map.
Qed.

Lemma zone_set (val : string -> V) (x : string) (v : V) :
  In x l -> set (key x) v (zone key val l) = zone key (upd val x v) l.
Proof.
  clear -key_distinct. induction l as [|a l' IH]; simpl; [tauto|].
  inversion key_distinct as [|? ? Ha Hl']; subst.
  intros [<- | Hx].
  - rewrite String.eqb_refl. unfold upd at 1. rewrite String.eqb_refl.
    f_equal. apply map_ext_in. intros y Hy. unfold upd.
    destruct (String.eqb y a) eqn:E; [|reflexivity].
    apply String.eqb_eq in E. subst. exfalso. apply Ha. now apply in_map.
  - destruct (String.eqb (key x) (key a)) eqn:E.
    + apply String.eqb_eq in E. exfalso. apply Ha. rewrite <- E.
      now apply in_map.
    + f_equal.
      * unfold upd. destruct (String.eqb a x) eqn:E'; [|reflexivity].
        apply String.eqb_eq in E'. subst.
        rewrite String.eqb_refl in E. discriminate.
      * now apply IH.
Qed.

Lemma zone_get_in (val : string -> V) (tail : obj V) (x : string) :
  In x l -> get (key x) (zone key val l ++ tail) = Some (val x).
Proof. intros H. rewrite get_app. now rewrite zone_get. Qed.

Lemma zone_set_in (val : string -> V) (tail : obj V) (x : string) (v : V) :
  In x l ->
  set (key x) v (zone key val l ++ tail) = zone key (upd val x v) l ++ tail.
Proof.
  intros H. rewrite set_app_l.
  - now rewrite zone_set.
  - rewrite zone_keys. now apply in_map.
Qed.

Lemma zone_get_out (val : string -> V) (tail : obj V) (k : string) :
  ~ In k (map key l) -> get k (zone key val l ++ tail) = get k tail.
Proof.
  intros H. rewrite get_app.
  rewrite <- (zone_keys val) in H. apply get_None in H. now rewrite H.
Qed.

Lemma zone_set_out (val : string -> V) (tail : obj V) (k : string) (v : V) :
  ~ In k (map key l) ->
  set k v (zone key val l ++ tail) = zone key val l ++ set k v tail.
Proof. intros H. apply set_app_r. now rewrite zone_keys. Qed.

End Zone.

(** ** Objects of objects *)

Section Nested.
Context {V : Type}.
Implicit Types (o : obj (obj V)) (k f : string).

Lemma has_set k k' (fields : obj V) o :
  has k (set k' fields o) = (String.eqb k k' || has k o)%bool.
Proof.
  unfold has. destruct (String.eqb k k') eqn:E.
  - apply String.eqb_eq in E. subst. now rewrite get_set_same.
  - apply String.eqb_neq in E. now rewrite get_set_other.
Qed.

Lemma has_set_field k k' f (v : V) o : has k (set_field k' f v o) = has k o.
Proof.
  unfold set_field. destruct (get k' o) as [fields|] eqn:G; [|reflexivity].
  rewrite has_set. destruct (String.eqb k k') eqn:E; [|reflexivity].
  apply String.eqb_eq in E. subst. unfold has. now rewrite G.
Qed.

Lemma has_set_fields k k' (kvs : list (string * V)) o :
  has k (set_fields k' kvs o) = has k o.
Proof.
  revert o. induction kvs as [|kv kvs IH]; intros o; [reflexivity|].
  unfold set_fields in *. cbn [fold_left]. rewrite IH. apply has_set_field.
Qed.

Lemma has_ensure_key k k' o :
  has k (ensure_key k' o) = (String.eqb k k' || has k o)%bool.
Proof.
  unfold ensure_key. destruct (has k' o) eqn:H.
  - destruct (String.eqb k k') eqn:E; [|reflexivity].
    apply String.eqb_eq in E. now subst.
  - apply has_set.
Qed.

Lemma set_fields_present k (kvs : list (string * V)) o (fields : obj V) :
  get k o = Some fields ->
  set_fields k kvs o = set k (set_all kvs fields) o.
Proof.
  revert o fields. induction kvs as [|[f v] kvs IH]; intros o fields G.
  - unfold set_fields, set_all. cbn [fold_left]. symmetry.
    now apply set_get_id.
  - change (set_fields k ((f, v) :: kvs) o)
      with (set_fields k kvs (set_field k f v o)).
    change (set_all ((f, v) :: kvs) fields)
      with (set_all kvs (set f v fields)).
    unfold set_field. rewrite G.
    rewrite (IH _ (set f v fields)) by apply get_set_same.
    apply set_set.
Qed.

Lemma set_fields_app k (kvs1 kvs2 : list (string * V)) o :
  set_fields k (kvs1 ++ kvs2) o = set_fields k kvs2 (set_fields k kvs1 o).
Proof. unfold set_fields. apply fold_left_app. Qed.

Lemma has_app_r k (o1 o2 : obj (obj V)) :
  ~ In k (map fst o1) -> has k (o1 ++ o2) = has k o2.
Proof.
  intros H. unfold has. rewrite get_app. apply get_None in H.
  now rewrite H.
Qed.

Lemma ensure_key_app_r k (o1 o2 : obj (obj V)) :
  ~ In k (map fst o1) -> ensure_key k (o1 ++ o2) = o1 ++ ensure_key k o2.
Proof.
  intros H. unfold ensure_key. rewrite has_app_r by assumption.
  destruct (has k o2); [reflexivity|]. now apply set_app_r.
Qed.

Lemma set_field_app_r k f (v : V) (o1 o2 : obj (obj V)) :
  ~ In k (map fst o1) ->
  set_field k f v (o1 ++ o2) = o1 ++ set_field k f v o2.
Proof.
  intros H. unfold set_field. rewrite get_app.
  pose proof H as H'. apply get_None in H'. rewrite H'.
  destruct (get k o2); [|reflexivity]. now apply set_app_r.
Qed.

Lemma set_fields_app_r k (kvs : list (string * V)) (o1 o2 : obj (obj V)) :
  ~ In k (map fst o1) ->
  set_fields k kvs (o1 ++ o2) = o1 ++ set_fields k kvs o2.
Proof.
  intros H. revert o2. induction kvs as [|kv kvs IH]; intros o2;
    [reflexivity|].
  unfold set_fields in *. cbn [fold_left].
  rewrite set_field_app_r by assumption. apply IH.
Qed.

(** Creating the objects of new, distinct keys appends them in order *)
Lemma fold_ensure_key (key : string -> string) (l : list string) :
  forall acc : obj (obj V),
    NoDup (map fst acc ++ map key l) ->
    fold_left (fun o x => ensure_key (key x) o) l acc
    = acc ++ zone key (fun _ => []) l.
Proof.
  induction l as [|x l IH]; intros acc H.
  - cbn. now rewrite app_nil_r.
  - cbn [fold_left]. cbn [map] in H.
    assert (Hx : ~ In (key x) (map fst acc)).
    { apply NoDup_remove_2 in H. intros Hin. apply H.
      apply in_or_app. now left. }
    unfold ensure_key at 2.
    pose proof Hx as Hh. apply has_false in Hh. rewrite Hh.
    rewrite (set_fresh _ _ _ Hx). rewrite IH.
    + rewrite <- app_assoc. reflexivity.
    + rewrite map_app. cbn [map fst]. rewrite <- app_assoc. exact H.
Qed.

End Nested.

(** ** Assignments to the entries of a zone, item by item *)

Section ZoneFold.
Context {V : Type}.
Variable key : string -> string.
Variable l0 : list string.
Hypothesis key_distinct : NoDup (map key l0).

Lemma zone_upd_same (val : string -> V) (x : string) :
  zone key (upd val x (val x)) l0 = zone key val l0.
Proof.
  apply zone_ext. intros y _. unfold upd.
  destruct (String.eqb y x) eqn:E; [|reflexivity].
  apply String.eqb_eq in E. now subst.
Qed.

Lemma fold_zone (h : string -> V -> V) (g : string -> obj V -> obj V)
    (step : string -> obj V -> obj V) :
  (forall x val tail, In x l0 ->
     step x (zone key val l0 ++ tail)
     = zone key (upd val x (h x (val x))) l0 ++ g x tail) ->
  forall l, NoDup l -> incl l l0 ->
  forall val tail,
    fold_left (fun o x => step x o) l (zone key val l0 ++ tail)
    = zone key (fun x => if in_dec string_dec x l then h x (val x)
                         else val x) l0
      ++ fold_left (fun t x => g x t) l tail.
Proof.
  intros Hstep l. induction l as [|x l IH]; intros Hnd Hincl val tail.
  - cbn [fold_left]. f_equal.
  - cbn [fold_left]. inversion Hnd as [|? ? Hx Hnd']; subst.
    rewrite Hstep by (apply Hincl; now left).
    rewrite IH by (auto; intros y Hy; apply Hincl; now right).
    f_equal. apply zone_ext. intros y _. unfold upd.
    destruct (String.eqb y x) eqn:E.
    + apply String.eqb_eq in E. subst y.
      destruct (in_dec string_dec x l) as [Hin|_]; [tauto|].
      destruct (in_dec string_dec x (x :: l)) as [_|Hn]; [reflexivity|].
      exfalso. apply Hn. now left.
    + apply String.eqb_neq in E.
      destruct (in_dec string_dec y l) as [Hin|Hn];
        destruct (in_dec string_dec y (x :: l)) as [Hin'|Hn'];
        try reflexivity.
      * exfalso. apply Hn'. now right.
      * exfalso. destruct Hin' as [->|Hin']; [congruence | tauto].
Qed.

(** Every item of the zone assigned once *)
Lemma fold_zone_all (h : string -> V -> V) (g : string -> obj V -> obj V)
    (step : string -> obj V -> obj V) :
  (forall x val tail, In x l0 ->
     step x (zone key val l0 ++ tail)
     = zone key (upd val x (h x (val x))) l0 ++ g x tail) ->
  forall val tail,
    fold_left (fun o x => step x o) l0 (zone key val l0 ++ tail)
    = zone key (fun x => h x (val x)) l0
      ++ fold_left (fun t x => g x t) l0 tail.
Proof.
  intros Hstep val tail.
  rewrite (fold_zone h g step Hstep l0).
  - f_equal. apply zone_ext. intros x Hx.
    destruct (in_dec string_dec x l0); [reflexivity | tauto].
  - eapply NoDup_map_inv. exact key_distinct.
  - apply incl_refl.
Qed.

End ZoneFold.

Lemma distinct_NoDup (ks : list string) : distinct ks = true -> NoDup ks.
Proof.
  induction ks as [|k ks IH]; cbn [distinct]; [constructor|].
  intros H. apply andb_true_iff in H. destruct H as [Hk Hks].
  constructor; [|now apply IH].
  intros Hin. apply negb_true_iff in Hk.
  assert (existsb (String.eqb k) ks = true); [|congruence].
  apply existsb_exists. exists k. split; auto. apply String.eqb_refl.
Qed.

(** ** Enumeration of keys that are not array indices *)

Lemma index_keys_plain (ks : list string) :
  Forall (fun k => is_plain k = true) ks -> index_keys ks = [].
Proof.
  induction 1 as [|k ks Hk _ IH]; simpl; auto.
  unfold is_plain in Hk. destruct (array_index k); [discriminate | exact IH].
Qed.

Lemma order_keys_plain (ks : list string) :
  Forall (fun k => is_plain k = true) ks -> order_keys ks = ks.
Proof.
  intros H. unfold order_keys. rewrite index_keys_plain by assumption.
  simpl. apply forallb_filter_id. apply forallb_forall.
  rewrite Forall_forall in H. exact H.
Qed.

Lemma In_insert_sorted (x y : N * string) (l : list (N * string)) :
  In y (insert_sorted x l) -> y = x \/ In y l.
Proof.
  induction l as [|z l IH]; simpl.
  - intros [<- | []]. now left.
  - destruct (fst x <=? fst z)%N; simpl.
    + intros [<- | H]; auto.
    + intros [<- | H]; auto. destruct (IH H); auto.
Qed.

Lemma In_index_keys (ks : list string) (n : N) (k : string) :
  In (n, k) (index_keys ks) -> In k ks.
Proof.
  induction ks as [|k' ks IH]; simpl; auto.
  destruct (array_index k') as [m|]; [|now right; apply IH].
  intros H. apply In_insert_sorted in H. destruct H as [[= _ ->] | H]; auto.
Qed.

(** An enumerated key is a key of the object *)
Lemma In_keys {V} (o : obj V) (k : string) :
  In k (keys o) -> In k (map fst o).
Proof.
  unfold keys, order_keys. rewrite in_app_iff. intros [H | H].
  - apply in_map_iff in H. destruct H as ([n k'] & <- & H).
    exact (In_index_keys _ _ _ H).
  - apply filter_In in H. tauto.
Qed.

(** The entries of an object with distinct keys, none of them an array
    index, are enumerated in insertion order *)
Lemma entries_plain {V A} (f : string -> V -> A) (o : obj V) :
  NoDup (map fst o) ->
  Forall (fun k => is_plain k = true) (map fst o) ->
  flat_map (fun k => match get k o with
                     | Some v => [f k v]
                     | None => []
                     end) (keys o)
  = map (fun kv => f (fst kv) (snd kv)) o.
Proof.
  intros Hnd Hpl. unfold keys. rewrite order_keys_plain by assumption.
  clear Hpl. induction o as [|[k v] o IH]; [reflexivity|].
  cbn [map fst flat_map get]. rewrite String.eqb_refl. cbn [app fst snd].
  f_equal. inversion Hnd as [|? ? Hk Hnd']; subst.
  rewrite <- (IH Hnd'). rewrite !flat_map_concat_map. f_equal.
  apply map_ext_in. intros k' Hk'.
  destruct (String.eqb k' k) eqn:E; [|reflexivity].
  apply String.eqb_eq in E. subst. tauto.
Qed.

End ObjectFacts.

(* ================================================================== *)
(** * The resolver registry *)
(* ================================================================== *)

Module ResolverFacts.
Import Resolver ObjectFacts.

Lemma nth_error_replace {A} (l : list A) (n : nat) (x y : A) :
  nth_error l n = Some x ->
  nth_error (firstn n l ++ y :: skipn (S n) l) n = Some y /\
  (forall m, m <> n ->
     nth_error (firstn n l ++ y :: skipn (S n) l) m = nth_error l m) /\
  List.length (firstn n l ++ y :: skipn (S n) l) = List.length l.
Proof.
  revert n. induction l as [|a l IH]; intros [|n] H; try discriminate.
  - simpl. repeat split; auto. intros [|m] Hm; [congruence | reflexivity].
  - simpl in H. destruct (IH n H) as (H1 & H2 & H3).
    cbn [firstn skipn app nth_error List.length].
    repeat split; auto.
    intros [|m] Hm; [reflexivity|]. apply H2. congruence.
Qed.

Section WithDriver.
Variable D : Type.
Variable dbDriver : option (Driver.t D).

(** [add] stores the wrapped handler under [namespace] and [name] *)
Lemma add_registers (namespace name : string) (cb : handler D)
    (rs : Resolvers D) :
  exists fields,
    get namespace (add D dbDriver namespace name cb rs) = Some fields /\
    get name fields = Some (wrapped D dbDriver namespace name cb).
Proof.
  unfold add, register, ensure_namespace.
  destruct (has namespace rs) eqn:Hh.
  - unfold has in Hh. destruct (get namespace rs) as [fields|] eqn:G;
      [|discriminate].
    exists (set name (wrapped D dbDriver namespace name cb) fields).
    now rewrite !get_set_same.
  - rewrite get_set_same.
    exists (set name (wrapped D dbDriver namespace name cb) []).
    now rewrite !get_set_same.
Qed.

(** [parseArgsCommon] has no handler: the exception of the filter parser
    is its own, and the fetch that called it throws the same exception
    before any call of the driver *)
Lemma parseArgsCommon_surfaces (tablename f : string) (args : obj value)
    (e : error) :
  arg "filter" args = VStr f ->
  f <> EmptyString ->
  Parser.parseFilterExpression f tablename = Throw e ->
  parseArgsCommon tablename args = Throw e.
Proof.
  intros Ha Hf He. unfold parseArgsCommon. rewrite Ha. cbn [truthy].
  apply String.eqb_neq in Hf. rewrite Hf. cbn [negb]. now rewrite He.
Qed.

Lemma GetFirstOf_surfaces (tablename f : string) (parent : value)
    (args : obj value) (context : option loc) (e : error) (w : World D) :
  arg "filter" args = VStr f ->
  f <> EmptyString ->
  Parser.parseFilterExpression f tablename = Throw e ->
  GetFirstOf D dbDriver tablename parent args context w = (Throw e, w).
Proof.
  intros Ha Hf He. unfold GetFirstOf, bind, lift.
  now rewrite (parseArgsCommon_surfaces tablename f args e).
Qed.

(** With a context object supplied, [enter] writes [ioc] into it *)
Lemma enter_supplied (l : loc) (o : obj value) (w : World D) :
  nth_error (heap D w) l = Some o ->
  enter D dbDriver (Some l) w =
    (Ok l,
     mkWorld D (firstn l (heap D w) ++ set "ioc" (ioc D dbDriver) o
                  :: skipn (S l) (heap D w))
       (store D w) (calls D w)).
Proof.
  intros H. unfold enter, bind, ret, set_ioc. now rewrite H.
Qed.

End WithDriver.
End ResolverFacts.

Section ResolverProperties.
Import Resolver ObjectFacts ResolverFacts.
Variable D : Type.
Variable dbDriver : option (Driver.t D).

(** C5: the function that add(namespace, field, handler) stores runs the
    active validator first. When the validator returns a falsy value the
    function returns what the rejected callback returns and the handler
    is not invoked: the outcome is the same for any other handler. When
    the validator returns a truthy value the function returns what the
    handler returns. With the default hook the handler always runs. *)
Theorem C5_add_validator_guards_handler
    (namespace name : string) (cb : handler D) (rs : Resolvers D)
    (beforeHook : Hook D) (root : value) (args : option (obj value))
    (context : option loc) (w w1 w2 : World D) (l : loc)
    (passBefore : value) :
  enter D dbDriver context w = (Ok l, w1) ->
  validator D beforeHook namespace name (root_or_null root)
    (args_or_empty args) l w1 = (Ok passBefore, w2) ->
  (exists fields,
      get namespace (add D dbDriver namespace name cb rs) = Some fields /\
      get name fields = Some (wrapped D dbDriver namespace name cb)) /\
  (truthy passBefore = false ->
     wrapped D dbDriver namespace name cb beforeHook root args context w =
       rejected D beforeHook namespace name (root_or_null root)
         (args_or_empty args) l w2 /\
     forall cb' : handler D,
       wrapped D dbDriver namespace name cb' beforeHook root args context w =
       wrapped D dbDriver namespace name cb beforeHook root args context w) /\
  (truthy passBefore = true ->
     wrapped D dbDriver namespace name cb beforeHook root args context w =
       cb (root_or_null root) (args_or_empty args) l w2) /\
  wrapped D dbDriver namespace name cb (default_hook D) root args context w =
    cb (root_or_null root) (args_or_empty args) l w1.
Proof.
  intros He Hv. split; [apply add_registers|].
  assert (Hw : forall cb0 : handler D,
             wrapped D dbDriver namespace name cb0 beforeHook root args
               context w =
             if truthy passBefore
             then cb0 (root_or_null root) (args_or_empty args) l w2
             else rejected D beforeHook namespace name (root_or_null root)
                    (args_or_empty args) l w2).
  { intros cb0. unfold wrapped, bind, guarded. rewrite He. unfold bind.
    rewrite Hv. now destruct (truthy passBefore). }
  split; [|split].
  - intros Hf. split; [|intros cb']; rewrite !Hw; now rewrite Hf.
  - intros Ht. rewrite Hw. now rewrite Ht.
  - unfold wrapped, bind, guarded. rewrite He. reflexivity.
Qed.


(** C10: a resolver wrapped by add() that is called with a context object
    writes ioc = {resolver, db} into that very object before the
    validator runs: the value written has the two properties [resolver],
    the registry itself, and [db], the connection handle of the driver
    (null without a driver), in this order. The validator, the handler
    and the rejection receive the caller's reference, no object is
    created, and the wrapper changes no other property of the object, no
    other object, and neither the database nor the calls made to the
    driver. *)
Theorem C10_context_mutated_in_place
    (namespace name : string) (cb : handler D) (beforeHook : Hook D)
    (root : value) (args : option (obj value)) (l : loc) (o : obj value)
    (w : World D) :
  nth_error (heap D w) l = Some o ->
  exists w1,
    wrapped D dbDriver namespace name cb beforeHook root args (Some l) w =
      guarded D namespace name cb beforeHook (root_or_null root)
        (args_or_empty args) l w1 /\
    nth_error (heap D w1) l = Some (set "ioc" (ioc D dbDriver) o) /\
    get "ioc" (set "ioc" (ioc D dbDriver) o) = Some (ioc D dbDriver) /\
    ioc D dbDriver =
      VObj [("resolver", VHost "Resolver");
            ("db", match dbDriver with
                   | Some d => Driver.db d
                   | None => VNull
                   end)] /\
    prop (ioc D dbDriver) "resolver" = Ok (VHost "Resolver") /\
    prop (ioc D dbDriver) "db" =
      Ok (match dbDriver with
          | Some d => Driver.db d
          | None => VNull
          end) /\
    (forall k, k <> "ioc" ->
       get k (set "ioc" (ioc D dbDriver) o) = get k o) /\
    (forall l', l' <> l -> nth_error (heap D w1) l' = nth_error (heap D w) l') /\
    List.length (heap D w1) = List.length (heap D w) /\
    store D w1 = store D w /\
    calls D w1 = calls D w.
Proof.
  intros H. eexists. split.
  - unfold wrapped, bind. rewrite (enter_supplied D dbDriver l o w H).
    reflexivity.
  - destruct (nth_error_replace (heap D w) l o
                (set "ioc" (ioc D dbDriver) o) H) as (H1 & H2 & H3).
    cbn [heap store calls]. repeat split; auto.
    + apply get_set_same.
    + intros k Hk. now apply get_set_other.
Qed.

Variable toCamelCase : string -> string.

(** The single-record fetch: one call of the driver's [firstOf] on the
    parsed arguments *)
Lemma GetFirstOf_fetch (d : Driver.t D) (tablename : string)
    (parent : value) (args parsed : obj value) (context : option loc)
    (w : World D) :
  dbDriver = Some d ->
  parseArgsCommon tablename args = Ok parsed ->
  GetFirstOf D dbDriver tablename parent args context w =
    driver_call D (CallFirstOf tablename parsed)
      (Driver.firstOf d tablename parsed) w.
Proof.
  intros Hd Hp. unfold GetFirstOf, bind, lift, with_driver.
  now rewrite Hp, Hd.
Qed.


End ResolverProperties.



(** In that example the driver is called once, for the first record of
    [foo] under the filter [id#1] *)
Example foreign_resolver_example :
  Resolver.calls nat
    (snd (Resolver.foreign_resolver nat (Some Example.resolverDriver)
            Example.fooIdColumn "foo" "id" (Resolver.default_hook nat)
            Example.barRecord (Some []) None Example.world0))
  = [Resolver.CallFirstOf "foo"
       [("filter",
         Resolver.VObj
           [("foo", Resolver.VArr
                      [Resolver.VArr [Resolver.VStr "#"; Resolver.VStr "id";
                                      Resolver.VStr "1"]])])]].
Proof. reflexivity. Qed.

Lemma C5_witness :
  Resolver.wrapped nat (Some Example.resolverDriver) "Query" "FooGetPage"
    Example.countingHandler Example.denyHook Resolver.VUndefined None
    (Some 0) Example.world0 =
  (Ok (Resolver.VStr "denied"), Example.world1) /\
  Resolver.store nat Example.world1 = Resolver.store nat Example.world0.
Proof.
  split; [|reflexivity].
  destruct (C5_add_validator_guards_handler nat
              (Some Example.resolverDriver) "Query" "FooGetPage"
              Example.countingHandler [] Example.denyHook
              Resolver.VUndefined None (Some 0) Example.world0
              Example.world1 Example.world1 0 (Resolver.VBool false)
              eq_refl eq_refl) as (_ & Hfalsy & _).
  exact (proj1 (Hfalsy eq_refl)).
Defined.

Lemma C10_witness :
  exists w1,
    Resolver.wrapped nat (Some Example.resolverDriver) "Query" "FooGetPage"
      Example.countingHandler Example.denyHook Resolver.VUndefined None
      (Some 0) Example.world0 =
    Resolver.guarded nat "Query" "FooGetPage" Example.countingHandler
      Example.denyHook Resolver.VNull [] 0 w1 /\
    nth_error (Resolver.heap nat w1) 0 =
      Some [("user", Resolver.VStr "ann");
            ("ioc", Resolver.ioc nat (Some Example.resolverDriver))] /\
    Resolver.ioc nat (Some Example.resolverDriver) =
      Resolver.VObj
        [("resolver", Resolver.VHost "Resolver");
         ("db", Resolver.Driver.db Example.resolverDriver)].
Proof.
  destruct (C10_context_mutated_in_place nat (Some Example.resolverDriver)
              "Query" "FooGetPage" Example.countingHandler Example.denyHook
              Resolver.VUndefined None 0 [("user", Resolver.VStr "ann")]
              Example.world0 eq_refl) as (w1 & H1 & H2 & _ & H3 & _).
  exists w1. split; [exact H1 | split; [exact H2 | exact H3]].
Defined.

(* ================================================================== *)
(** * The names of the mutation in the schema and in the resolver map *)
(* ================================================================== *)

Module NamingFacts.
Import JsString.

Lemma last_char_append (a b : string) :
  b <> EmptyString -> last_char (a ++ b)%string = last_char b.
Proof.
  intros Hb. induction a as [|c a IH]; [reflexivity|].
  cbn [String.append]. change (last_char (String c (a ++ b)%string))
    with (match (a ++ b)%string with
          | EmptyString => Some c
          | _ => last_char (a ++ b)%string
          end).
  destruct (a ++ b)%string eqn:E; [|exact IH].
  destruct a; [simpl in E; congruence | discriminate].
Qed.

(** Whatever [toCamelCase] gives, a name ending in [Put] is not a name
    ending in [PutItem] *)
Lemma Put_is_not_PutItem (a b : string) :
  (a ++ "Put")%string <> (b ++ "PutItem")%string.
Proof.
  intros H. apply (f_equal last_char) in H.
  rewrite !last_char_append in H by discriminate. discriminate.
Qed.

Lemma length_append (a b : string) :
  String.length (a ++ b)%string = String.length a + String.length b.
Proof. induction a; simpl; auto. Qed.

Lemma append_inj_r (a b c : string) :
  (a ++ c)%string = (b ++ c)%string -> a = b.
Proof.
  revert b. induction a as [|x a IH]; intros [|y b] H.
  - reflexivity.
  - apply (f_equal String.length) in H. cbn [String.append] in H.
    cbn [String.length] in H. rewrite length_append in H. lia.
  - apply (f_equal String.length) in H. cbn [String.append] in H.
    cbn [String.length] in H. rewrite length_append in H. lia.
  - cbn [String.append] in H. injection H as -> H. f_equal. now apply IH.
Qed.

Lemma NoDup_map_suffix (f : string -> string) (sfx : string)
    (l : list string) :
  NoDup (map f l) -> NoDup (map (fun x => (f x ++ sfx)%string) l).
Proof.
  induction l as [|x l IH]; intros H; [constructor|].
  cbn [map] in *. inversion H as [|? ? Hx Hl]; subst.
  constructor; [|now apply IH].
  intros Hin. apply in_map_iff in Hin. destruct Hin as (y & E & Hy).
  apply append_inj_r in E. apply Hx. rewrite <- E. now apply in_map.
Qed.

Lemma GetPage_is_not_GetFirst (a b : string) :
  (a ++ "GetPage")%string <> (b ++ "GetFirst")%string.
Proof.
  intros H. apply (f_equal last_char) in H.
  rewrite !last_char_append in H by discriminate. discriminate.
Qed.

Lemma all_digits_append (a b : string) :
  JsObject.all_digits (a ++ b) =
    (JsObject.all_digits a && JsObject.all_digits b)%bool.
Proof.
  induction a as [|c a IH]; [reflexivity|].
  cbn [String.append JsObject.all_digits]. rewrite IH.
  now rewrite andb_assoc.
Qed.

(** A name that ends in letters is not an array index *)
Lemma plain_suffix (a b : string) :
  JsObject.all_digits b = false -> is_plain (a ++ b) = true.
Proof.
  intros H. unfold is_plain, JsObject.array_index.
  destruct (a ++ b)%string as [|c rest] eqn:E; [reflexivity|].
  rewrite <- E. rewrite all_digits_append, H, andb_false_r. reflexivity.
Qed.

End NamingFacts.

(** C1: for the tables foo and bar of the README, the full schema build
    gives the Mutation type the fields FooPutItem and BarPutItem, and the
    full resolver build, which ends without an exception, gives the
    Mutation namespace the keys FooPut and BarPut: the namespace has no
    key FooPutItem. For any [toCamelCase] and any two table names the two
    names differ. *)
Theorem C1_mutation_names_do_not_line_up :
  let schema :=
    Compiler.built Example.toCamelCase Example.dbSchema
      (Example.compilerDriver Example.dbSchema) in
  let build :=
    Resolver.getResolvers nat (Some Example.resolverDriver)
      Example.toCamelCase true [] in
  option_map (map fst) (get "Mutation" (Compiler.types schema))
    = Some ["FooPutItem"; "BarPutItem"] /\
  snd build = None /\
  option_map (map fst) (get "Mutation" (fst build))
    = Some ["FooPut"; "BarPut"] /\
  option_map (has (Example.toCamelCase "foo" ++ "PutItem")%string)
    (get "Mutation" (fst build)) = Some false /\
  (forall (toCamelCase : string -> string) (T T' : string),
      (toCamelCase T' ++ "Put")%string
      <> (toCamelCase T ++ "PutItem")%string).
Proof.
  cbv zeta. split; [reflexivity|]. split; [reflexivity|].
  split; [reflexivity|]. split; [reflexivity|].
  intros toCamelCase T T'. apply NamingFacts.Put_is_not_PutItem.
Qed.

(* ================================================================== *)
(** * The job queue *)
(* ================================================================== *)

Module QueueFacts.
Import Compiler.

Lemma extends_refl (s : Schema) : extends s s.
Proof. split; auto. Qed.

Lemma extends_trans (s1 s2 s3 : Schema) :
  extends s1 s2 -> extends s2 s3 -> extends s1 s3.
Proof. intros [A B] [C E]. split; auto. Qed.

Lemma robust_extends (job : list segment) (s s1 : Schema) :
  extends s s1 -> robust job s -> robust job s1.
Proof.
  destruct job as [|g rest]; [auto|]. cbn [robust].
  intros H Hr s' Hs'. apply Hr. eapply extends_trans; eauto.
Qed.

(** Resuming a job does not look at the jobs that wait *)
Lemma call_prefix (job : list segment) (s : Schema)
    (q acc : list (list segment)) (rej : list error) :
  call job (mkRun s (q ++ acc) rej) =
    let r := call job (mkRun s acc rej) in
    mkRun (schema r) (q ++ queue r) (rejected r).
Proof.
  destruct job as [|g rest]; [reflexivity|]. cbn [call schema queue rejected].
  destruct (g s) as [s' [e|]]; cbn [schema queue rejected]; [reflexivity|].
  destruct rest; [reflexivity|]. now rewrite app_assoc.
Qed.

(** A turn of the queue: the jobs that wait are resumed, in order *)
Lemma run_jobs_turn (q : list (list segment)) :
  forall (acc : list (list segment)) (s : Schema) (rej : list error)
         (fuel : nat),
    run_jobs (List.length q + fuel) (mkRun s (q ++ acc) rej) =
    run_jobs fuel (fold_left (fun r job => call job r) q (mkRun s acc rej)).
Proof.
  induction q as [|job q IH]; intros acc s rej fuel; [reflexivity|].
  cbn [List.length Nat.add app run_jobs queue schema rejected fold_left].
  rewrite call_prefix. cbv zeta.
  destruct (call job (mkRun s acc rej)) as [s' acc' rej'].
  cbn [schema queue rejected]. apply IH.
Qed.

(** A turn of robust jobs: their next segments run in queue order, none
    throws, and what is left of them waits in the same order *)
Lemma turn_robust (q : list (list segment)) :
  forall (acc : list (list segment)) (s : Schema) (rej : list error),
    Forall (fun job => robust job s) q ->
    fold_left (fun r job => call job r) q (mkRun s acc rej) =
      mkRun (heads q s) (acc ++ tails q) rej /\
    extends s (heads q s) /\
    Forall (fun job => robust job (heads q s)) (tails q).
Proof.
  induction q as [|job q IH]; intros acc s rej Hq.
  - cbn. rewrite app_nil_r. repeat split; auto.
  - inversion Hq as [|? ? Hjob Hq']; subst.
    destruct job as [|g rest].
    + destruct (IH acc s rej Hq') as (E & X & R).
      cbn [fold_left call heads]. unfold tails. cbn [map tl filter].
      fold (tails q). fold (heads q s). auto.
    + cbn [robust] in Hjob.
      destruct (Hjob s (extends_refl s)) as (Hn & Hx & Hr).
      assert (Hq1 : Forall (fun job => robust job (fst (g s))) q).
      { eapply Forall_impl; [|exact Hq'].
        intros job. now apply robust_extends. }
      cbn [fold_left call schema queue rejected].
      destruct (g s) as [s1 o] eqn:Eg. cbn [fst snd] in *. subst o.
      cbn [heads fold_left]. rewrite Eg. cbn [fst]. fold (heads q s1).
      destruct rest as [|g' rest'].
      * unfold tails. cbn [map tl filter]. fold (tails q).
        destruct (IH acc s1 rej Hq1) as (E & X & R).
        rewrite E. split; [reflexivity|]. split; [|exact R].
        eapply extends_trans; eauto.
      * unfold tails. cbn [map tl filter]. fold (tails q).
        destruct (IH (acc ++ [g' :: rest']) s1 rej Hq1) as (E & X & R).
        rewrite E. rewrite <- app_assoc. cbn [app].
        split; [reflexivity|]. split; [eapply extends_trans; eauto|].
        constructor; [|exact R]. eapply robust_extends; eauto.
Qed.

Lemma tails_nonempty (q : list (list segment)) :
  Forall (fun job => job <> []) (tails q).
Proof.
  unfold tails. apply Forall_forall. intros job H.
  apply filter_In in H. destruct H as [_ H]. destruct job; congruence.
Qed.

Lemma pending_tails (q : list (list segment)) :
  Forall (fun job => job <> []) q ->
  pending q = List.length q + pending (tails q).
Proof.
  induction 1 as [|job q Hjob _ IH]; [reflexivity|].
  destruct job as [|g rest]; [congruence|].
  change (pending ((g :: rest) :: q))
    with (S (List.length rest) + pending q).
  rewrite IH. destruct rest as [|g' rest'].
  - change (tails ([g] :: q)) with (tails q). cbn [List.length]. lia.
  - change (tails ((g :: g' :: rest') :: q))
      with ((g' :: rest') :: tails q).
    change (pending ((g' :: rest') :: tails q))
      with (S (List.length rest') + pending (tails q)).
    cbn [List.length]. lia.
Qed.

(** The queue of robust jobs empties, layer by layer, without an
    exception *)
Lemma run_jobs_layers (n : nat) :
  forall (q : list (list segment)) (s : Schema) (rej : list error),
    Forall (fun job => robust job s) q ->
    Forall (fun job => job <> []) q ->
    tails_n n q = [] ->
    run_jobs (pending q) (mkRun s q rej) = mkRun (layers n q s) [] rej.
Proof.
  induction n as [|n IH]; intros q s rej Hr Hne Ht.
  - cbn in Ht. subst q. reflexivity.
  - rewrite (pending_tails q Hne).
    pose proof (run_jobs_turn q [] s rej (pending (tails q))) as Hturn.
    rewrite app_nil_r in Hturn. rewrite Hturn.
    destruct (turn_robust q [] s rej Hr) as (E & _ & R).
    rewrite E. cbn [app layers]. apply IH; auto. apply tails_nonempty.
Qed.

(** ** The queue empties *)

Lemma call_nonempty (m : list segment) (r : Run) :
  Forall (fun job => job <> []) (queue r) ->
  Forall (fun job => job <> []) (queue (call m r)).
Proof.
  intros H. destruct m as [|g rest]; [exact H|]. cbn [call].
  destruct (g (schema r)) as [s' [e|]]; cbn [queue]; [exact H|].
  destruct rest as [|g' rest']; [exact H|].
  apply Forall_app. split; [exact H|]. constructor; [discriminate|constructor].
Qed.

Lemma call_pending (m : list segment) (r : Run) :
  m <> [] ->
  S (pending (queue (call m r))) <= List.length m + pending (queue r).
Proof.
  intros Hm. destruct m as [|g rest]; [congruence|]. cbn [call].
  destruct (g (schema r)) as [s' [e|]]; cbn [queue List.length]; [lia|].
  destruct rest as [|g' rest']; [cbn [List.length]; lia|].
  unfold pending. rewrite map_app, list_sum_app. simpl. lia.
Qed.

Lemma run_jobs_empties (fuel : nat) :
  forall r,
    Forall (fun job => job <> []) (queue r) ->
    pending (queue r) <= fuel ->
    queue (run_jobs fuel r) = [].
Proof.
  induction fuel as [|fuel IH]; intros r Hne Hf.
  - cbn [run_jobs]. destruct (queue r) as [|job q]; [reflexivity|].
    inversion Hne; subst. destruct job; [congruence|].
    unfold pending in Hf. cbn in Hf. lia.
  - cbn [run_jobs]. destruct (queue r) as [|job q] eqn:E.
    + exact E.
    + inversion Hne as [|? ? Hjob Hq]; subst. apply IH.
      * now apply call_nonempty.
      * pose proof (call_pending job (mkRun (schema r) q (rejected r)) Hjob)
          as Hp.
        cbn [queue] in Hp.
        change (pending (job :: q)) with (List.length job + pending q) in Hf.
        lia.
Qed.

(** Whatever the jobs do, the queue is empty once [settle] has run *)
Lemma settle_empties (r : Run) :
  Forall (fun job => job <> []) (queue r) -> queue (settle r) = [].
Proof. intros H. unfold settle. now apply run_jobs_empties. Qed.

Lemma heads_app (q1 q2 : list (list segment)) (s : Schema) :
  heads (q1 ++ q2) s = heads q2 (heads q1 s).
Proof. unfold heads. apply fold_left_app. Qed.

Lemma tails_app (q1 q2 : list (list segment)) :
  tails (q1 ++ q2) = tails q1 ++ tails q2.
Proof. unfold tails. now rewrite map_app, filter_app. Qed.

Lemma heads_flat_map {A} (f : A -> list (list segment)) (l : list A) :
  forall s, heads (flat_map f l) s = fold_left (fun s x => heads (f x) s) l s.
Proof.
  induction l as [|x l IH]; intros s; [reflexivity|].
  cbn [flat_map fold_left]. rewrite heads_app. apply IH.
Qed.

Lemma tails_flat_map {A} (f : A -> list (list segment)) (l : list A) :
  tails (flat_map f l) = flat_map (fun x => tails (f x)) l.
Proof.
  induction l as [|x l IH]; [reflexivity|].
  cbn [flat_map]. rewrite tails_app. now rewrite IH.
Qed.

Lemma fold_left_flat_map {A B C} (f : A -> list B) (g : C -> B -> C)
    (l : list A) :
  forall c, fold_left g (flat_map f l) c
            = fold_left (fun c x => fold_left g (f x) c) l c.
Proof.
  induction l as [|x l IH]; intros c; [reflexivity|].
  cbn [flat_map fold_left]. rewrite fold_left_app. apply IH.
Qed.

End QueueFacts.

(* ================================================================== *)
(** * The segments of the compiler as assignments *)
(* ================================================================== *)

Module SegmentFacts.
Import Compiler ObjectFacts QueueFacts.

Lemma schema_eta (s : Schema) : mkSchema (types s) (inputs s) = s.
Proof. now destruct s. Qed.

Lemma ensure_type_eq (t : string) (s : Schema) :
  ensure_type t s = mkSchema (ensure_key t (types s)) (inputs s).
Proof.
  unfold ensure_type, ensure_key. destruct (has t (types s)); auto.
  now rewrite schema_eta.
Qed.

Lemma ensure_input_eq (i : string) (s : Schema) :
  ensure_input i s = mkSchema (types s) (ensure_key i (inputs s)).
Proof.
  unfold ensure_input, ensure_key. destruct (has i (inputs s)); auto.
  now rewrite schema_eta.
Qed.

Lemma set_type_field_eq (t f : string) (def : FieldDef) (s : Schema) :
  has t (types s) = true ->
  set_type_field t f def s =
    (mkSchema (set_field t f def (types s)) (inputs s), None).
Proof.
  unfold has, set_type_field, set_field.
  destruct (get t (types s)); [reflexivity | discriminate].
Qed.

Lemma set_input_field_eq (i f ty : string) (s : Schema) :
  has i (inputs s) = true ->
  set_input_field i f ty s =
    (mkSchema (types s) (set_field i f ty (inputs s)), None).
Proof.
  unfold has, set_input_field, set_field.
  destruct (get i (inputs s)); [reflexivity | discriminate].
Qed.

(** [forEach] over segments that are assignments to the types *)
Lemma seg_each_types {A} (f : A -> segment)
    (h : A -> obj (obj FieldDef) -> obj (obj FieldDef))
    (P : obj (obj FieldDef) -> Prop) (l : list A) :
  (forall x tys, In x l -> P tys -> P (h x tys)) ->
  (forall x s, In x l -> P (types s) ->
     f x s = (mkSchema (h x (types s)) (inputs s), None)) ->
  forall s, P (types s) ->
    seg_each f l s =
      (mkSchema (fold_left (fun tys x => h x tys) l (types s)) (inputs s),
       None).
Proof.
  induction l as [|x l IH]; intros HP Hf s Hs.
  - cbn. now rewrite schema_eta.
  - cbn [seg_each fold_left]. rewrite Hf by (auto; now left).
    rewrite IH.
    + reflexivity.
    + intros y tys Hy. apply HP. now right.
    + intros y s' Hy. apply Hf. now right.
    + cbn [types]. apply HP; auto. now left.
Qed.

Lemma seg_each_inputs {A} (f : A -> segment)
    (h : A -> obj (obj string) -> obj (obj string)) (l : list A) :
  (forall x s, In x l ->
     f x s = (mkSchema (types s) (h x (inputs s)), None)) ->
  forall s,
    seg_each f l s =
      (mkSchema (types s) (fold_left (fun ins x => h x ins) l (inputs s)),
       None).
Proof.
  induction l as [|x l IH]; intros Hf s.
  - cbn. now rewrite schema_eta.
  - cbn [seg_each fold_left]. rewrite Hf by now left.
    rewrite IH; [reflexivity|]. intros y s' Hy. apply Hf. now right.
Qed.

Lemma fold_set_fields {A V} (k : string) (e : A -> list (string * V))
    (l : list A) (o : obj (obj V)) :
  fold_left (fun o x => set_fields k (e x) o) l o
  = set_fields k (flat_map e l) o.
Proof.
  unfold set_fields. now rewrite fold_left_flat_map.
Qed.

Section WithDriver.
Variable toCamelCase : string -> string.
Variable dbSchema : DbSchema.
Variable dbDriver : Driver.

Local Abbreviation column_type := (column_type dbSchema dbDriver).
Local Abbreviation scalar_entry := (scalar_entry dbSchema dbDriver).
Local Abbreviation foreign_entry := (foreign_entry toCamelCase dbSchema).
Local Abbreviation reverse_fields := (reverse_fields toCamelCase dbSchema).
Local Abbreviation input_entry := (input_entry dbSchema dbDriver).

(** The assignment under [try]: the scalar field, or nothing *)
Lemma type_scalar_eq (field tablename child : string) (s : Schema) :
  type_scalar dbSchema dbDriver field tablename child s =
    (mkSchema (set_fields field (scalar_entry tablename child) (types s))
       (inputs s), None).
Proof.
  unfold type_scalar, try_catch, Compiler.scalar_entry, Compiler.column_type.
  unfold set_fields.
  destruct (get field (types s)) as [fs|] eqn:G.
  - destruct (rbind _ _) as [ty|e]; cbn [fold_left fst snd].
    + rewrite set_type_field_eq by (unfold has; now rewrite G). reflexivity.
    + now rewrite schema_eta.
  - cbn [fst]. destruct (rbind _ _) as [ty|e]; cbn [fold_left fst snd].
    + unfold set_field. rewrite G. now rewrite schema_eta.
    + now rewrite schema_eta.
Qed.

Lemma input_scalar_eq (name tablename col : string) (s : Schema) :
  input_scalar dbSchema dbDriver name tablename col s =
    (mkSchema (types s)
       (set_fields name (input_entry tablename col) (inputs s)), None).
Proof.
  unfold input_scalar, try_catch, Compiler.input_entry, Compiler.column_type.
  unfold set_fields.
  destruct (get name (inputs s)) as [fs|] eqn:G.
  - destruct (rbind _ _) as [ty|e]; cbn [fold_left fst snd].
    + rewrite set_input_field_eq by (unfold has; now rewrite G). reflexivity.
    + now rewrite schema_eta.
  - cbn [fst]. destruct (rbind _ _) as [ty|e]; cbn [fold_left fst snd].
    + unfold set_field. rewrite G. now rewrite schema_eta.
    + now rewrite schema_eta.
Qed.

(** The scalar pass of a type never throws *)
Lemma type_scalars_eq (field tablename : string) (cols : list string)
    (s : Schema) :
  seg_each (type_scalar dbSchema dbDriver field tablename) cols s =
    (mkSchema
       (set_fields field (flat_map (scalar_entry tablename) cols) (types s))
       (inputs s), None).
Proof.
  rewrite (seg_each_types _
             (fun c => set_fields field (scalar_entry tablename c))
             (fun _ => True)); auto.
  - now rewrite fold_set_fields.
  - intros c s' _ _. apply type_scalar_eq.
Qed.

Lemma input_scalars_eq (name tablename : string) (cols : list string)
    (s : Schema) :
  seg_each (input_scalar dbSchema dbDriver name tablename) cols s =
    (mkSchema (types s)
       (set_fields name (flat_map (input_entry tablename) cols) (inputs s)),
     None).
Proof.
  rewrite (seg_each_inputs _
             (fun c => set_fields name (input_entry tablename c))).
  - now rewrite fold_set_fields.
  - intros c s' _. apply input_scalar_eq.
Qed.

(** The relation of a described column: an assignment, when the type is
    there *)
Lemma type_foreign_eq (field tablename c : string) (s : Schema) :
  (exists column, column_meta dbSchema tablename c = Ok (Some column)) ->
  has field (types s) = true ->
  type_foreign toCamelCase dbSchema field tablename c s =
    (mkSchema (set_fields field (foreign_entry tablename c) (types s))
       (inputs s), None).
Proof.
  intros [column Hc] Hf. unfold type_foreign, Compiler.foreign_entry.
  rewrite Hc. destruct (Column.__foreign column) as [fk|].
  - now rewrite set_type_field_eq.
  - unfold set_fields. cbn [fold_left]. now rewrite schema_eta.
Qed.

Lemma type_foreigns_eq (field tablename : string) (cols : list string)
    (s : Schema) :
  (forall c, In c cols ->
     exists column, column_meta dbSchema tablename c = Ok (Some column)) ->
  has field (types s) = true ->
  seg_each (type_foreign toCamelCase dbSchema field tablename) cols s =
    (mkSchema
       (set_fields field (flat_map (foreign_entry tablename) cols) (types s))
       (inputs s), None).
Proof.
  intros Hd Hf.
  rewrite (seg_each_types _
             (fun c => set_fields field (foreign_entry tablename c))
             (fun tys => has field tys = true)); auto.
  - now rewrite fold_set_fields.
  - intros c tys _ H. now rewrite has_set_fields.
  - intros c s' Hc H. now apply type_foreign_eq; auto.
Qed.

Lemma type_reverses_eq (field tablename : string) (t : Table.t)
    (s : Schema) :
  get tablename dbSchema = Some t ->
  has field (types s) = true ->
  type_reverses toCamelCase dbSchema field tablename s =
    (mkSchema (set_fields field (reverse_fields tablename) (types s))
       (inputs s), None).
Proof.
  intros Ht Hf. unfold type_reverses, Compiler.reverse_fields. rewrite Ht.
  rewrite (seg_each_types _
             (fun r => set_fields field [reverse_entry toCamelCase r])
             (fun tys => has field tys = true)); auto.
  - rewrite fold_set_fields.
    replace (flat_map (fun r => [reverse_entry toCamelCase r])
               (Table.__reverse t))
      with (map (reverse_entry toCamelCase) (Table.__reverse t));
      [reflexivity|].
    induction (Table.__reverse t) as [|r l IH]; [reflexivity|].
    cbn [flat_map map app]. now rewrite IH.
  - intros r tys _ H. now rewrite has_set_fields.
  - intros r s' _ H. unfold type_reverse, set_fields. cbn [fold_left].
    now rewrite set_type_field_eq.
Qed.

(** ** No pass throws *)

Lemma robust_step (P : Schema -> Prop) (g : segment)
    (rest : list segment) (s : Schema) :
  (forall s1 s2, extends s1 s2 -> P s1 -> P s2) ->
  P s ->
  (forall s', P s' ->
     snd (g s') = None /\ extends s' (fst (g s')) /\
     robust rest (fst (g s'))) ->
  robust (g :: rest) s.
Proof. intros Hc Hs Hg s' Hs'. apply Hg. eapply Hc; eauto. Qed.

Lemma has_types_closed (t : string) (s1 s2 : Schema) :
  extends s1 s2 -> has t (types s1) = true -> has t (types s2) = true.
Proof. intros [H _]. apply H. Qed.

Lemma has_inputs_closed (i : string) (s1 s2 : Schema) :
  extends s1 s2 -> has i (inputs s1) = true -> has i (inputs s2) = true.
Proof. intros [_ H]. apply H. Qed.

Lemma extends_assign (s : Schema) (tys : obj (obj FieldDef))
    (ins : obj (obj string)) :
  (forall k, has k (types s) = true -> has k tys = true) ->
  (forall k, has k (inputs s) = true -> has k ins = true) ->
  extends s (mkSchema tys ins).
Proof. intros A B. split; assumption. Qed.

Ltac keeps_keys :=
  apply extends_assign; intros ? Hkept;
  rewrite ?has_set, ?has_set_fields, ?has_set_field, ?has_ensure_key,
    ?Hkept, ?orb_true_r; auto.

Lemma In_tables_get (tablename : string) :
  In tablename (tables dbSchema) ->
  exists t, get tablename dbSchema = Some t.
Proof. intros H. apply In_get. now apply In_keys. Qed.

(** The last segment of [mapDbTableToGraphqlType] *)
Lemma type_relations_eq (tablename : string) (t : Table.t) (s : Schema) :
  let field := toCamelCase tablename in
  let cols := getTableColumnsFromSchema dbDriver tablename in
  get tablename dbSchema = Some t ->
  (forall c, In c cols ->
     exists column, column_meta dbSchema tablename c = Ok (Some column)) ->
  has field (types s) = true ->
  seg_seq (seg_each (type_foreign toCamelCase dbSchema field tablename) cols)
    (seg_seq (type_reverses toCamelCase dbSchema field tablename)
       (type_page field)) s =
    (mkSchema
       (set (field ++ "Page")%string (page_fields field)
          (set_fields field
             (foreign_fields toCamelCase dbSchema dbDriver tablename
                ++ reverse_fields tablename) (types s)))
       (inputs s), None).
Proof.
  intros field cols Ht Hd Hf. unfold seg_seq.
  rewrite type_foreigns_eq by assumption.
  rewrite (type_reverses_eq _ _ t) by
    (auto; cbn [types]; now rewrite has_set_fields).
  unfold type_page, seg_pure. cbn [types inputs].
  now rewrite set_fields_app.
Qed.

Lemma query_field_eq (f : string) (def : FieldDef) (s : Schema) :
  seg_seq (seg_pure (ensure_type "Query")) (set_type_field "Query" f def) s =
    (mkSchema (set_field "Query" f def (ensure_key "Query" (types s)))
       (inputs s), None).
Proof.
  unfold seg_seq, seg_pure. rewrite ensure_type_eq.
  rewrite set_type_field_eq; [reflexivity|].
  cbn [types]. rewrite has_ensure_key. now rewrite String.eqb_refl.
Qed.

Section Robust.
Hypothesis described : columns_described dbSchema dbDriver.
Variable tablename : string.
Hypothesis listed : In tablename (tables dbSchema).

Lemma robust_type (s : Schema) :
  robust (mapDbTableToGraphqlType toCamelCase dbSchema dbDriver tablename) s.
Proof.
  destruct (In_tables_get tablename listed) as [t Ht].
  unfold mapDbTableToGraphqlType.
  apply (robust_step (fun _ => True)); auto. intros s0 _.
  unfold seg_pure. cbn [fst snd]. rewrite ensure_type_eq.
  split; [reflexivity|]. split; [keeps_keys|].
  apply (robust_step
           (fun s => has (toCamelCase tablename) (types s) = true)).
  - intros s1 s2. apply has_types_closed.
  - cbn [types]. rewrite has_ensure_key. now rewrite String.eqb_refl.
  - intros s1 H1. rewrite type_scalars_eq. cbn [fst snd].
    split; [reflexivity|]. split; [keeps_keys|].
    apply (robust_step
             (fun s => has (toCamelCase tablename) (types s) = true)).
    + intros s2 s3. apply has_types_closed.
    + cbn [types]. now rewrite has_set_fields.
    + intros s2 H2.
      rewrite (type_relations_eq tablename t) by
        (first [ exact Ht | exact H2
               | intros c Hc; now apply (described tablename c) ]).
      cbn [fst snd]. split; [reflexivity|]. split; [keeps_keys | exact I].
Qed.

Lemma robust_query (s : Schema) :
  robust (mapDbTableToGraphqlQuery toCamelCase tablename) s.
Proof.
  unfold mapDbTableToGraphqlQuery.
  apply (robust_step (fun _ => True)); auto. intros s0 _.
  unfold seg_skip. cbn [fst snd].
  split; [reflexivity|]. split; [apply extends_refl|].
  apply (robust_step (fun _ => True)); auto. intros s1 _.
  rewrite query_field_eq. cbn [fst snd].
  split; [reflexivity|]. split; [keeps_keys | exact I].
Qed.

Lemma robust_firstOf (s : Schema) :
  robust (mapDbTableToGraphqlFirstOf toCamelCase tablename) s.
Proof.
  unfold mapDbTableToGraphqlFirstOf.
  apply (robust_step (fun _ => True)); auto. intros s0 _.
  unfold seg_skip. cbn [fst snd].
  split; [reflexivity|]. split; [apply extends_refl|].
  apply (robust_step (fun _ => True)); auto. intros s1 _.
  rewrite query_field_eq. cbn [fst snd].
  split; [reflexivity|]. split; [keeps_keys | exact I].
Qed.

Lemma robust_mutation (s : Schema) :
  robust (mapDbTableToGraphqlMutation toCamelCase tablename) s.
Proof.
  unfold mapDbTableToGraphqlMutation.
  apply (robust_step (fun _ => True)); auto. intros s0 _.
  unfold seg_skip. cbn [fst snd].
  split; [reflexivity|]. split; [apply extends_refl|].
  apply (robust_step (fun _ => True)); auto. intros s1 _.
  unfold seg_pure. cbn [fst snd]. rewrite ensure_type_eq.
  split; [reflexivity|]. split; [keeps_keys|].
  apply (robust_step (fun s => has "Mutation" (types s) = true)).
  - intros s2 s3. apply has_types_closed.
  - cbn [types]. now rewrite has_ensure_key.
  - intros s2 H2. cbn [fst snd].
    split; [reflexivity|]. split; [apply extends_refl|].
    apply (robust_step (fun s => has "Mutation" (types s) = true)); auto.
    + intros s3 s4. apply has_types_closed.
    + intros s3 H3. rewrite set_type_field_eq by assumption. cbn [fst snd].
      split; [reflexivity|]. split; [keeps_keys | exact I].
Qed.

Lemma robust_input (s : Schema) :
  robust (mapDbTableToGraphqlInput toCamelCase dbSchema dbDriver tablename) s.
Proof.
  unfold mapDbTableToGraphqlInput.
  apply (robust_step (fun _ => True)); auto. intros s0 _.
  unfold seg_skip. cbn [fst snd].
  split; [reflexivity|]. split; [apply extends_refl|].
  apply (robust_step (fun _ => True)); auto. intros s1 _. cbn [fst snd].
  split; [reflexivity|]. split; [apply extends_refl|].
  apply (robust_step (fun _ => True)); auto. intros s2 _.
  unfold seg_pure. cbn [fst snd]. rewrite ensure_input_eq.
  split; [reflexivity|]. split; [keeps_keys|].
  apply (robust_step (fun _ => True)); auto. intros s3 _.
  rewrite input_scalars_eq. cbn [fst snd].
  split; [reflexivity|]. split; [keeps_keys|].
  apply (robust_step (fun _ => True)); auto. intros s4 _. cbn [fst snd].
  split; [reflexivity|]. split; [apply extends_refl | exact I].
Qed.

Lemma robust_passes (s : Schema) :
  Forall (fun job => robust job s)
    (passes toCamelCase dbSchema dbDriver tablename).
Proof.
  unfold passes.
  apply Forall_cons; [apply robust_type|].
  apply Forall_cons; [apply robust_query|].
  apply Forall_cons; [apply robust_firstOf|].
  apply Forall_cons; [apply robust_mutation|].
  apply Forall_cons; [apply robust_input|].
  apply Forall_nil.
Qed.

End Robust.

(** An awaited method that is robust does not throw *)
Lemma robust_await (m : list segment) :
  forall s, robust m s ->
    snd (await m s) = None /\ extends s (fst (await m s)).
Proof.
  induction m as [|g rest IH]; intros s H.
  - cbn. split; [reflexivity | apply extends_refl].
  - cbn [robust] in H. destruct (H s (extends_refl s)) as (Hn & Hx & Hr).
    cbn [await]. unfold seg_seq. destruct (g s) as [s1 o].
    cbn [fst snd] in *. subst o. destruct (IH s1 Hr) as (Hn1 & Hx1).
    split; [assumption|]. eapply extends_trans; eauto.
Qed.

Lemma seg_each_robust {A} (f : A -> segment) (l : list A) :
  (forall x s, In x l -> snd (f x s) = None) ->
  forall s, snd (seg_each f l s) = None.
Proof.
  induction l as [|x l IH]; intros H s; [reflexivity|].
  cbn [seg_each]. pose proof (H x s (or_introl eq_refl)) as Hx.
  destruct (f x s) as [s1 o]. cbn [snd] in Hx. subst o.
  apply IH. intros y s' Hy. apply H. now right.
Qed.

End WithDriver.
End SegmentFacts.

(* ================================================================== *)
(** * The builds *)
(* ================================================================== *)

Module BuildFacts.
Import Compiler ObjectFacts QueueFacts SegmentFacts.

Lemma tails_n_flat_map {A} (n : nat) :
  forall (f : A -> list (list segment)) l,
    tails_n n (flat_map f l) = flat_map (fun x => tails_n n (f x)) l.
Proof.
  induction n as [|n IH]; intros f l; [reflexivity|].
  cbn [tails_n]. rewrite tails_flat_map. now rewrite IH.
Qed.

Lemma flat_map_nil {A B} (l : list A) :
  flat_map (fun _ : A => @nil B) l = [].
Proof. induction l; auto. Qed.

(** Every build by [buildSchema] comes to an end: its queue empties *)
Lemma buildSchema_settles (toCamelCase : string -> string)
    (dbSchema : DbSchema) (dbDriver : Driver) (s : Schema) :
  queue (settle (buildSchema toCamelCase dbSchema dbDriver s)) = [].
Proof.
  apply settle_empties. unfold buildSchema.
  assert (H : forall l r,
             Forall (fun job => job <> []) (queue r) ->
             Forall (fun job => job <> [])
               (queue (fold_left (fun r m => call m r) l r))).
  { induction l as [|m l IH]; intros r Hr; [exact Hr|].
    cbn [fold_left]. apply IH. now apply call_nonempty. }
  assert (H0 : Forall (fun job : list segment => job <> [])
                 (queue (mkRun s [] []))) by constructor.
  revert H0. generalize (mkRun s [] []).
  induction (keys dbSchema) as [|x l IH]; intros r Hr; [exact Hr|].
  cbn [fold_left]. apply IH. now apply H.
Qed.

Section WithDriver.
Variable toCamelCase : string -> string.
Variable dbSchema : DbSchema.
Variable dbDriver : Driver.
Hypothesis described : columns_described dbSchema dbDriver.

Local Abbreviation passes := (passes toCamelCase dbSchema dbDriver).
Local Abbreviation all_passes := (flat_map passes (tables dbSchema)).

Lemma robust_all_passes (s : Schema) :
  Forall (fun job => robust job s) all_passes.
Proof.
  apply Forall_forall. intros job H. apply in_flat_map in H.
  destruct H as (tablename & Ht & Hjob).
  pose proof (robust_passes toCamelCase dbSchema dbDriver described
                tablename Ht s) as Hr.
  rewrite Forall_forall in Hr. now apply Hr.
Qed.

(** [buildSchema] runs the first segment of every pass, table by table;
    the rest of the passes wait, and no pass has thrown *)
Lemma buildSchema_eq (s : Schema) :
  buildSchema toCamelCase dbSchema dbDriver s =
    mkRun (heads all_passes s) (tails all_passes) [].
Proof.
  unfold buildSchema.
  rewrite <- (fold_left_flat_map passes (fun r m => call m r)).
  destruct (turn_robust all_passes [] s [] (robust_all_passes s))
    as (E & _ & _).
  exact E.
Qed.

(** Once the queue has emptied, the segments have run layer by layer:
    the first segments of all the passes, then their second segments, and
    so on; no pass has thrown *)
Lemma settle_buildSchema (s : Schema) :
  settle (buildSchema toCamelCase dbSchema dbDriver s) =
    mkRun (layers 5 all_passes s) [] [].
Proof.
  rewrite buildSchema_eq. unfold settle. cbn [queue].
  destruct (turn_robust all_passes [] s [] (robust_all_passes s))
    as (_ & _ & R).
  rewrite (run_jobs_layers 4); auto.
  - apply tails_nonempty.
  - change (tails_n 5 all_passes = []). rewrite tails_n_flat_map.
    apply flat_map_nil.
Qed.

Lemma buildSchemaByTable_ok (tablename : string) (s : Schema) :
  In tablename (tables dbSchema) ->
  snd (buildSchemaByTable toCamelCase dbSchema dbDriver tablename s) = None.
Proof.
  intros Ht. unfold buildSchemaByTable. apply seg_each_robust.
  intros m s' Hm.
  pose proof (robust_passes toCamelCase dbSchema dbDriver described
                tablename Ht s') as Hr.
  rewrite Forall_forall in Hr. now apply robust_await, Hr.
Qed.

Lemma async_buildSchema_ok (s : Schema) :
  snd (async_buildSchema toCamelCase dbSchema dbDriver s) = None.
Proof.
  unfold async_buildSchema. apply seg_each_robust.
  intros tablename s' Ht. now apply buildSchemaByTable_ok.
Qed.

End WithDriver.
End BuildFacts.

(* ================================================================== *)
(** * The layers of a full build *)
(* ================================================================== *)

Module LayerFacts.
Import Compiler ObjectFacts QueueFacts SegmentFacts BuildFacts.

Lemma ensure_key_present {V} (k : string) (o : obj (obj V)) :
  has k o = true -> ensure_key k o = o.
Proof. unfold ensure_key. now intros ->. Qed.

(** A layer that assigns to the types and to the inputs, table by table *)
Lemma fold_layer (R : string -> Schema -> Schema)
    (TY : string -> obj (obj FieldDef) -> obj (obj FieldDef))
    (IN : string -> obj (obj string) -> obj (obj string))
    (P : Schema -> Prop) (l : list string) :
  (forall x s, In x l -> P s ->
     R x s = mkSchema (TY x (types s)) (IN x (inputs s)) /\ P (R x s)) ->
  forall s, P s ->
    fold_left (fun s x => R x s) l s =
      mkSchema (fold_left (fun tys x => TY x tys) l (types s))
               (fold_left (fun ins x => IN x ins) l (inputs s)).
Proof.
  induction l as [|x l IH]; intros H s Hs.
  - cbn. now rewrite schema_eta.
  - cbn [fold_left]. destruct (H x s (or_introl eq_refl) Hs) as [E HP].
    rewrite IH.
    + rewrite E. reflexivity.
    + intros y s' Hy. apply H. now right.
    + exact HP.
Qed.

Section WithDriver.
Variable toCamelCase : string -> string.
Variable dbSchema : DbSchema.
Variable dbDriver : Driver.
Hypothesis described : columns_described dbSchema dbDriver.

Local Abbreviation passes := (passes toCamelCase dbSchema dbDriver).
Local Abbreviation tables := (tables dbSchema).

Lemma layer0_eq (tablename : string) (s : Schema) :
  heads (passes tablename) s =
    mkSchema (ensure_key (toCamelCase tablename) (types s)) (inputs s).
Proof.
  unfold heads, Compiler.passes. cbn [fold_left].
  unfold mapDbTableToGraphqlType, mapDbTableToGraphqlQuery,
    mapDbTableToGraphqlFirstOf, mapDbTableToGraphqlMutation,
    mapDbTableToGraphqlInput, seg_skip, seg_pure.
  cbn [fst]. apply ensure_type_eq.
Qed.

Lemma layer1_eq (tablename : string) (s : Schema) :
  heads (tails_n 1 (passes tablename)) s =
    mkSchema (layer1_types toCamelCase dbSchema dbDriver tablename (types s))
      (inputs s).
Proof.
  unfold heads, Compiler.passes, tails_n, tails.
  unfold mapDbTableToGraphqlType, mapDbTableToGraphqlQuery,
    mapDbTableToGraphqlFirstOf, mapDbTableToGraphqlMutation,
    mapDbTableToGraphqlInput.
  cbn [map tl filter fold_left].
  rewrite type_scalars_eq. cbn [fst]. rewrite !query_field_eq. cbn [fst].
  unfold seg_pure, seg_skip. cbn [fst types inputs].
  rewrite ensure_type_eq. cbn [types inputs].
  unfold layer1_types, scalar_fields, query_entries.
  f_equal. f_equal.
  rewrite (ensure_key_present "Query"
             (set_field "Query" _ _ (ensure_key "Query" _))).
  - reflexivity.
  - rewrite has_set_field, has_ensure_key. reflexivity.
Qed.

Lemma layer2_eq (tablename : string) (s : Schema) :
  In tablename tables ->
  has (toCamelCase tablename) (types s) = true ->
  heads (tails_n 2 (passes tablename)) s =
    mkSchema (layer2_types toCamelCase dbSchema dbDriver tablename (types s))
      (layer2_inputs toCamelCase tablename (inputs s)).
Proof.
  intros Ht Hf. destruct (In_tables_get dbSchema tablename Ht) as [t Hg].
  unfold heads, Compiler.passes, tails_n, tails.
  unfold mapDbTableToGraphqlType, mapDbTableToGraphqlQuery,
    mapDbTableToGraphqlFirstOf, mapDbTableToGraphqlMutation,
    mapDbTableToGraphqlInput.
  cbn [map tl filter fold_left].
  rewrite (type_relations_eq toCamelCase dbSchema dbDriver tablename t)
    by (first [ exact Hg | exact Hf
              | intros c Hc; now apply (described tablename c) ]).
  unfold seg_skip, seg_pure. cbn [fst]. now rewrite ensure_input_eq.
Qed.

Lemma layer3_eq (tablename : string) (s : Schema) :
  has "Mutation" (types s) = true ->
  heads (tails_n 3 (passes tablename)) s =
    mkSchema (layer3_types toCamelCase tablename (types s))
      (layer3_inputs toCamelCase dbSchema dbDriver tablename (inputs s)).
Proof.
  intros Hm.
  unfold heads, Compiler.passes, tails_n, tails.
  unfold mapDbTableToGraphqlType, mapDbTableToGraphqlQuery,
    mapDbTableToGraphqlFirstOf, mapDbTableToGraphqlMutation,
    mapDbTableToGraphqlInput.
  cbn [map tl filter fold_left].
  rewrite set_type_field_eq by assumption. cbn [fst].
  rewrite input_scalars_eq. reflexivity.
Qed.

Lemma layer4_eq (tablename : string) (s : Schema) :
  heads (tails_n 4 (passes tablename)) s = s.
Proof. reflexivity. Qed.

(** ** The layers on a schema whose types are in table order *)

Lemma NoDup_app_disjoint {A} (l1 l2 : list A) (a : A) :
  NoDup (l1 ++ l2) -> In a l1 -> ~ In a l2.
Proof.
  induction l1 as [|x l1 IH]; cbn; [tauto|].
  intros H [<- | Ha] Hin.
  - inversion H as [|? ? Hx _]; subst. apply Hx. apply in_or_app. now right.
  - inversion H; subst. now apply IH.
Qed.

Lemma fold_left_map {A B C} (f : A -> B) (g : C -> B -> C) (l : list A) :
  forall c, fold_left g (map f l) c = fold_left (fun c x => g c (f x)) l c.
Proof. induction l as [|x l IH]; intros c; [reflexivity | apply IH]. Qed.

Section Content.
Hypothesis distinct : names_distinct toCamelCase dbSchema dbDriver.

Local Abbreviation camel := toCamelCase.
Local Abbreviation page_name := (fun x => (toCamelCase x ++ "Page")%string).
Local Abbreviation input_name := (getInputName toCamelCase).
Local Abbreviation scalar_fields := (scalar_fields dbSchema dbDriver).
Local Abbreviation foreign_fields :=
  (foreign_fields toCamelCase dbSchema dbDriver).
Local Abbreviation reverse_fields := (reverse_fields toCamelCase dbSchema).
Local Abbreviation expected_fields :=
  (expected_fields toCamelCase dbSchema dbDriver).
Local Abbreviation query_entries := (query_entries toCamelCase).
Local Abbreviation mutation_entry := (mutation_entry toCamelCase).
Local Abbreviation page_entry := (page_entry toCamelCase).
Local Abbreviation input_fields := (input_fields dbSchema dbDriver).
Local Abbreviation special_keys := (special_keys dbSchema).
Local Abbreviation tail1 := (tail1 toCamelCase).

Lemma expected_type_keys :
  map fst (expected_types toCamelCase dbSchema dbDriver)
  = map camel tables ++ special_keys ++ map page_name tables.
Proof.
  unfold expected_types, Compiler.special_keys.
  rewrite !map_app, zone_keys.
  f_equal. f_equal.
  - now destruct tables.
  - rewrite map_map. reflexivity.
Qed.

Lemma type_keys_distinct :
  NoDup (map camel tables ++ special_keys ++ map page_name tables).
Proof. rewrite <- expected_type_keys. exact (proj1 distinct). Qed.

Lemma camel_distinct : NoDup (map camel tables).
Proof. exact (NoDup_app_remove_r _ _ type_keys_distinct). Qed.

Lemma special_keys_listed (tablename : string) :
  In tablename tables -> special_keys = ["Query"; "Mutation"].
Proof.
  unfold Compiler.special_keys. destruct tables; [intros [] | reflexivity].
Qed.

Lemma Query_out (tablename : string) :
  In tablename tables -> ~ In "Query" (map camel tables).
Proof.
  intros Ht Hin.
  apply (NoDup_app_disjoint _ _ "Query" type_keys_distinct Hin).
  rewrite (special_keys_listed tablename Ht). cbn. auto.
Qed.

Lemma Mutation_out (tablename : string) :
  In tablename tables -> ~ In "Mutation" (map camel tables).
Proof.
  intros Ht Hin.
  apply (NoDup_app_disjoint _ _ "Mutation" type_keys_distinct Hin).
  rewrite (special_keys_listed tablename Ht). cbn. auto.
Qed.

Lemma page_out (tablename : string) :
  In tablename tables -> ~ In (page_name tablename) (map camel tables).
Proof.
  intros Ht Hin.
  apply (NoDup_app_disjoint _ _ _ type_keys_distinct Hin).
  apply in_or_app. right.
  apply (in_map page_name). exact Ht.
Qed.

(** *** The types, layer by layer *)

Lemma layer1_step (tablename : string) (val : string -> obj FieldDef)
    (tail : obj (obj FieldDef)) :
  In tablename tables ->
  layer1_types toCamelCase dbSchema dbDriver tablename
    (zone camel val tables ++ tail)
  = zone camel
      (upd val tablename (set_all (scalar_fields tablename) (val tablename)))
      tables
    ++ tail1 tablename tail.
Proof.
  intros Ht. unfold layer1_types, Compiler.tail1.
  rewrite (set_fields_present (camel tablename) (scalar_fields tablename)
             (zone camel val tables ++ tail) (val tablename))
    by (apply zone_get_in; [exact camel_distinct | exact Ht]).
  rewrite zone_set_in by (first [exact camel_distinct | exact Ht]).
  assert (HQ : forall val' : string -> obj FieldDef,
             ~ In "Query" (map fst (zone camel val' tables))).
  { intros val'. rewrite zone_keys. exact (Query_out tablename Ht). }
  assert (HM : forall val' : string -> obj FieldDef,
             ~ In "Mutation" (map fst (zone camel val' tables))).
  { intros val'. rewrite zone_keys. exact (Mutation_out tablename Ht). }
  rewrite ensure_key_app_r by apply HQ.
  rewrite set_fields_app_r by apply HQ.
  now rewrite ensure_key_app_r by apply HM.
Qed.

Lemma layer2_step (tablename : string) (val : string -> obj FieldDef)
    (tail : obj (obj FieldDef)) :
  In tablename tables ->
  layer2_types toCamelCase dbSchema dbDriver tablename
    (zone camel val tables ++ tail)
  = zone camel
      (upd val tablename
         (set_all (foreign_fields tablename ++ reverse_fields tablename)
            (val tablename))) tables
    ++ set (page_name tablename) (page_fields (camel tablename)) tail.
Proof.
  intros Ht. unfold layer2_types.
  rewrite (set_fields_present (camel tablename)
             (foreign_fields tablename ++ reverse_fields tablename)
             (zone camel val tables ++ tail) (val tablename))
    by (apply zone_get_in; [exact camel_distinct | exact Ht]).
  rewrite zone_set_in by (first [exact camel_distinct | exact Ht]).
  apply set_app_r. rewrite zone_keys. exact (page_out tablename Ht).
Qed.

Lemma layer3_step (tablename : string) (val : string -> obj FieldDef)
    (tail : obj (obj FieldDef)) :
  In tablename tables ->
  layer3_types toCamelCase tablename (zone camel val tables ++ tail)
  = zone camel (upd val tablename (val tablename)) tables
    ++ set_fields "Mutation" [mutation_entry tablename] tail.
Proof.
  intros Ht. unfold layer3_types.
  rewrite (zone_upd_same camel tables).
  apply set_fields_app_r. rewrite zone_keys.
  exact (Mutation_out tablename Ht).
Qed.

(** [Query] and [Mutation] after the second layer *)
Lemma tail1_first (tablename : string) :
  tail1 tablename []
  = [("Query", set_all (query_entries tablename) []); ("Mutation", [])].
Proof. reflexivity. Qed.

Lemma tail1_next (tablename : string) (q : obj FieldDef) :
  tail1 tablename [("Query", q); ("Mutation", [])]
  = [("Query", set_all (query_entries tablename) q); ("Mutation", [])].
Proof. reflexivity. Qed.

Lemma fold_tail1_next (l : list string) :
  forall q,
    fold_left (fun t x => tail1 x t) l [("Query", q); ("Mutation", [])]
    = [("Query", set_all (flat_map query_entries l) q); ("Mutation", [])].
Proof.
  induction l as [|x l IH]; intros q; [reflexivity|].
  cbn [fold_left flat_map]. rewrite tail1_next, IH.
  now rewrite set_all_app.
Qed.

Lemma fold_tail1 (l : list string) :
  fold_left (fun t x => tail1 x t) l []
  = match l with
    | [] => []
    | _ => [("Query", set_all (flat_map query_entries l) []);
            ("Mutation", [])]
    end.
Proof.
  destruct l as [|x l]; [reflexivity|].
  cbn [fold_left flat_map]. rewrite tail1_first, fold_tail1_next.
  now rewrite set_all_app.
Qed.

(** The page types after the third layer *)
Lemma fold_pages (l : list string) (tail : obj (obj FieldDef)) :
  NoDup (map fst tail ++ map page_name l) ->
  fold_left (fun t x => set (page_name x) (page_fields (camel x)) t) l tail
  = tail ++ map page_entry l.
Proof.
  intros H.
  rewrite <- (set_all_fresh (map page_entry l) tail).
  - unfold set_all. now rewrite fold_left_map.
  - now rewrite map_map.
Qed.

(** [Mutation] after the fourth layer *)
Lemma fold_mutation (l : list string) (q : obj FieldDef)
    (pages : obj (obj FieldDef)) :
  forall m,
    fold_left (fun t x => set_fields "Mutation" [mutation_entry x] t) l
      ([("Query", q); ("Mutation", m)] ++ pages)
    = [("Query", q); ("Mutation", set_all (map mutation_entry l) m)]
      ++ pages.
Proof.
  induction l as [|x l IH]; intros m; [reflexivity|].
  cbn [fold_left map].
  change (set_fields "Mutation" [mutation_entry x]
            ([("Query", q); ("Mutation", m)] ++ pages))
    with ([("Query", q);
           ("Mutation", set (fst (mutation_entry x)) (snd (mutation_entry x))
                          m)] ++ pages).
  rewrite IH. reflexivity.
Qed.

Lemma fold_tail1_listed (l : list string) (x : string) :
  In x l ->
  fold_left (fun t x => tail1 x t) l []
  = [("Query", set_all (flat_map query_entries l) []); ("Mutation", [])].
Proof. intros H. rewrite fold_tail1. destruct l; [destruct H | reflexivity]. Qed.

(** *** Distinct names give the fields in order *)

Lemma In_query_names (l : list string) (k : string) :
  In k (map fst (flat_map query_entries l)) ->
  exists x, In x l /\
    (k = (camel x ++ "GetPage")%string \/ k = (camel x ++ "GetFirst")%string).
Proof.
  induction l as [|x l IH]; cbn; [tauto|].
  intros [<- | [<- | H]].
  - exists x. auto.
  - exists x. auto.
  - destruct (IH H) as (y & Hy & Hk). exists y. auto.
Qed.

Lemma query_names_distinct (l : list string) :
  NoDup (map camel l) -> NoDup (map fst (flat_map query_entries l)).
Proof.
  induction l as [|x l IH]; intros H; [constructor|].
  cbn [map] in H. inversion H as [|? ? Hx Hl]; subst.
  cbn [flat_map Compiler.query_entries app map fst].
  constructor; [|constructor; [|now apply IH]].
  - intros [E | Hin].
    + symmetry in E. now apply NamingFacts.GetPage_is_not_GetFirst in E.
    + apply In_query_names in Hin. destruct Hin as (y & Hy & [E | E]).
      * apply NamingFacts.append_inj_r in E. apply Hx. rewrite E.
        now apply in_map.
      * now apply NamingFacts.GetPage_is_not_GetFirst in E.
  - intros Hin. apply In_query_names in Hin.
    destruct Hin as (y & Hy & [E | E]).
    + symmetry in E. now apply NamingFacts.GetPage_is_not_GetFirst in E.
    + apply NamingFacts.append_inj_r in E. apply Hx. rewrite E.
      now apply in_map.
Qed.

Lemma set_all_distinct {V} (kvs : obj V) :
  NoDup (map fst kvs) -> set_all kvs [] = kvs.
Proof. intros H. now rewrite set_all_fresh. Qed.

Lemma query_fields_eq :
  set_all (flat_map query_entries tables) []
  = query_fields toCamelCase dbSchema.
Proof.
  apply set_all_distinct. apply query_names_distinct. exact camel_distinct.
Qed.

Lemma mutation_fields_eq :
  set_all (map mutation_entry tables) []
  = mutation_fields toCamelCase dbSchema.
Proof.
  apply set_all_distinct. unfold mutation_fields. rewrite map_map.
  exact (NamingFacts.NoDup_map_suffix camel "PutItem" tables camel_distinct).
Qed.

Lemma input_names_distinct : NoDup (map input_name tables).
Proof.
  exact (NamingFacts.NoDup_map_suffix camel "Input" tables camel_distinct).
Qed.

Lemma fields_distinct (tablename : string) :
  In tablename tables -> NoDup (map fst (expected_fields tablename)).
Proof. exact (proj2 distinct tablename). Qed.

Lemma expected_fields_eq (tablename : string) :
  In tablename tables ->
  set_all (foreign_fields tablename ++ reverse_fields tablename)
    (set_all (scalar_fields tablename) [])
  = expected_fields tablename.
Proof.
  intros Ht. pose proof (fields_distinct tablename Ht) as H.
  unfold Compiler.expected_fields in *. rewrite map_app in H.
  rewrite set_all_distinct by exact (NoDup_app_remove_r _ _ H).
  rewrite set_all_fresh; [reflexivity | exact H].
Qed.

Lemma input_keys (tablename : string) :
  map fst (input_fields tablename) = map fst (scalar_fields tablename).
Proof.
  unfold Compiler.input_fields, Compiler.scalar_fields.
  induction (getTableColumnsFromSchema dbDriver tablename) as [|c l IH];
    [reflexivity|].
  cbn [flat_map]. rewrite !map_app, IH. f_equal.
  unfold input_entry, scalar_entry.
  now destruct (column_type dbSchema dbDriver tablename c).
Qed.

Lemma input_fields_eq (tablename : string) :
  In tablename tables ->
  set_all (input_fields tablename) [] = input_fields tablename.
Proof.
  intros Ht. apply set_all_distinct. rewrite input_keys.
  pose proof (fields_distinct tablename Ht) as H.
  unfold Compiler.expected_fields in H. rewrite map_app in H.
  exact (NoDup_app_remove_r _ _ H).
Qed.

Lemma layer3_inputs_step (tablename : string) (val : string -> obj string)
    (tail : obj (obj string)) :
  In tablename tables ->
  layer3_inputs toCamelCase dbSchema dbDriver tablename
    (zone input_name val tables ++ tail)
  = zone input_name
      (upd val tablename (set_all (input_fields tablename) (val tablename)))
      tables
    ++ tail.
Proof.
  intros Ht. unfold layer3_inputs.
  rewrite (set_fields_present (input_name tablename)
             (input_fields tablename)
             (zone input_name val tables ++ tail) (val tablename))
    by (apply zone_get_in; [exact input_names_distinct | exact Ht]).
  now rewrite zone_set_in by (first [exact input_names_distinct | exact Ht]).
Qed.

Lemma fold_left_id {A B} (l : list B) (a : A) :
  fold_left (fun a _ => a) l a = a.
Proof. induction l; auto. Qed.

(** *** The schema after the five layers *)

Lemma layers_5 (q : list (list segment)) (s : Schema) :
  layers 5 q s =
    heads (tails_n 4 q)
      (heads (tails_n 3 q)
         (heads (tails_n 2 q) (heads (tails_n 1 q) (heads q s)))).
Proof. reflexivity. Qed.

Lemma layer0_all :
  fold_left (fun s x => heads (passes x) s) tables empty_schema
  = mkSchema (zone camel (fun _ => []) tables) [].
Proof.
  rewrite (fold_layer _ (fun x => ensure_key (camel x)) (fun _ ins => ins)
             (fun _ => True)); auto.
  - cbn [types inputs empty_schema]. rewrite fold_left_id.
    rewrite fold_ensure_key; [reflexivity|]. exact camel_distinct.
  - intros x s _ _. split; [apply layer0_eq | exact I].
Qed.

Lemma layer1_all (x0 : string) :
  In x0 tables ->
  fold_left (fun s x => heads (tails_n 1 (passes x)) s) tables
    (mkSchema (zone camel (fun _ => []) tables) [])
  = mkSchema
      (zone camel (fun x => set_all (scalar_fields x) []) tables
       ++ [("Query", query_fields toCamelCase dbSchema); ("Mutation", [])])
      [].
Proof.
  intros H0.
  rewrite (fold_layer _ (layer1_types toCamelCase dbSchema dbDriver)
             (fun _ ins => ins) (fun _ => True)); auto.
  - cbn [types inputs]. rewrite fold_left_id. f_equal.
    rewrite <- (app_nil_r (zone camel (fun _ => []) tables)).
    rewrite (fold_zone_all camel tables camel_distinct
               (fun x fs => set_all (scalar_fields x) fs) tail1).
    + f_equal. etransitivity; [exact (fold_tail1_listed tables x0 H0)|].
      now rewrite query_fields_eq.
    + intros x val tail Hx. now apply layer1_step.
  - intros x s _ _. split; [apply layer1_eq | exact I].
Qed.

Lemma layer2_all (x0 : string) (val : string -> obj FieldDef)
    (tail : obj (obj FieldDef)) :
  In x0 tables ->
  NoDup (map fst tail ++ map page_name tables) ->
  fold_left (fun s x => heads (tails_n 2 (passes x)) s) tables
    (mkSchema (zone camel val tables ++ tail) [])
  = mkSchema
      (zone camel
         (fun x => set_all (foreign_fields x ++ reverse_fields x) (val x))
         tables
       ++ tail ++ map page_entry tables)
      (zone input_name (fun _ => []) tables).
Proof.
  intros H0 Hfresh.
  rewrite (fold_layer _ (layer2_types toCamelCase dbSchema dbDriver)
             (layer2_inputs toCamelCase)
             (fun s => forall x, In x tables ->
                                 has (camel x) (types s) = true)).
  - cbn [types inputs]. f_equal.
    + rewrite (fold_zone_all camel tables camel_distinct
                 (fun x fs => set_all (foreign_fields x ++ reverse_fields x)
                                fs)
                 (fun x t => set (page_name x) (page_fields (camel x)) t)).
      * now rewrite fold_pages.
      * intros x val' tail' Hx. now apply layer2_step.
    + unfold layer2_inputs. rewrite fold_ensure_key; [reflexivity|].
      exact input_names_distinct.
  - intros x s Hx HP. split; [apply layer2_eq; auto|].
    intros y Hy. rewrite layer2_eq by auto. cbn [types].
    unfold layer2_types. rewrite has_set, has_set_fields, (HP y Hy).
    apply orb_true_r.
  - intros x Hx. cbn [types]. unfold has.
    now rewrite (zone_get_in camel tables camel_distinct).
Qed.

Lemma layer3_all (val : string -> obj FieldDef) (q : obj FieldDef)
    (pages : obj (obj FieldDef)) (ival : string -> obj string) :
  (exists x0, In x0 tables) ->
  fold_left (fun s x => heads (tails_n 3 (passes x)) s) tables
    (mkSchema (zone camel val tables
               ++ [("Query", q); ("Mutation", [])] ++ pages)
       (zone input_name ival tables))
  = mkSchema
      (zone camel val tables
       ++ [("Query", q);
           ("Mutation", mutation_fields toCamelCase dbSchema)] ++ pages)
      (zone input_name (fun x => set_all (input_fields x) (ival x)) tables).
Proof.
  intros [x0 H0].
  assert (HM : forall (val' : string -> obj FieldDef) m,
             has "Mutation"
               (zone camel val' tables
                ++ [("Query", q); ("Mutation", m)] ++ pages) = true).
  { intros val' m. rewrite has_app_r; [reflexivity|].
    rewrite zone_keys. exact (Mutation_out x0 H0). }
  rewrite (fold_layer _ (layer3_types toCamelCase)
             (layer3_inputs toCamelCase dbSchema dbDriver)
             (fun s => has "Mutation" (types s) = true)).
  - cbn [types inputs]. f_equal.
    + rewrite (fold_zone_all camel tables camel_distinct
                 (fun _ fs => fs)
                 (fun x t => set_fields "Mutation" [mutation_entry x] t)).
      * rewrite fold_mutation. now rewrite mutation_fields_eq.
      * intros x val' tail' Hx. now apply layer3_step.
    + rewrite <- (app_nil_r (zone input_name ival tables)).
      rewrite (fold_zone_all input_name tables input_names_distinct
                 (fun x fs => set_all (input_fields x) fs) (fun _ t => t)).
      * rewrite fold_left_id. now rewrite app_nil_r.
      * intros x val' tail' Hx. now apply layer3_inputs_step.
  - intros x s Hx HP. split; [now apply layer3_eq|].
    rewrite layer3_eq by assumption. cbn [types]. unfold layer3_types.
    now rewrite has_set_fields.
  - cbn [types]. apply HM.
Qed.

(** The schema after a full build, when there is a table *)
Lemma layers_expected (x0 : string) :
  In x0 tables ->
  layers 5 (flat_map passes tables) empty_schema
  = expected_schema toCamelCase dbSchema dbDriver.
Proof.
  intros H0. rewrite layers_5. rewrite !tails_n_flat_map, !heads_flat_map.
  rewrite layer0_all, (layer1_all x0 H0).
  rewrite (layer2_all x0) by
    (first [ exact H0
           | cbn [map fst]; rewrite <- (special_keys_listed x0 H0);
             exact (NoDup_app_remove_l _ _ type_keys_distinct) ]).
  rewrite (layer3_all _ _ (map page_entry tables))
    by (exists x0; exact H0).
  rewrite (fold_layer _ (fun _ tys => tys) (fun _ ins => ins)
             (fun _ => True)); auto.
  - cbn [types inputs]. rewrite !fold_left_id.
    unfold expected_schema, expected_types, expected_inputs. f_equal.
    + f_equal.
      * apply zone_ext. intros x Hx. now apply expected_fields_eq.
      * destruct tables; [destruct H0 | reflexivity].
    + apply zone_ext. intros x Hx. now apply input_fields_eq.
  - intros x s _ _. split; [|exact I]. rewrite layer4_eq.
    now rewrite schema_eta.
Qed.

Lemma layers_expected_empty :
  tables = [] ->
  layers 5 (flat_map passes tables) empty_schema
  = expected_schema toCamelCase dbSchema dbDriver.
Proof.
  intros E. unfold expected_schema, expected_types, expected_inputs.
  rewrite E. reflexivity.
Qed.

(** The schema after a full build by [buildSchema]; the queue has
    emptied and no pass has thrown *)
Lemma settle_expected :
  settle (buildSchema toCamelCase dbSchema dbDriver empty_schema)
  = mkRun (expected_schema toCamelCase dbSchema dbDriver) [] [].
Proof.
  rewrite settle_buildSchema by exact described. f_equal.
  destruct tables as [|x0 l] eqn:E.
  - rewrite <- E. now apply layers_expected_empty.
  - rewrite <- E. apply (layers_expected x0). rewrite E. now left.
Qed.

(** *** The text *)

Hypothesis plain : names_plain toCamelCase dbSchema dbDriver.

Lemma type_keys_plain :
  Forall (fun k => is_plain k = true)
    (map fst (expected_types toCamelCase dbSchema dbDriver)).
Proof.
  rewrite expected_type_keys. apply Forall_app. split; [|apply Forall_app; split].
  - apply Forall_forall. intros k Hk. apply in_map_iff in Hk.
    destruct Hk as (x & <- & Hx). exact (proj1 (plain x Hx)).
  - unfold Compiler.special_keys. destruct tables; repeat constructor.
  - apply Forall_forall. intros k Hk. apply in_map_iff in Hk.
    destruct Hk as (x & <- & Hx). now apply NamingFacts.plain_suffix.
Qed.

Lemma query_names_plain (l : list string) :
  Forall (fun k => is_plain k = true) (map fst (flat_map query_entries l)).
Proof.
  apply Forall_forall. intros k Hk. apply In_query_names in Hk.
  destruct Hk as (x & _ & [-> | ->]); now apply NamingFacts.plain_suffix.
Qed.

(** The fields of every type are distinct and none is an array index *)
Lemma type_fields_ok (entry : string * obj FieldDef) :
  In entry (expected_types toCamelCase dbSchema dbDriver) ->
  NoDup (map fst (snd entry)) /\
  Forall (fun k => is_plain k = true) (map fst (snd entry)).
Proof.
  unfold expected_types. rewrite !in_app_iff. intros [H | [H | H]].
  - unfold zone in H. apply in_map_iff in H. destruct H as (x & <- & Hx).
    cbn [snd]. split; [now apply fields_distinct | exact (proj2 (plain x Hx))].
  - destruct tables as [|x0 l] eqn:E; [destruct H|]. clear E.
    destruct H as [<- | [<- | []]]; cbn [snd].
    + split; [|apply query_names_plain].
      apply query_names_distinct. exact camel_distinct.
    + unfold mutation_fields. rewrite map_map. split.
      * exact (NamingFacts.NoDup_map_suffix camel "PutItem" tables
                 camel_distinct).
      * apply Forall_forall. intros k Hk. apply in_map_iff in Hk.
        destruct Hk as (x & <- & Hx). now apply NamingFacts.plain_suffix.
  - apply in_map_iff in H. destruct H as (x & <- & Hx). cbn [snd].
    unfold page_fields. cbn [map fst]. split.
    + repeat constructor; cbn; intuition discriminate.
    + repeat constructor.
Qed.

Lemma input_fields_ok (entry : string * obj string) :
  In entry (expected_inputs toCamelCase dbSchema dbDriver) ->
  NoDup (map fst (snd entry)) /\
  Forall (fun k => is_plain k = true) (map fst (snd entry)).
Proof.
  unfold expected_inputs, zone. intros H. apply in_map_iff in H.
  destruct H as (x & <- & Hx). cbn [snd]. rewrite input_keys.
  pose proof (fields_distinct x Hx) as Hd.
  pose proof (proj2 (plain x Hx)) as Hp.
  unfold Compiler.expected_fields in *. rewrite map_app in Hd, Hp.
  split; [exact (NoDup_app_remove_r _ _ Hd)|].
  apply Forall_app in Hp. tauto.
Qed.

Lemma input_keys_ok :
  NoDup (map fst (expected_inputs toCamelCase dbSchema dbDriver)) /\
  Forall (fun k => is_plain k = true)
    (map fst (expected_inputs toCamelCase dbSchema dbDriver)).
Proof.
  unfold expected_inputs. rewrite zone_keys. split.
  - exact input_names_distinct.
  - apply Forall_forall. intros k Hk. apply in_map_iff in Hk.
    destruct Hk as (x & <- & Hx). unfold getInputName.
    now apply NamingFacts.plain_suffix.
Qed.

(** The blocks of the expected schema are rendered entry by entry *)
Lemma sdl_items_expected :
  sdl_items (expected_schema toCamelCase dbSchema dbDriver)
  = expected_items toCamelCase dbSchema dbDriver.
Proof.
  unfold sdl_items, expected_items, expected_schema. cbn [types inputs].
  f_equal.
  - rewrite (entries_plain type_block)
      by (first [ exact (proj1 distinct) | exact type_keys_plain ]).
    apply map_ext_in. intros entry He.
    destruct (type_fields_ok entry He) as [Hd Hp].
    unfold type_block, expected_type_block.
    now rewrite (entries_plain (fun _ f => render_field f)).
  - destruct input_keys_ok as [Hd Hp].
    rewrite (entries_plain input_block) by assumption.
    apply map_ext_in. intros entry He.
    destruct (input_fields_ok entry He) as [Hd' Hp'].
    unfold input_block, expected_input_block.
    now rewrite (entries_plain
                   (fun key ty => ("  " ++ key ++ ": " ++ ty)%string)).
Qed.

Lemma getSDL_expected :
  fst (getSDL true EmptyString
         (expected_schema toCamelCase dbSchema dbDriver))
  = expected_sdl toCamelCase dbSchema dbDriver.
Proof.
  unfold getSDL, expected_sdl. cbn [String.eqb orb fst].
  now rewrite sdl_items_expected.
Qed.

End Content.

End WithDriver.
End LayerFacts.

Section OrderProperties.
Import Compiler ObjectFacts QueueFacts SegmentFacts BuildFacts.
Variable toCamelCase : string -> string.
Variable dbSchema : DbSchema.
Variable dbDriver : Driver.

(** C8, amended: in the text rendered after a full build by
    [buildSchema] (the build that does not await its passes), once the
    job queue has emptied, provided that the schema describes every
    enumerated column, none of them named [__proto__], that the
    generated names do not collide and that none is an array index: the blocks are the types of the tables in the
    order the tables are processed, then Query and Mutation, then the
    page types in table order, then the inputs in table order; the type
    of a table has its scalar fields in the order the driver enumerates
    the columns, then its foreign-relation fields, then its
    reverse-relation fields. No pass has thrown. *)
Theorem C8_rendered_order_of_full_build :
  columns_described dbSchema dbDriver ->
  names_distinct toCamelCase dbSchema dbDriver ->
  names_plain toCamelCase dbSchema dbDriver ->
  let run := settle (buildSchema toCamelCase dbSchema dbDriver empty_schema) in
  queue run = [] /\ rejected run = [] /\
  schema run = built toCamelCase dbSchema dbDriver /\
  built toCamelCase dbSchema dbDriver
    = expected_schema toCamelCase dbSchema dbDriver /\
  keys (types (schema run))
    = map toCamelCase (tables dbSchema) ++ special_keys dbSchema
      ++ map (fun x => (toCamelCase x ++ "Page")%string) (tables dbSchema) /\
  (forall tablename, In tablename (tables dbSchema) ->
     exists fields,
       get (toCamelCase tablename) (types (schema run)) = Some fields /\
       fields = scalar_fields dbSchema dbDriver tablename
                ++ foreign_fields toCamelCase dbSchema dbDriver tablename
                ++ reverse_fields toCamelCase dbSchema tablename /\
       keys fields = map fst fields) /\
  keys (inputs (schema run))
    = map (getInputName toCamelCase) (tables dbSchema) /\
  fst (getSDL true EmptyString (schema run))
    = expected_sdl toCamelCase dbSchema dbDriver.
Proof.
  intros Hd Hn Hp run.
  assert (E : run = mkRun (expected_schema toCamelCase dbSchema dbDriver)
                      [] []).
  { unfold run. now apply LayerFacts.settle_expected. }
  assert (B : built toCamelCase dbSchema dbDriver
              = expected_schema toCamelCase dbSchema dbDriver).
  { unfold built. fold run. now rewrite E. }
  rewrite E. cbn [queue rejected schema]. rewrite B.
  split; [reflexivity|]. split; [reflexivity|]. split; [reflexivity|].
  split; [reflexivity|]. split; [|split; [|split]].
  - unfold expected_schema. cbn [types]. unfold keys.
    rewrite order_keys_plain
      by (apply LayerFacts.type_keys_plain; assumption).
    apply LayerFacts.expected_type_keys.
  - intros tablename Ht.
    exists (expected_fields toCamelCase dbSchema dbDriver tablename).
    split; [|split; [reflexivity|]].
    + unfold expected_schema, expected_types. cbn [types].
      apply zone_get_in; [|exact Ht].
      apply (LayerFacts.camel_distinct toCamelCase dbSchema dbDriver).
      assumption.
    + unfold keys. apply order_keys_plain. exact (proj2 (Hp tablename Ht)).
  - unfold expected_schema. cbn [inputs]. unfold keys.
    assert (Hpl : Forall (fun k => is_plain k = true)
                    (map fst (expected_inputs toCamelCase dbSchema
                                dbDriver))).
    { apply LayerFacts.input_keys_ok. assumption. }
    rewrite order_keys_plain by exact Hpl.
    unfold expected_inputs. apply zone_keys.
  - now apply LayerFacts.getSDL_expected.
Qed.

End OrderProperties.

(* ================================================================== *)
(** * The builds of the examples *)
(* ================================================================== *)

Module ExampleFacts.
Import Compiler ObjectFacts.

Ltac described_columns :=
  let tablename := fresh "tablename" in
  let c := fresh "c" in
  let Ht := fresh "Ht" in
  let Hc := fresh "Hc" in
  intros tablename c Ht Hc; unfold tables in Ht; vm_compute in Ht;
  repeat (destruct Ht as [<- | Ht];
          [vm_compute in Hc;
           repeat (destruct Hc as [<- | Hc];
                   [split; [discriminate | eexists; reflexivity]|]);
           destruct Hc|]);
  destruct Ht.

Lemma readme_described :
  columns_described Example.dbSchema
    (Example.compilerDriver Example.dbSchema).
Proof. described_columns. Qed.

Lemma json_described :
  columns_described Example.jsonSchema
    (Example.compilerDriver Example.jsonSchema).
Proof. described_columns. Qed.

Lemma readme_distinct :
  names_distinct Example.toCamelCase Example.dbSchema
    (Example.compilerDriver Example.dbSchema).
Proof.
  split.
  - apply distinct_NoDup. reflexivity.
  - intros tablename Ht. unfold tables in Ht. vm_compute in Ht.
    destruct Ht as [<- | [<- | []]]; apply distinct_NoDup; reflexivity.
Qed.

Lemma readme_plain :
  names_plain Example.toCamelCase Example.dbSchema
    (Example.compilerDriver Example.dbSchema).
Proof.
  intros tablename Ht. unfold tables in Ht. vm_compute in Ht.
  destruct Ht as [<- | [<- | []]];
    (split; [reflexivity | apply Forall_forall; intros k Hk;
                           vm_compute in Hk;
                           repeat (destruct Hk as [<- | Hk]; [reflexivity|]);
                           destruct Hk]).
Qed.

(** With every pass awaited, the page type of a table comes before the
    type of the next table *)
Example async_buildSchema_order :
  map fst
    (types (fst (async_buildSchema Example.toCamelCase Example.dbSchema
                   (Example.compilerDriver Example.dbSchema) empty_schema)))
  = ["Foo"; "FooPage"; "Query"; "Mutation"; "Bar"; "BarPage"].
Proof. reflexivity. Qed.

(** A field whose name is an array index is rendered first, whatever
    the place of its column *)
Example array_index_field_first :
  option_map keys
    (get "Odd"
       (types (built Example.toCamelCase Example.oddSchema
                 (Example.compilerDriver Example.oddSchema))))
  = Some ["7"; "id"].
Proof. reflexivity. Qed.

End ExampleFacts.

(** C8, as stated, fails: the table [users] has the columns [id], [posts]
    and [name] and a reverse relation from the table [posts]. The full
    build ends without an exception, and in the rendered block of the
    type [Users] the reverse-relation field [posts] comes before the
    scalar field [name]. *)
Lemma C8_counterexample :
  let driver := Example.compilerDriver Example.blogSchema in
  let run :=
    Compiler.settle
      (Compiler.buildSchema Example.toCamelCase Example.blogSchema driver
         Compiler.empty_schema) in
  let block :=
    ("type Users {" ++ Compiler.nl
     ++ "  id: Int" ++ Compiler.nl
     ++ "  posts(filter: String, pagination: String, where: Condition, "
     ++ "_debug: Boolean, _cache: Boolean): PostsPage" ++ Compiler.nl
     ++ "  name: Boolean" ++ Compiler.nl
     ++ "}")%string in
  Compiler.queue run = [] /\ Compiler.rejected run = [] /\
  Compiler.scalar_fields Example.blogSchema driver "users"
    = [("id", Compiler.mkField "id" (Compiler.Named "Int") (Some []));
       ("posts", Compiler.mkField "posts" (Compiler.Named "Int") (Some []));
       ("name",
        Compiler.mkField "name" (Compiler.Named "Boolean") (Some []))] /\
  Compiler.reverse_fields Example.toCamelCase Example.blogSchema "users"
    = [("posts",
        Compiler.mkField "posts" (Compiler.Named "PostsPage")
          (Some Compiler.query_params))] /\
  get "Users" (Compiler.types (Compiler.schema run))
    = Some [("id", Compiler.mkField "id" (Compiler.Named "Int") (Some []));
            ("posts",
             Compiler.mkField "posts" (Compiler.Named "PostsPage")
               (Some Compiler.query_params));
            ("name",
             Compiler.mkField "name" (Compiler.Named "Boolean") (Some []))] /\
  hd EmptyString (Compiler.sdl_items (Compiler.schema run)) = block.
Proof. repeat split; reflexivity. Qed.

Lemma C8_witness :
  let run :=
    Compiler.settle
      (Compiler.buildSchema Example.toCamelCase Example.dbSchema
         (Example.compilerDriver Example.dbSchema) Compiler.empty_schema) in
  keys (Compiler.types (Compiler.schema run))
    = ["Foo"; "Bar"; "Query"; "Mutation"; "FooPage"; "BarPage"] /\
  fst (Compiler.getSDL true EmptyString (Compiler.schema run))
    = Compiler.expected_sdl Example.toCamelCase Example.dbSchema
        (Example.compilerDriver Example.dbSchema).
Proof.
  destruct (C8_rendered_order_of_full_build Example.toCamelCase
              Example.dbSchema (Example.compilerDriver Example.dbSchema)
              ExampleFacts.readme_described ExampleFacts.readme_distinct
              ExampleFacts.readme_plain)
    as (_ & _ & _ & _ & Hkeys & _ & _ & Htext).
  split; [exact Hkeys | exact Htext].
Defined.

(* ================================================================== *)
(** * Separators, clauses and operators *)
(* ================================================================== *)

Module SplitFacts.
Import JsString Parser ParserFacts.

Lemma prefix_empty (s : string) : prefix EmptyString s = true.
Proof. now destruct s. Qed.

(** Cutting at a one-character separator: the pieces before an
    occurrence, then the pieces after it *)
Lemma split_go_char_app (c : ascii) (a b : string) :
  forall cur,
    split_go (String c EmptyString) 0 cur (a ++ String c b)
    = split_go (String c EmptyString) 0 cur a
      ++ split_go (String c EmptyString) 0 EmptyString b.
Proof.
  induction a as [|d a IH]; intros cur.
  - cbn [append split_go prefix]. destruct (ascii_dec c c); [|congruence].
    now rewrite prefix_empty.
  - cbn [append split_go prefix]. destruct (ascii_dec c d).
    + rewrite !prefix_empty. cbn [String.length Nat.sub]. rewrite IH.
      reflexivity.
    + apply IH.
Qed.

Lemma split_char_app (c : ascii) (a b : string) :
  split (String c EmptyString) (a ++ String c b)
  = split (String c EmptyString) a ++ split (String c EmptyString) b.
Proof. apply split_go_char_app. Qed.

(** A text that ends with the separator has an empty last piece *)
Lemma split_char_snoc (c : ascii) (a : string) :
  split (String c EmptyString) (a ++ String c EmptyString)
  = split (String c EmptyString) a ++ [EmptyString].
Proof. apply split_char_app. Qed.

(** Every operator begins with a character that is an operator: where
    no operator matches, none matches whatever follows the first
    character *)
Lemma match_here_start (c : ascii) (s t : string) :
  match_here (String c s) = None -> match_here (String c t) = None.
Proof.
  intros H. rewrite match_here_None in *. intros op Hop.
  assert (Hc : forall x : ascii,
             In (String x EmptyString) operators ->
             (if ascii_dec x c then true else false) = false).
  { intros x Hx. specialize (H _ Hx). cbn [prefix] in H.
    destruct (ascii_dec x c); [|reflexivity].
    now rewrite prefix_empty in H. }
  unfold operators in Hop. cbn [In] in Hop.
  repeat (destruct Hop as [<- | Hop];
          [ cbn [prefix];
            match goal with
            | |- (if ascii_dec ?x c then _ else _) = false =>
                specialize (Hc x ltac:(unfold operators; cbn [In]; tauto));
                destruct (ascii_dec x c); [discriminate | reflexivity]
            end |]).
  destruct Hop.
Qed.

(** The match in a text that begins with an operator-free part *)
Lemma exec_app (a b : string) :
  exec a = None ->
  exec (a ++ b) =
    match exec b with
    | Some (i, op) => Some (String.length a + i, op)
    | None => None
    end.
Proof.
  induction a as [|c a IH]; intros H.
  - cbn [append String.length Nat.add]. now destruct (exec b) as [[i op]|].
  - cbn [exec] in H. destruct (match_here (String c a)) eqn:E; [discriminate|].
    destruct (exec a) as [[i op]|] eqn:E'; [discriminate|].
    cbn [append exec]. rewrite (match_here_start c a (a ++ b) E).
    rewrite IH by reflexivity. now destruct (exec b) as [[i op]|].
Qed.

(** A text without an operator has no occurrence of a given operator *)
Lemma exec_None_prefix (s op : string) :
  exec s = None -> In op operators ->
  forall j, prefix op (drop j s) = false.
Proof.
  intros H Hop j. pose proof (exec_None s H j) as Hj.
  rewrite match_here_None in Hj. auto.
Qed.

(** The clause has at least two pieces when it is cut at the operator
    found in it *)
Lemma split_operator (clause : string) (i : nat) (op : string) :
  exec clause = Some (i, op) ->
  exists first rest,
    split op clause = first :: rest /\ rest <> [] /\
    first = substring 0 i clause.
Proof.
  intros E. pose proof (exec_In _ _ _ E) as Hin.
  destruct (exec_Some _ _ _ E) as [Hhere Hbefore].
  exists (substring 0 i clause),
    (split op (drop (i + String.length op) clause)).
  split; [|split; [apply split_nonempty | reflexivity]].
  unfold split. rewrite (split_go_first op EmptyString clause i).
  - reflexivity.
  - intros ->. revert Hin. unfold operators. simpl. intuition discriminate.
  - apply find_some in Hhere. tauto.
  - intros j Hj. specialize (Hbefore j Hj).
    rewrite match_here_None in Hbefore. auto.
Qed.

(** The filter parser stops at the first clause without an operator and
    names it *)
Lemma filter_clauses_first (table : string) (before after : list string)
    (c : string) :
  forall conds,
    Forall (fun c => exec c <> None) before ->
    exec c = None ->
    each (filter_clause table) (before ++ c :: after) [(table, conds)] =
      Throw (Error ("Filter operation not suported in: " ++ c)%string).
Proof.
  induction before as [|b before IH]; intros conds Hb Hc.
  - cbn [app each]. unfold filter_clause. now rewrite Hc.
  - inversion Hb; subst. cbn [app each].
    rewrite filter_clause_ok by assumption. cbn [rbind]. now apply IH.
Qed.

(** With a table name that differs from its trimmed form the filter
    parser throws at its first clause *)
Lemma parseFilterExpression_untrimmed (expr table : string) :
  trim table <> table ->
  exists e, parseFilterExpression expr table = Throw e.
Proof.
  intros Ht. unfold parseFilterExpression. cbn [set].
  pose proof (split_nonempty ";" expr) as Hne.
  destruct (split ";" expr) as [|c cs]; [congruence|]. cbn [each].
  unfold filter_clause. destruct (exec c) as [[i op]|]; [|eexists; reflexivity].
  rewrite get_single_other by congruence. eexists. reflexivity.
Qed.

End SplitFacts.

(* ================================================================== *)
(** * The two parsers: what they accept and where they stop *)
(* ================================================================== *)

Section ParserEdges.
Import JsString Parser ParserFacts SplitFacts.

(** X1: parsePaginationExpression checks nothing. For a table name that
    is its own trimmed form and is not [__proto__] it returns, for every
    expression, the object whose single key is the table name, with one
    entry per [;]-separated
    clause, in clause order: the trimmed pieces of the clause cut at
    every [=]. An entry is never empty, its tokens are trimmed, and a
    clause without [=] gives the one-token entry of the trimmed clause. *)
Theorem parsePaginationExpression_checks_nothing
    (expression tablename : string) :
  trim tablename = tablename ->
  tablename <> "__proto__" ->
  parsePaginationExpression expression tablename =
    Ok [(tablename,
         map (fun clause => map trim (split "=" clause))
           (split ";" expression))] /\
  (forall clause,
      map trim (split "=" clause) <> [] /\
      Forall (fun token => trim token = token)
        (map trim (split "=" clause))) /\
  (forall clause,
      (forall j, prefix "=" (drop j clause) = false) ->
      map trim (split "=" clause) = [trim clause]).
Proof.
  intros Ht _. split; [|split].
  - exact (parsePaginationExpression_ok expression tablename Ht).
  - intros clause. split.
    + pose proof (split_nonempty "=" clause) as H.
      destruct (split "=" clause); [congruence | discriminate].
    + apply Forall_forall. intros token H. apply in_map_iff in H.
      destruct H as (piece & <- & _). apply trim_idempotent.
  - intros clause H. unfold split. now rewrite split_go_none.
Qed.

(** The pagination of the README *)
Lemma parsePaginationExpression_checks_nothing_witness :
  parsePaginationExpression "limit=10;offset=2;order by=title desc" "foo" =
    Ok [("foo", [["limit"; "10"]; ["offset"; "2"];
                 ["order by"; "title desc"]])].
Proof.
  apply (parsePaginationExpression_checks_nothing
           "limit=10;offset=2;order by=title desc" "foo").
  - reflexivity.
  - discriminate.
Defined.

(** X2: parseFilterExpression stops at the first clause in which the
    regular expression finds no operator and throws the error that names
    this clause, whatever follows it: for a table name that is its own
    trimmed form and an expression whose clauses before the clause [c]
    all contain an operator, the result is
    [Error('Filter operation not suported in: ' + c)]. *)
Theorem parseFilterExpression_names_first_bad_clause
    (filterExpr tablename : string) (before after : list string)
    (c : string) :
  trim tablename = tablename ->
  split ";" filterExpr = before ++ c :: after ->
  Forall (fun clause => exec clause <> None) before ->
  exec c = None ->
  parseFilterExpression filterExpr tablename =
    Throw (Error ("Filter operation not suported in: " ++ c)%string).
Proof.
  intros Ht Hs Hb Hc. unfold parseFilterExpression.
  rewrite Ht, Hs. cbn [set]. now apply filter_clauses_first.
Qed.

Lemma parseFilterExpression_names_first_bad_clause_witness :
  parseFilterExpression "a=1;b;c" "t" =
    Throw (Error "Filter operation not suported in: b").
Proof.
  apply (parseFilterExpression_names_first_bad_clause "a=1;b;c" "t"
           ["a=1"] ["c"] "b").
  - reflexivity.
  - reflexivity.
  - repeat constructor. discriminate.
  - reflexivity.
Defined.

(** X3: a filter expression that is empty or that ends with [;] is never
    accepted, whatever the table name: its last clause is empty, and the
    filter parser throws. The pagination parser, given a trimmed table
    name that is not [__proto__], accepts the same texts and gives the
    empty clause the entry [['']]. *)
Theorem parseFilterExpression_rejects_trailing_separator
    (expr tablename : string) :
  parseFilterExpression EmptyString tablename =
    Throw (Error "Filter operation not suported in: ") /\
  (exists e, parseFilterExpression (expr ++ ";") tablename = Throw e) /\
  (trim tablename <> "__proto__" ->
   parsePaginationExpression EmptyString (trim tablename) =
     Ok [(trim tablename, [[EmptyString]])] /\
   parsePaginationExpression (expr ++ ";") (trim tablename) =
     Ok [(trim tablename,
          map (fun clause => map trim (split "=" clause)) (split ";" expr)
          ++ [[EmptyString]])]).
Proof.
  split; [reflexivity|]. split.
  - destruct (string_dec (trim tablename) tablename) as [Ht | Ht].
    + apply (parseFilterExpression_throws _ _ Ht).
      apply Exists_exists. exists EmptyString. split.
      * rewrite split_char_snoc. apply in_or_app. right. now left.
      * rewrite has_operator_exec. intros H. now apply H.
    + now apply parseFilterExpression_untrimmed.
  - intros _. rewrite !parsePaginationExpression_ok by apply trim_idempotent.
    split; [reflexivity|].
    rewrite split_char_snoc, map_app. reflexivity.
Qed.

Lemma parseFilterExpression_rejects_trailing_separator_witness :
  (exists e, parseFilterExpression "limit=10;" "foo" = Throw e) /\
  parsePaginationExpression "limit=10;" "foo" =
    Ok [("foo", [["limit"; "10"]; [EmptyString]])].
Proof.
  destruct (parseFilterExpression_rejects_trailing_separator "limit=10"
              "foo")
    as (_ & Hfilter & Hpage).
  split; [exact Hfilter|].
  refine (proj2 (Hpage _)). discriminate.
Defined.

(** X4: whenever parseFilterExpression returns, for a table name other
    than [__proto__], the result has the table name as its single key,
    with one condition per [;]-separated clause;
    every condition begins with one of the eight operators, which is
    followed by at least two operands, all of them trimmed. *)
Theorem parseFilterExpression_result_shape
    (filterExpr tablename : string) (filter : obj conditions) :
  tablename <> "__proto__" ->
  parseFilterExpression filterExpr tablename = Ok filter ->
  exists conds,
    filter = [(tablename, conds)] /\
    List.length conds = List.length (split ";" filterExpr) /\
    Forall (fun condition =>
      exists op operands,
        condition = op :: operands /\ In op operators /\
        2 <= List.length operands /\
        Forall (fun token => trim token = token) operands) conds.
Proof.
  intros _ H.
  destruct (string_dec (trim tablename) tablename) as [Ht | Ht];
    [|destruct (parseFilterExpression_untrimmed filterExpr tablename Ht);
      congruence].
  unfold parseFilterExpression in H. rewrite Ht in H. cbn [set] in H.
  destruct (clauses_dec (split ";" filterExpr)) as [Hall | Hex].
  - rewrite filter_clauses_ok in H by assumption. injection H as <-.
    exists (map condition_of (split ";" filterExpr)).
    split; [reflexivity|]. split; [apply length_map|].
    apply Forall_forall. intros condition Hin. apply in_map_iff in Hin.
    destruct Hin as (clause & <- & Hin).
    rewrite Forall_forall in Hall. specialize (Hall clause Hin).
    unfold condition_of.
    destruct (exec clause) as [[i op]|] eqn:E; [clear Hall | congruence].
    exists op, (map trim (split op clause)).
    split; [reflexivity|]. split; [exact (exec_In _ _ _ E)|].
    destruct (split_operator _ _ _ E) as (first & rest & -> & Hrest & _).
    split.
    + destruct rest; [congruence|]. cbn [map List.length]. lia.
    + apply Forall_forall. intros token Htok. apply in_map_iff in Htok.
      destruct Htok as (piece & <- & _). apply trim_idempotent.
  - destruct (filter_clauses_throw tablename _ [] Hex) as (c & _ & _ & He).
    pose proof (eq_trans (eq_sym H) He) as X. discriminate X.
Qed.

Lemma parseFilterExpression_result_shape_witness :
  exists conds,
    [("t", [[">="; "a"; "1"]; ["#"; "b"; "2,3"]])] = [("t", conds)] /\
    List.length conds = List.length (split ";" "a>=1;b#2,3") /\
    Forall (fun condition =>
      exists op operands,
        condition = op :: operands /\ In op operators /\
        2 <= List.length operands /\
        Forall (fun token => trim token = token) operands) conds.
Proof.
  apply (parseFilterExpression_result_shape "a>=1;b#2,3" "t").
  - discriminate.
  - reflexivity.
Defined.

End ParserEdges.

(* ================================================================== *)
(** * The common arguments of the fetches *)
(* ================================================================== *)

Module ArgsFacts.
Import JsString Parser ParserFacts ObjectFacts Resolver.

Lemma insert_sorted_In (x y : N * string) (l : list (N * string)) :
  y = x \/ In y l -> In y (insert_sorted x l).
Proof.
  induction l as [|z l IH]; simpl.
  - intros [-> | []]. now left.
  - destruct (fst x <=? fst z)%N; simpl.
    + intros [-> | H]; auto.
    + intros [-> | [-> | H]]; auto.
Qed.

Lemma index_keys_In (ks : list string) (n : N) (k : string) :
  In k ks -> array_index k = Some n -> In (n, k) (index_keys ks).
Proof.
  intros Hin Hk. induction ks as [|k' ks IH]; [destruct Hin|].
  cbn [index_keys]. destruct Hin as [-> | Hin].
  - rewrite Hk. apply insert_sorted_In. now left.
  - destruct (array_index k'); auto.
    apply insert_sorted_In. right. now apply IH.
Qed.

(** A key of the object is enumerated *)
Lemma keys_In {V} (o : obj V) (k : string) :
  In k (map fst o) -> In k (keys o).
Proof.
  intros H. unfold keys, order_keys. apply in_or_app.
  destruct (array_index k) as [n|] eqn:E.
  - left. apply in_map_iff. exists (n, k). split; [reflexivity|].
    now apply index_keys_In.
  - right. apply filter_In. split; [exact H|]. unfold is_plain. now rewrite E.
Qed.




End ArgsFacts.

Section ArgsProperties.
Import JsString Parser ParserFacts ObjectFacts Resolver ArgsFacts.





(** X7: with a filter and a pagination that are non-empty strings, a
    table name that is its own trimmed form and is not [__proto__], and
    an operator in every clause of the filter, parseArgsCommon returns the copy of [args] in
    which the two texts are replaced, under their keys, by their parsed
    forms: one condition per clause of the filter, one entry per clause
    of the pagination, both under the table name. *)
Theorem parseArgsCommon_parses_both
    (tablename f p : string) (args : obj value) :
  trim tablename = tablename ->
  tablename <> "__proto__" ->
  arg "filter" args = VStr f -> f <> EmptyString ->
  arg "pagination" args = VStr p -> p <> EmptyString ->
  Forall (fun clause => exec clause <> None) (split ";" f) ->
  exists localArgs,
    parseArgsCommon tablename args = Ok localArgs /\
    get "filter" localArgs =
      Some (value_of_conditions
              [(tablename, map condition_of (split ";" f))]) /\
    get "pagination" localArgs =
      Some (value_of_conditions
              [(tablename,
                map (fun clause => map trim (split "=" clause))
                  (split ";" p))]).
Proof.
  intros Ht _ Hf Hfne Hp Hpne Hall. unfold parseArgsCommon.
  rewrite Hf, Hp. cbn [truthy to_string].
  apply String.eqb_neq in Hfne, Hpne. rewrite Hfne, Hpne. cbn [negb].
  unfold parseFilterExpression. rewrite Ht. cbn [set].
  rewrite filter_clauses_ok by assumption. cbn [rbind app].
  rewrite parsePaginationExpression_ok by assumption. cbn [rbind].
  eexists. split; [reflexivity|]. split.
  - rewrite get_set_other by discriminate. apply get_set_same.
  - apply get_set_same.
Qed.

Lemma parseArgsCommon_parses_both_witness :
  exists localArgs,
    parseArgsCommon "foo"
      [("filter", VStr "a=1;b#2,3"); ("pagination", VStr "limit=2")]
    = Ok localArgs /\
    get "filter" localArgs =
      Some (value_of_conditions
              [("foo", map condition_of (split ";" "a=1;b#2,3"))]) /\
    get "pagination" localArgs =
      Some (value_of_conditions
              [("foo",
                map (fun clause => map trim (split "=" clause))
                  (split ";" "limit=2"))]).
Proof.
  apply (parseArgsCommon_parses_both "foo" "a=1;b#2,3" "limit=2").
  - reflexivity.
  - discriminate.
  - reflexivity.
  - discriminate.
  - reflexivity.
  - discriminate.
  - repeat constructor; discriminate.
Defined.

End ArgsProperties.

(* ================================================================== *)
(** * The API methods and the driver *)
(* ================================================================== *)

Section ApiProperties.
Import JsString Parser ObjectFacts Resolver ArgsFacts.
Variable D : Type.
Variable dbDriver : option (Driver.t D).

(** X8: GetPage never touches the context objects, and what it asks of
    the driver is, in this order, the total and then the page of the
    table, both on the parsed arguments. When parseArgsCommon throws,
    GetPage throws the same exception and the driver is not called; the
    page is asked for only after the total; and when GetPage returns,
    both calls have been made and the result is the object
    [{ total, tablename, items }] with the name of the table. *)
Theorem GetPage_driver_calls
    (tablename : string) (parent : value) (args : obj value)
    (context : option loc) (w : World D) :
  let out := GetPage D dbDriver tablename parent args context w in
  heap D (snd out) = heap D w /\
  (forall e, parseArgsCommon tablename args = Throw e -> out = (Throw e, w)) /\
  (forall parsed, parseArgsCommon tablename args = Ok parsed ->
     exists n,
       calls D (snd out) =
         calls D w ++ firstn n [CallPageTotal tablename parsed;
                                CallPage tablename parsed] /\
       forall v, fst out = Ok v ->
         n = 2 /\
         exists total items,
           v = VObj [("total", total); ("tablename", VStr tablename);
                     ("items", items)]).
Proof.
  cbv zeta. unfold GetPage, bind, lift, with_driver, driver_call, ret, throw.
  destruct (parseArgsCommon tablename args) as [parsed|e].
  - destruct dbDriver as [d|].
    + destruct (Driver.pageTotal d tablename parsed (store D w))
        as [[total|e1] d1] eqn:E1; cbn [heap store calls fst snd].
      * destruct (Driver.page d tablename parsed d1) as [[items|e2] d2] eqn:E2;
          cbn [heap store calls fst snd].
        -- split; [reflexivity|]. split; [discriminate|].
           intros parsed' [= <-]. exists 2. cbn [firstn].
           rewrite <- app_assoc. split; [reflexivity|].
           intros v [= <-]. split; [reflexivity|]. now exists total, items.
        -- split; [reflexivity|]. split; [discriminate|].
           intros parsed' [= <-]. exists 2. cbn [firstn].
           rewrite <- app_assoc. split; [reflexivity | discriminate].
      * split; [reflexivity|]. split; [discriminate|].
        intros parsed' [= <-]. exists 1. split; [reflexivity | discriminate].
    + split; [reflexivity|]. split; [discriminate|].
      intros parsed' [= <-]. exists 0. cbn [firstn snd fst].
      rewrite app_nil_r. split; [reflexivity | discriminate].
  - split; [reflexivity|]. split; [now intros e' [= <-]|]. discriminate.
Qed.

(** X9: putItem reads [data.input[pk]] before it stores anything. When
    [data] has no [input] (or a null one) it throws a TypeError and
    leaves the world as it was: the driver has not been called, with or
    without a driver. *)
Theorem putItem_requires_input
    (tablename : string) (parent : value) (data : obj value)
    (context : option loc) (w : World D) :
  arg "input" data = VUndefined \/ arg "input" data = VNull ->
  putItem D dbDriver tablename parent data context w = (Throw TypeError, w).
Proof.
  intros H. unfold putItem, with_driver, throw, bind, lift.
  destruct dbDriver as [d|]; [|reflexivity].
  now destruct H as [-> | ->].
Qed.


End ApiProperties.


Lemma putItem_requires_input_witness :
  Resolver.putItem nat (Some Example.resolverDriver) "foo" Resolver.VNull
    [("name", Resolver.VBool true)] None Example.world0
  = (Throw TypeError, Example.world0).
Proof.
  apply (putItem_requires_input nat (Some Example.resolverDriver)).
  left. reflexivity.
Defined.

(* ================================================================== *)
(** * The resolver map under registrations *)
(* ================================================================== *)

Module RegistryFacts.
Import ObjectFacts Resolver.

Section WithStore.
Variable D : Type.
Implicit Types (rs : Resolvers D) (f : resolverFn D).

Lemma register_eq (namespace name : string) f rs :
  register D namespace name f rs =
    set namespace
      (set name f (match get namespace rs with
                   | Some fields => fields
                   | None => []
                   end)) rs.
Proof.
  unfold register, ensure_namespace, has.
  destruct (get namespace rs) as [fields|] eqn:G.
  - now rewrite G.
  - rewrite get_set_same. apply set_set.
Qed.

Lemma register_at_same (namespace name : string) f rs :
  resolver_at D namespace name (register D namespace name f rs) = Some f.
Proof.
  rewrite register_eq. unfold resolver_at. now rewrite !get_set_same.
Qed.

Lemma register_at_other (namespace name namespace' name' : string) f rs :
  namespace' <> namespace \/ name' <> name ->
  resolver_at D namespace' name' (register D namespace name f rs)
  = resolver_at D namespace' name' rs.
Proof.
  intros H. rewrite register_eq. unfold resolver_at.
  destruct (string_dec namespace' namespace) as [-> | Hn].
  - rewrite get_set_same. destruct H as [H | H]; [congruence|].
    rewrite get_set_other by assumption.
    now destruct (get namespace rs).
  - now rewrite get_set_other.
Qed.

Lemma register_twice (namespace name : string) f f' rs :
  register D namespace name f' (register D namespace name f rs)
  = register D namespace name f' rs.
Proof.
  rewrite (register_eq namespace name f' (register D namespace name f rs)).
  rewrite (register_eq namespace name f rs), get_set_same.
  rewrite (register_eq namespace name f' rs).
  now rewrite !set_set.
Qed.

Lemma register_namespaces (namespace name : string) f rs :
  map fst (register D namespace name f rs) =
    if has namespace rs then map fst rs else map fst rs ++ [namespace].
Proof.
  rewrite register_eq. unfold has.
  destruct (get namespace rs) as [fields|] eqn:G.
  - apply keys_set_present.
    destruct (in_dec string_dec namespace (map fst rs)) as [Hin | Hn];
      [exact Hin|].
    apply get_None in Hn. congruence.
  - apply keys_set_fresh. now apply get_None.
Qed.

(** A registration unregisters nothing *)
Lemma register_keeps (namespace name namespace' name' : string) f rs :
  resolver_at D namespace' name' rs <> None ->
  resolver_at D namespace' name' (register D namespace name f rs) <> None.
Proof.
  intros H.
  destruct (string_dec namespace' namespace) as [-> | Hn];
    [destruct (string_dec name' name) as [-> | Hm]|].
  - rewrite register_at_same. discriminate.
  - rewrite register_at_other by (now right). exact H.
  - rewrite register_at_other by (now left). exact H.
Qed.

End WithStore.
End RegistryFacts.

Section RegistryProperties.
Import ObjectFacts Resolver ResolverFacts RegistryFacts.
Variable D : Type.
Variable dbDriver : option (Driver.t D).

(** X11: the last registration wins. After add(namespace, name, cb) the
    resolver map holds, under the namespace and the name, the function
    wrapped around [cb]; and a second add under the same namespace and
    name leaves the resolver map as if the first had not been made. *)
Theorem add_last_registration_wins
    (namespace name : string) (cb cb' : handler D) (rs : Resolvers D) :
  resolver_at D namespace name (add D dbDriver namespace name cb rs)
    = Some (wrapped D dbDriver namespace name cb) /\
  add D dbDriver namespace name cb' (add D dbDriver namespace name cb rs)
    = add D dbDriver namespace name cb' rs.
Proof.
  unfold add. split; [apply register_at_same | apply register_twice].
Qed.

(** X12: add changes one place of the resolver map, for a namespace
    that is not the name of a property every object inherits and a name
    other than [__proto__]. Every function registered under another
    namespace or another name is still the one registered before, and
    nothing is registered elsewhere; the namespaces keep their order, a
    new namespace going last, and so do the names of the namespace. *)
Theorem add_changes_one_place
    (namespace name : string) (cb : handler D) (rs : Resolvers D) :
  inherited namespace = false ->
  name <> "__proto__" ->
  (forall namespace' name',
      namespace' <> namespace \/ name' <> name ->
      resolver_at D namespace' name' (add D dbDriver namespace name cb rs)
      = resolver_at D namespace' name' rs) /\
  map fst (add D dbDriver namespace name cb rs) =
    (if has namespace rs then map fst rs else map fst rs ++ [namespace]) /\
  (forall fields fields',
      get namespace rs = Some fields ->
      get namespace (add D dbDriver namespace name cb rs) = Some fields' ->
      map fst fields' =
        if has name fields then map fst fields else map fst fields ++ [name]).
Proof.
  intros _ _. unfold add. split; [|split].
  - intros namespace' name' H. now apply register_at_other.
  - apply register_namespaces.
  - intros fields fields' G. rewrite register_eq, G, get_set_same.
    intros [= <-]. unfold has.
    destruct (get name fields) as [g|] eqn:Gn.
    + apply keys_set_present.
      destruct (in_dec string_dec name (map fst fields)) as [Hin | Hn];
        [exact Hin|].
      apply get_None in Hn. congruence.
    + apply keys_set_fresh. now apply get_None.
Qed.

(** X13: a resolver wrapped by add() that is called without a context
    creates one: a new object that holds [ioc] and nothing else. It is
    this object that the validator, the handler and the rejection
    receive; the objects that existed are not touched, and neither the
    database nor the calls made to the driver change before the
    validator runs. *)
Theorem wrapped_default_context
    (namespace name : string) (cb : handler D) (beforeHook : Hook D)
    (root : value) (args : option (obj value)) (w : World D) :
  wrapped D dbDriver namespace name cb beforeHook root args None w =
    guarded D namespace name cb beforeHook (root_or_null root)
      (args_or_empty args) (List.length (heap D w))
      (mkWorld D (heap D w ++ [[("ioc", ioc D dbDriver)]])
         (store D w) (calls D w)).
Proof.
  unfold wrapped, bind, enter, bind, new_object, set_ioc, ret.
  cbn [heap store calls].
  rewrite nth_error_app2 by lia. rewrite Nat.sub_diag. cbn [nth_error].
  rewrite firstn_app, Nat.sub_diag, firstn_all. cbn [firstn].
  rewrite app_nil_r.
  rewrite skipn_all2 by (rewrite length_app; cbn; lia).
  reflexivity.
Qed.

(** X14: an exception of the validator is the exception of the resolver.
    When the validator throws, the function stored by add() throws the
    same exception in the world the validator left, whatever the handler
    and the rejection are: neither is run. *)
Theorem wrapped_validator_throws
    (namespace name : string) (beforeHook : Hook D)
    (root : value) (args : option (obj value)) (context : option loc)
    (w w1 w2 : World D) (l : loc) (e : error) :
  enter D dbDriver context w = (Ok l, w1) ->
  validator D beforeHook namespace name (root_or_null root)
    (args_or_empty args) l w1 = (Throw e, w2) ->
  forall (cb' : handler D) (rejected' : hook_fn D),
    wrapped D dbDriver namespace name cb'
      (mkHook D (validator D beforeHook) rejected') root args context w
    = (Throw e, w2).
Proof.
  intros He Hv cb' rejected'. unfold wrapped, bind, guarded.
  rewrite He. unfold bind. cbn [validator]. now rewrite Hv.
Qed.

End RegistryProperties.

(** The first registration in an empty resolver map *)
Lemma add_changes_one_place_witness :
  map fst
    (Resolver.add nat (Some Example.resolverDriver) "Query" "FooGetPage"
       Example.countingHandler [])
  = ["Query"] /\
  forall fields',
    get "Query"
      (Resolver.add nat (Some Example.resolverDriver) "Query" "Bar"
         Example.countingHandler
         (Resolver.add nat (Some Example.resolverDriver) "Query" "Foo"
            Example.countingHandler []))
    = Some fields' ->
    map fst fields' = ["Foo"; "Bar"].
Proof.
  split.
  - refine (proj1 (proj2 (add_changes_one_place nat
                            (Some Example.resolverDriver) "Query"
                            "FooGetPage" Example.countingHandler [] _ _)));
      [reflexivity | discriminate].
  - intros fields'.
    refine (proj2 (proj2 (add_changes_one_place nat
                            (Some Example.resolverDriver) "Query" "Bar"
                            Example.countingHandler
                            (Resolver.add nat (Some Example.resolverDriver)
                               "Query" "Foo" Example.countingHandler [])
                            _ _))
              [("Foo", Resolver.wrapped nat (Some Example.resolverDriver)
                         "Query" "Foo" Example.countingHandler)]
              fields' eq_refl);
      [reflexivity | discriminate].
Defined.

(** A validator that throws: the handler has not counted a call, and
    the context object holds [ioc] *)
Lemma wrapped_validator_throws_witness :
  Resolver.wrapped nat (Some Example.resolverDriver) "Query" "FooGetPage"
    Example.countingHandler
    (Resolver.mkHook nat
       (fun _ _ _ _ _ => Resolver.throw nat (UserError "no session"))
       (Resolver.rejected nat Example.denyHook))
    Resolver.VUndefined None (Some 0) Example.world0
  = (Throw (UserError "no session"), Example.world1).
Proof.
  apply (wrapped_validator_throws nat (Some Example.resolverDriver)
           "Query" "FooGetPage"
           (Resolver.mkHook nat
              (fun _ _ _ _ _ => Resolver.throw nat (UserError "no session"))
              (Resolver.rejected nat Example.denyHook))
           Resolver.VUndefined None (Some 0) Example.world0 Example.world1
           Example.world1 0 (UserError "no session"));
    reflexivity.
Defined.

(* ================================================================== *)
(** * The filter of a relation *)
(* ================================================================== *)

Module RelationFacts.
Import JsString Parser ParserFacts SplitFacts ObjectFacts Resolver ArgsFacts.

Lemma exec_hash (s : string) : exec (String "#" s) = Some (0, "#").
Proof. now destruct s. Qed.


(** The clause [<column>#<value>] of a relation, when neither the name
    of the column nor the text of the value contains an operator *)
Lemma relation_clause (fcolumnname text : string) :
  exec fcolumnname = None -> exec text = None ->
  exec (fcolumnname ++ "#" ++ text) <> None /\
  condition_of (fcolumnname ++ "#" ++ text)
  = ["#"; trim fcolumnname; trim text].
Proof.
  intros Hc Ht.
  assert (E : exec (fcolumnname ++ "#" ++ text)
              = Some (String.length fcolumnname + 0, "#")).
  { change ("#" ++ text)%string with (String "#" text).
    rewrite exec_app by assumption. now rewrite exec_hash. }
  split; [congruence|]. unfold condition_of. rewrite E.
  change ("#" ++ text)%string with (String "#" text).
  rewrite split_char_app. unfold split.
  rewrite !split_go_none
    by (apply exec_None_prefix; [assumption | unfold operators; cbn; tauto]).
  reflexivity.
Qed.

End RelationFacts.

Section RelationProperties.
Import JsString Parser ParserFacts SplitFacts ObjectFacts Resolver ArgsFacts.
Import RelationFacts.
Variable D : Type.
Variable dbDriver : option (Driver.t D).

(** X15: the filter that a relation resolver builds is parsed into the
    caller's conditions followed by the condition of the relation. For a
    caller filter [f] whose clauses all contain an operator, a table
    name that is its own trimmed form and is not [__proto__], a value
    that is [printable] (a number is a safe integer), and a column name
    and a value text that contain neither an operator nor [;], the
    parsed filter has one condition per clause of [f], in order, and
    then the condition [['#', column, value]], both tokens trimmed. *)
Theorem relation_filter_after_caller_clauses
    (args : obj value) (fcolumnname tablename f : string) (v : value) :
  let clause := (fcolumnname ++ "#" ++ to_string v)%string in
  trim tablename = tablename ->
  tablename <> "__proto__" ->
  printable v = true ->
  arg "filter" args = VStr f -> f <> EmptyString ->
  Forall (fun c => exec c <> None) (split ";" f) ->
  exec fcolumnname = None -> exec (to_string v) = None ->
  split ";" clause = [clause] ->
  parseFilterExpression (relation_filter args fcolumnname v) tablename =
    Ok [(tablename,
         map condition_of (split ";" f)
         ++ [["#"; trim fcolumnname; trim (to_string v)]])].
Proof.
  intros clause Ht _ _ Hf Hne Hall Hc Hv Hs.
  destruct (relation_clause fcolumnname (to_string v) Hc Hv) as [He Hcond].
  unfold relation_filter. rewrite Hf. cbn [truthy to_string].
  apply String.eqb_neq in Hne. rewrite Hne. cbn [negb].
  rewrite append_assoc.
  change (";" ++ fcolumnname ++ "#" ++ to_string v)%string
    with (String ";" clause).
  unfold parseFilterExpression. rewrite Ht. cbn [set].
  rewrite split_char_app, Hs.
  rewrite filter_clauses_ok.
  - cbn [app]. rewrite map_app. cbn [map]. fold clause in Hcond.
    now rewrite Hcond.
  - apply Forall_app. split; [assumption|]. now repeat constructor.
Qed.

Lemma relation_filter_after_caller_clauses_witness :
  parseFilterExpression
    (relation_filter [("filter", VStr "publish=true")] "user_id" (VNum 7))
    "posts"
  = Ok [("posts", [["="; "publish"; "true"]; ["#"; "user_id"; "7"]])].
Proof.
  apply (relation_filter_after_caller_clauses
           [("filter", VStr "publish=true")] "user_id" "posts"
           "publish=true" (VNum 7)).
  - reflexivity.
  - discriminate.
  - reflexivity.
  - reflexivity.
  - discriminate.
  - repeat constructor. discriminate.
  - reflexivity.
  - reflexivity.
  - reflexivity.
Defined.


End RelationProperties.


(* ================================================================== *)
(** * The build of the resolver map *)
(* ================================================================== *)

Module BuildEachFacts.
Import ObjectFacts Resolver RegistryFacts.

Section WithStore.
Variable D : Type.

Lemma build_each_app {A} (f : A -> build_step D) (l1 l2 : list A)
    (rs : Resolvers D) :
  build_each D f (l1 ++ l2) rs =
    match build_each D f l1 rs with
    | (rs', None) => build_each D f l2 rs'
    | (rs', Some e) => (rs', Some e)
    end.
Proof.
  revert rs. induction l1 as [|x l1 IH]; intros rs; [reflexivity|].
  cbn [app build_each]. destruct (f x rs) as [rs' [e|]]; [reflexivity|].
  apply IH.
Qed.

(** What every step keeps is kept by the build *)
Lemma build_each_invariant {A} (f : A -> build_step D)
    (P : Resolvers D -> Prop) (l : list A) :
  (forall x rs, In x l -> P rs -> P (fst (f x rs))) ->
  forall rs, P rs -> P (fst (build_each D f l rs)).
Proof.
  induction l as [|x l IH]; intros Hf rs Hrs; [exact Hrs|].
  cbn [build_each]. pose proof (Hf x rs (or_introl eq_refl) Hrs) as Hx.
  destruct (f x rs) as [rs' [e|]]; [exact Hx|].
  apply IH; [|exact Hx]. intros y rs0 Hy. apply Hf. now right.
Qed.

(** What a step establishes and every step keeps holds after a build
    that has not thrown *)
Lemma build_each_established {A} (f : A -> build_step D)
    (R : A -> Resolvers D -> Prop) (l : list A) :
  (forall x rs, R x (fst (f x rs))) ->
  (forall x y rs, R x rs -> R x (fst (f y rs))) ->
  forall rs x,
    snd (build_each D f l rs) = None -> In x l ->
    R x (fst (build_each D f l rs)).
Proof.
  intros Hest Hkeep. induction l as [|y l IH]; intros rs x Hok Hin;
    [destruct Hin|].
  cbn [build_each] in *. pose proof (Hest y rs) as Hy.
  destruct (f y rs) as [rs' [e|]]; [discriminate|]. cbn [fst] in Hy.
  destruct Hin as [<- | Hin].
  - apply (build_each_invariant f (R y)); [|exact Hy].
    intros z rs0 _. apply Hkeep.
  - now apply IH.
Qed.

(** A build whose steps throw nothing but type errors throws nothing
    else *)
Lemma build_each_errors {A} (f : A -> build_step D) (l : list A) :
  (forall x rs, snd (f x rs) = None \/ snd (f x rs) = Some TypeError) ->
  forall rs,
    snd (build_each D f l rs) = None \/
    snd (build_each D f l rs) = Some TypeError.
Proof.
  intros Hf. induction l as [|x l IH]; intros rs; [now left|].
  cbn [build_each]. pose proof (Hf x rs) as Hx.
  destruct (f x rs) as [rs' [e|]]; [exact Hx | apply IH].
Qed.

(** A build with a step that always throws throws *)
Lemma build_each_fails {A} (f : A -> build_step D) (l : list A) (x : A) :
  In x l -> (forall rs, snd (f x rs) <> None) ->
  forall rs, snd (build_each D f l rs) <> None.
Proof.
  intros Hin Hx. induction l as [|y l IH]; intros rs; [destruct Hin|].
  cbn [build_each]. destruct (f y rs) as [rs' [e|]] eqn:E; [discriminate|].
  destruct Hin as [<- | Hin]; [|now apply IH].
  exfalso. apply (Hx rs). now rewrite E.
Qed.

Lemma build_each_id {A} (f : A -> build_step D) (l : list A) :
  (forall x rs, In x l -> f x rs = (rs, None)) ->
  forall rs, build_each D f l rs = (rs, None).
Proof.
  induction l as [|x l IH]; intros Hf rs; [reflexivity|].
  cbn [build_each]. rewrite Hf by now left.
  apply IH. intros y rs0 Hy. apply Hf. now right.
Qed.

End WithStore.
End BuildEachFacts.

Module StepFacts.
Import ObjectFacts Resolver RegistryFacts BuildEachFacts.

Section WithDriver.
Variable D : Type.
Variable dbDriver : option (Driver.t D).
Variable toCamelCase : string -> string.

Local Abbreviation foreign_step := (foreign_step D dbDriver toCamelCase).
Local Abbreviation createForeignFieldsResolvers :=
  (createForeignFieldsResolvers D dbDriver toCamelCase).
Local Abbreviation createReverseRelationsResolvers :=
  (createReverseRelationsResolvers D dbDriver toCamelCase).
Local Abbreviation addDefaultFieldsResolvers :=
  (addDefaultFieldsResolvers D dbDriver toCamelCase).
Local Abbreviation getResolvers := (getResolvers D dbDriver toCamelCase).

(** Every step of the build is a sequence of registrations: what a
    registration keeps, the step keeps *)
Section Kept.
Variable P : Resolvers D -> Prop.
Hypothesis kept :
  forall namespace name f rs, P rs -> P (register D namespace name f rs).

Lemma foreign_step_kept (d : Driver.t D) (tablename c : string)
    (rs : Resolvers D) :
  P rs -> P (fst (foreign_step d tablename c rs)).
Proof.
  intros H. unfold Resolver.foreign_step.
  destruct (get tablename (Driver.dbSchema d)) as [t|]; [|exact H].
  destruct (get c (Table.columns t)) as [column|]; [|exact H].
  destruct (Column.__foreign column) as [fk|]; [|exact H].
  cbn [fst]. now apply kept.
Qed.

Lemma createForeignFieldsResolvers_kept (d : Driver.t D)
    (tablename : string) (rs : Resolvers D) :
  P rs -> P (fst (createForeignFieldsResolvers d tablename rs)).
Proof.
  apply build_each_invariant. intros c rs' _. apply foreign_step_kept.
Qed.

Lemma createReverseRelationsResolvers_kept (d : Driver.t D)
    (tablename : string) (rs : Resolvers D) :
  P rs -> P (fst (createReverseRelationsResolvers d tablename rs)).
Proof.
  intros H. unfold Resolver.createReverseRelationsResolvers.
  destruct (get tablename (Driver.dbSchema d)) as [t|]; [|exact H].
  apply build_each_invariant; [|exact H].
  intros r rs' _ H'. cbn [fst]. now apply kept.
Qed.

Lemma addDefaultFieldsResolvers_kept (tablename : string)
    (rs : Resolvers D) :
  P rs -> P (fst (addDefaultFieldsResolvers tablename rs)).
Proof.
  intros H. unfold Resolver.addDefaultFieldsResolvers, add. cbn [fst].
  now repeat apply kept.
Qed.

Lemma getResolvers_kept (withDatabase : bool) (rs : Resolvers D) :
  P rs -> P (fst (getResolvers withDatabase rs)).
Proof.
  intros H. unfold Resolver.getResolvers.
  destruct (if withDatabase then dbDriver else None) as [d|]; [|exact H].
  apply build_each_invariant; [|exact H].
  intros tablename rs' _ H'.
  pose proof (addDefaultFieldsResolvers_kept tablename rs' H') as H1.
  destruct (Resolver.addDefaultFieldsResolvers D dbDriver toCamelCase
              tablename rs') as [rs1 [e|]]; [exact H1|].
  pose proof (createForeignFieldsResolvers_kept d tablename rs1 H1) as H2.
  destruct (Resolver.createForeignFieldsResolvers D dbDriver toCamelCase d
              tablename rs1) as [rs2 [e|]]; [exact H2|].
  now apply createReverseRelationsResolvers_kept.
Qed.

End Kept.

(** The steps throw nothing but type errors *)
Lemma createForeignFieldsResolvers_errors (d : Driver.t D)
    (tablename : string) (rs : Resolvers D) :
  snd (createForeignFieldsResolvers d tablename rs) = None \/
  snd (createForeignFieldsResolvers d tablename rs) = Some TypeError.
Proof.
  apply build_each_errors. intros c rs'. unfold Resolver.foreign_step.
  destruct (get tablename (Driver.dbSchema d)) as [t|]; [|now right].
  destruct (get c (Table.columns t)) as [column|]; [|now right].
  destruct (Column.__foreign column); now left.
Qed.

Lemma createReverseRelationsResolvers_errors (d : Driver.t D)
    (tablename : string) (rs : Resolvers D) :
  snd (createReverseRelationsResolvers d tablename rs) = None \/
  snd (createReverseRelationsResolvers d tablename rs) = Some TypeError.
Proof.
  unfold Resolver.createReverseRelationsResolvers.
  destruct (get tablename (Driver.dbSchema d)) as [t|]; [|now right].
  apply build_each_errors. intros r rs'. now left.
Qed.

End WithDriver.
End StepFacts.

Section BuildProperties.
Import ObjectFacts Resolver RegistryFacts BuildEachFacts StepFacts.
Variable D : Type.
Variable dbDriver : option (Driver.t D).
Variable toCamelCase : string -> string.

(** X17: createForeignFieldsResolvers registers under the type of the
    table, and under the names [<c>_<foreignTable>] of the columns [c]
    that have a foreign key, and nowhere else: every other place of the
    resolver map holds what it held. When it ends without an exception,
    a resolver is registered for every such column; and for a table
    whose enumerated columns are all described and have no foreign key
    it leaves the resolver map as it was, creating no namespace. *)
Theorem createForeignFieldsResolvers_registers_relations
    (d : Driver.t D) (tablename : string) (rs : Resolvers D) :
  let out :=
    createForeignFieldsResolvers D dbDriver toCamelCase d tablename rs in
  let relation := fun c fk =>
    exists t column,
      In c (Driver.getTableColumnsFromSchema d tablename) /\
      get tablename (Driver.dbSchema d) = Some t /\
      get c (Table.columns t) = Some column /\
      Column.__foreign column = Some fk in
  (forall namespace name,
      (forall c fk, relation c fk ->
         namespace <> toCamelCase tablename \/
         name <> (c ++ "_" ++ Foreign.tablename fk)%string) ->
      resolver_at D namespace name (fst out)
      = resolver_at D namespace name rs) /\
  (snd out = None ->
   forall c fk, relation c fk ->
     resolver_at D (toCamelCase tablename)
       (c ++ "_" ++ Foreign.tablename fk)%string (fst out) <> None) /\
  ((forall c, In c (Driver.getTableColumnsFromSchema d tablename) ->
      exists t column,
        get tablename (Driver.dbSchema d) = Some t /\
        get c (Table.columns t) = Some column /\
        Column.__foreign column = None) ->
   out = (rs, None)).
Proof.
  intros out relation. split; [|split].
  - intros namespace name H. unfold out, createForeignFieldsResolvers.
    apply (build_each_invariant D _
             (fun rs' => resolver_at D namespace name rs'
                         = resolver_at D namespace name rs));
      [|reflexivity].
    intros c rs' Hc Hrs'. unfold foreign_step.
    destruct (get tablename (Driver.dbSchema d)) as [t|] eqn:Gt;
      [|exact Hrs'].
    destruct (get c (Table.columns t)) as [column|] eqn:Gc; [|exact Hrs'].
    destruct (Column.__foreign column) as [fk|] eqn:Gf; [|exact Hrs'].
    cbn [fst]. rewrite register_at_other; [exact Hrs'|].
    apply (H c fk). now exists t, column.
  - intros Hok c fk (t & column & Hc & Gt & Gc & Gf).
    unfold out, createForeignFieldsResolvers in *.
    apply (build_each_established D _
             (fun c rs' =>
                forall fk column,
                  get c (Table.columns t) = Some column ->
                  Column.__foreign column = Some fk ->
                  resolver_at D (toCamelCase tablename)
                    (c ++ "_" ++ Foreign.tablename fk)%string rs' <> None)
             _) with (x := c) (column := column); auto.
    + intros x rs' fk' column' Gx Gf'. unfold foreign_step.
      rewrite Gt, Gx, Gf'. cbn [fst]. rewrite register_at_same. discriminate.
    + intros x y rs' Hx fk' column' Gx Gf'.
      apply (foreign_step_kept D dbDriver toCamelCase
               (fun rs0 => resolver_at D (toCamelCase tablename)
                             (x ++ "_" ++ Foreign.tablename fk')%string rs0
                           <> None)).
      * intros namespace name f rs0. apply register_keeps.
      * now apply (Hx fk' column').
  - intros H. unfold out, createForeignFieldsResolvers.
    apply build_each_id. intros c rs' Hc.
    destruct (H c Hc) as (t & column & Gt & Gc & Gf).
    unfold foreign_step. now rewrite Gt, Gc, Gf.
Qed.


End BuildProperties.

Section GetResolversProperties.
Import ObjectFacts Resolver RegistryFacts BuildEachFacts StepFacts.
Variable D : Type.
Variable dbDriver : option (Driver.t D).
Variable toCamelCase : string -> string.

(** X19: for the two fields of Query the names of the schema and of the
    resolver map line up. After a build of the resolver map that ends
    without an exception, every table the driver lists has a resolver
    under Query for [<Type>GetPage] and for [<Type>GetFirst], the very
    names under which mapDbTableToGraphqlQuery and
    mapDbTableToGraphqlFirstOf put the fields of the table into the type
    Query of any schema, and a resolver under Mutation for
    [<Type>Put]. *)
Theorem getResolvers_registers_defaults
    (d : Driver.t D) (rs : Resolvers D) (tablename : string) :
  dbDriver = Some d ->
  snd (getResolvers D dbDriver toCamelCase true rs) = None ->
  In tablename (Driver.getTablesFromSchema d) ->
  let built := fst (getResolvers D dbDriver toCamelCase true rs) in
  let typeName := toCamelCase tablename in
  resolver_at D "Query" (typeName ++ "GetPage")%string built <> None /\
  resolver_at D "Query" (typeName ++ "GetFirst")%string built <> None /\
  resolver_at D "Mutation" (typeName ++ "Put")%string built <> None /\
  forall s : Compiler.Schema,
    (exists q,
        get "Query"
          (Compiler.types
             (fst (Compiler.await
                     (Compiler.mapDbTableToGraphqlQuery toCamelCase
                        tablename) s))) = Some q /\
        has (typeName ++ "GetPage")%string q = true) /\
    (exists q,
        get "Query"
          (Compiler.types
             (fst (Compiler.await
                     (Compiler.mapDbTableToGraphqlFirstOf toCamelCase
                        tablename) s))) = Some q /\
        has (typeName ++ "GetFirst")%string q = true).
Proof.
  intros Hd Hok Hin built typeName.
  assert (Hreg :
    resolver_at D "Query" (typeName ++ "GetPage")%string built <> None /\
    resolver_at D "Query" (typeName ++ "GetFirst")%string built <> None /\
    resolver_at D "Mutation" (typeName ++ "Put")%string built <> None).
  { unfold built in *. unfold getResolvers in *. rewrite Hd in *.
    match type of Hok with
    | snd (build_each D ?f _ _) = None => set (step := f) in *
    end.
    apply (build_each_established D step
             (fun t rs' =>
                resolver_at D "Query" (toCamelCase t ++ "GetPage")%string rs'
                  <> None /\
                resolver_at D "Query" (toCamelCase t ++ "GetFirst")%string rs'
                  <> None /\
                resolver_at D "Mutation" (toCamelCase t ++ "Put")%string rs'
                  <> None)); auto.
    - intros t rs'.
      pose proof (getResolvers_kept D (Some d) toCamelCase) as K.
      assert (Hstep : forall P : Resolvers D -> Prop,
                 (forall namespace name f rs0,
                     P rs0 -> P (register D namespace name f rs0)) ->
                 P (fst (addDefaultFieldsResolvers D (Some d) toCamelCase
                           t rs')) ->
                 P (fst (step t rs'))).
      { intros P HP H1. unfold step.
        destruct (addDefaultFieldsResolvers D (Some d) toCamelCase t rs')
          as [rs1 [e|]]; [exact H1|]. cbn [fst] in H1.
        pose proof (createForeignFieldsResolvers_kept D (Some d) toCamelCase
                      P HP d t rs1 H1) as H2.
        destruct (createForeignFieldsResolvers D (Some d) toCamelCase d t
                    rs1) as [rs2 [e|]]; [exact H2|].
        now apply createReverseRelationsResolvers_kept. }
      unfold addDefaultFieldsResolvers, add in Hstep. cbn [fst] in Hstep.
      split; [|split]; apply Hstep;
        try (intros namespace name f rs0; apply register_keeps).
      + do 2 apply register_keeps. rewrite register_at_same. discriminate.
      + apply register_keeps. rewrite register_at_same. discriminate.
      + rewrite register_at_same. discriminate.
    - intros x y rs' (H1 & H2 & H3).
      assert (Hstep : forall P : Resolvers D -> Prop,
                 (forall namespace name f rs0,
                     P rs0 -> P (register D namespace name f rs0)) ->
                 P rs' -> P (fst (step y rs'))).
      { intros P HP H0. unfold step.
        pose proof (addDefaultFieldsResolvers_kept D (Some d) toCamelCase
                      P HP y rs' H0) as H1'.
        destruct (addDefaultFieldsResolvers D (Some d) toCamelCase y rs')
          as [rs1 [e|]]; [exact H1'|]. cbn [fst] in H1'.
        pose proof (createForeignFieldsResolvers_kept D (Some d) toCamelCase
                      P HP d y rs1 H1') as H2'.
        destruct (createForeignFieldsResolvers D (Some d) toCamelCase d y
                    rs1) as [rs2 [e|]]; [exact H2'|].
        now apply createReverseRelationsResolvers_kept. }
      split; [|split]; apply Hstep; auto;
        intros namespace name f rs0; apply register_keeps. }
  destruct Hreg as (H1 & H2 & H3).
  split; [exact H1|]. split; [exact H2|]. split; [exact H3|].
  intros s. unfold Compiler.mapDbTableToGraphqlQuery,
    Compiler.mapDbTableToGraphqlFirstOf. cbn [Compiler.await].
  unfold Compiler.seg_skip.
  split.
  - unfold Compiler.seg_seq at 1 2. rewrite SegmentFacts.query_field_eq.
    cbn [fst Compiler.types]. unfold set_field.
    destruct (get "Query" (ensure_key "Query" (Compiler.types s)))
      as [q|] eqn:G.
    + rewrite get_set_same. eexists. split; [reflexivity|].
      unfold has. now rewrite get_set_same.
    + exfalso. assert (Hh : has "Query"
                              (ensure_key "Query" (Compiler.types s)) = true)
        by (now rewrite has_ensure_key).
      unfold has in Hh. now rewrite G in Hh.
  - unfold Compiler.seg_seq at 1 2. rewrite SegmentFacts.query_field_eq.
    cbn [fst Compiler.types]. unfold set_field.
    destruct (get "Query" (ensure_key "Query" (Compiler.types s)))
      as [q|] eqn:G.
    + rewrite get_set_same. eexists. split; [reflexivity|].
      unfold has. now rewrite get_set_same.
    + exfalso. assert (Hh : has "Query"
                              (ensure_key "Query" (Compiler.types s)) = true)
        by (now rewrite has_ensure_key).
      unfold has in Hh. now rewrite G in Hh.
Qed.

(** X20: a build of the resolver map unregisters nothing and, the
    driver answering what it is asked about the schema, throws nothing
    but a TypeError. Whether or not it ends with an exception, every
    place of the resolver map that held a function still holds one; and
    it does end with a TypeError when the driver lists a table that its
    schema does not have. *)
Theorem getResolvers_keeps_and_fails
    (withDatabase : bool) (rs : Resolvers D) :
  let out := getResolvers D dbDriver toCamelCase withDatabase rs in
  (snd out = None \/ snd out = Some TypeError) /\
  (forall namespace name,
      resolver_at D namespace name rs <> None ->
      resolver_at D namespace name (fst out) <> None) /\
  (forall d tablename,
      dbDriver = Some d -> withDatabase = true ->
      In tablename (Driver.getTablesFromSchema d) ->
      get tablename (Driver.dbSchema d) = None ->
      snd out = Some TypeError).
Proof.
  intros out.
  assert (Herr : snd out = None \/ snd out = Some TypeError).
  { unfold out, getResolvers.
    destruct (if withDatabase then dbDriver else None) as [d|]; [|now left].
    apply build_each_errors. intros t rs'.
    unfold addDefaultFieldsResolvers.
    pose proof (createForeignFieldsResolvers_errors D dbDriver toCamelCase d t)
      as Hf.
    match goal with
    | |- context [createForeignFieldsResolvers D dbDriver toCamelCase d t ?r] =>
        specialize (Hf r);
        destruct (createForeignFieldsResolvers D dbDriver toCamelCase d t r)
          as [rs2 [e|]]
    end.
    - exact Hf.
    - apply createReverseRelationsResolvers_errors. }
  split; [exact Herr|]. split.
  - intros namespace name.
    apply (getResolvers_kept D dbDriver toCamelCase
             (fun rs' => resolver_at D namespace name rs' <> None)).
    intros namespace' name' f rs0. apply register_keeps.
  - intros d tablename Hd -> Hin Hg.
    destruct Herr as [Hnone | Hte]; [|exact Hte]. exfalso.
    unfold out, getResolvers in Hnone. rewrite Hd in Hnone.
    revert Hnone. apply (build_each_fails D _ _ tablename Hin).
    intros rs'. unfold addDefaultFieldsResolvers.
    match goal with
    | |- context [createForeignFieldsResolvers D ?dr toCamelCase d tablename
                    ?r] =>
        destruct (createForeignFieldsResolvers D dr toCamelCase d tablename r)
          as [rs2 [e|]]
    end.
    + discriminate.
    + unfold createReverseRelationsResolvers. rewrite Hg. discriminate.
Qed.

End GetResolversProperties.


(** The build for the tables of the README *)
Lemma getResolvers_registers_defaults_witness :
  Resolver.resolver_at nat "Query" "FooGetPage"
    (fst (Resolver.getResolvers nat (Some Example.resolverDriver)
            Example.toCamelCase true [])) <> None /\
  Resolver.resolver_at nat "Query" "FooGetFirst"
    (fst (Resolver.getResolvers nat (Some Example.resolverDriver)
            Example.toCamelCase true [])) <> None /\
  Resolver.resolver_at nat "Mutation" "FooPut"
    (fst (Resolver.getResolvers nat (Some Example.resolverDriver)
            Example.toCamelCase true [])) <> None.
Proof.
  destruct (getResolvers_registers_defaults nat (Some Example.resolverDriver)
              Example.toCamelCase Example.resolverDriver [] "foo"
              eq_refl eq_refl (or_introl eq_refl)) as (H1 & H2 & H3 & _).
  split; [exact H1|]. split; [exact H2 | exact H3].
Defined.

(** The build under the stale driver ends with a TypeError *)
Example getResolvers_stale :
  snd (Resolver.getResolvers nat (Some Example.staleDriver)
         Example.toCamelCase true []) = Some TypeError.
Proof. reflexivity. Qed.

(* ================================================================== *)
(** * The compiler: parameters, fields added by hand, the cached text *)
(* ================================================================== *)

Section RenderProperties.
Import JsString ObjectFacts ArgsFacts ParserFacts Compiler SegmentFacts.

(** X21: buildParamsFromObject gives the empty text for an object
    without properties, and for no other object; for an object whose
    keys are distinct and are not array indices it gives the properties
    in the order in which they were written, each as [key: value],
    joined by the separator, between parentheses. *)
Theorem buildParamsFromObject_shape (o : obj string) (sep : string) :
  (buildParamsFromObject o sep = EmptyString <-> o = []) /\
  (NoDup (map fst o) ->
   Forall (fun k => is_plain k = true) (map fst o) ->
   o <> [] ->
   buildParamsFromObject o sep =
     ("(" ++ join sep (map (fun kv => fst kv ++ ": " ++ snd kv) o) ++ ")")
     %string).
Proof.
  split.
  - split.
    + intros H. destruct o as [|[k v] o]; [reflexivity|]. exfalso.
      unfold buildParamsFromObject in H.
      assert (Hin : In k (keys ((k, v) :: o)))
        by (apply keys_In; now left).
      destruct (flat_map _ (keys ((k, v) :: o))) as [|x l] eqn:E;
        [|discriminate].
      assert (Hx : In (k ++ ": " ++ v)%string
                     (flat_map (fun k0 =>
                        match get k0 ((k, v) :: o) with
                        | Some v0 => [(k0 ++ ": " ++ v0)%string]
                        | None => []
                        end) (keys ((k, v) :: o)))).
      { apply in_flat_map. exists k. split; [exact Hin|].
        cbn [get]. rewrite String.eqb_refl. now left. }
      rewrite E in Hx. destruct Hx.
    + intros ->. reflexivity.
  - intros Hnd Hpl Hne. unfold buildParamsFromObject.
    rewrite (entries_plain (fun k v => (k ++ ": " ++ v)%string))
      by assumption.
    destruct o; [congruence | reflexivity].
Qed.

(** The parameters of the paginated fields *)
Lemma buildParamsFromObject_shape_witness :
  buildParamsFromObject query_params ", " =
    "(filter: String, pagination: String, where: Condition, _debug: Boolean, _cache: Boolean)".
Proof.
  refine (proj2 (buildParamsFromObject_shape query_params ", ") _ _ _).
  - apply distinct_NoDup. reflexivity.
  - repeat constructor.
  - discriminate.
Defined.

(** X22: addType never throws, and it overrides in place, for a type
    name that is not the name of a property every object inherits and a
    field name other than [__proto__]. After
    addType(type, field, returns, params) the type has the field with
    this definition; the inputs, the other types and the other fields of
    the type are what they were; a type and a field that existed keep
    their places in the order of the schema, and a new type or a new
    field goes last. *)
Theorem addType_overrides_in_place
    (type field : string) (returns : TypeRef) (params : option (obj string))
    (s : Schema) :
  inherited type = false ->
  field <> "__proto__" ->
  let out := addType type field returns params s in
  let fields := match get type (types s) with
                | Some fields => fields
                | None => []
                end in
  snd out = None /\
  inputs (fst out) = inputs s /\
  get type (types (fst out))
    = Some (set field (mkField field returns params) fields) /\
  get field (set field (mkField field returns params) fields)
    = Some (mkField field returns params) /\
  (forall f, f <> field ->
     get f (set field (mkField field returns params) fields)
     = get f fields) /\
  (forall t, t <> type -> get t (types (fst out)) = get t (types s)) /\
  map fst (types (fst out)) =
    (if has type (types s) then map fst (types s)
     else map fst (types s) ++ [type]) /\
  map fst (set field (mkField field returns params) fields) =
    (if has field fields then map fst fields
     else map fst fields ++ [field]).
Proof.
  intros _ _ out fields.
  assert (E : out =
              (mkSchema (set type
                           (set field (mkField field returns params) fields)
                           (types s)) (inputs s), None)).
  { unfold out, addType, seg_seq, seg_pure. rewrite ensure_type_eq.
    rewrite set_type_field_eq
      by (cbn [types]; rewrite has_ensure_key; now rewrite String.eqb_refl).
    cbn [types inputs]. f_equal. f_equal.
    unfold set_field, ensure_key, has, fields.
    destruct (get type (types s)) as [fs|] eqn:G.
    - now rewrite G.
    - rewrite get_set_same. apply set_set. }
  rewrite E. cbn [fst snd types inputs].
  assert (Hkeys : forall V (k : string) (v : V) (o : obj V),
             map fst (set k v o) =
               if has k o then map fst o else map fst o ++ [k]).
  { intros V k v o. unfold has. destruct (get k o) as [x|] eqn:G.
    - apply keys_set_present.
      destruct (in_dec string_dec k (map fst o)) as [Hin | Hn];
        [exact Hin|].
      apply get_None in Hn. congruence.
    - apply keys_set_fresh. now apply get_None. }
  split; [reflexivity|]. split; [reflexivity|].
  split; [apply get_set_same|]. split; [apply get_set_same|].
  split; [intros f Hf; now apply get_set_other|].
  split; [intros t Ht; now apply get_set_other|].
  split; apply Hkeys.
Qed.

(** X23: addInput never throws, and it overrides in place in the same
    way, for an input name that is not the name of a property every
    object inherits and a field name other than [__proto__]: after
    addInput(input, field, subType) the input has the field
    with this type; the types, the other inputs and the other fields of
    the input are what they were, and an input that existed keeps its
    place. *)
Theorem addInput_overrides_in_place
    (input field subType : string) (s : Schema) :
  inherited input = false ->
  field <> "__proto__" ->
  let out := addInput input field subType s in
  let fields := match get input (inputs s) with
                | Some fields => fields
                | None => []
                end in
  snd out = None /\
  types (fst out) = types s /\
  get input (inputs (fst out)) = Some (set field subType fields) /\
  get field (set field subType fields) = Some subType /\
  (forall f, f <> field -> get f (set field subType fields) = get f fields) /\
  (forall i, i <> input -> get i (inputs (fst out)) = get i (inputs s)) /\
  map fst (inputs (fst out)) =
    (if has input (inputs s) then map fst (inputs s)
     else map fst (inputs s) ++ [input]).
Proof.
  intros _ _ out fields.
  assert (E : out =
              (mkSchema (types s)
                 (set input (set field subType fields) (inputs s)), None)).
  { unfold out, addInput, seg_seq, seg_pure. rewrite ensure_input_eq.
    rewrite set_input_field_eq
      by (cbn [inputs]; rewrite has_ensure_key; now rewrite String.eqb_refl).
    cbn [types inputs]. f_equal. f_equal.
    unfold set_field, ensure_key, has, fields.
    destruct (get input (inputs s)) as [fs|] eqn:G.
    - now rewrite G.
    - rewrite get_set_same. apply set_set. }
  rewrite E. cbn [fst snd types inputs].
  split; [reflexivity|]. split; [reflexivity|].
  split; [apply get_set_same|]. split; [apply get_set_same|].
  split; [intros f Hf; now apply get_set_other|].
  split; [intros i Hi; now apply get_set_other|].
  unfold has. destruct (get input (inputs s)) as [x|] eqn:G.
  - apply keys_set_present.
    destruct (in_dec string_dec input (map fst (inputs s))) as [Hin | Hn];
      [exact Hin|].
    apply get_None in Hn. congruence.
  - apply keys_set_fresh. now apply get_None.
Qed.

(** X24: getSDL, called when no pass of a build is pending (the job
    queue is empty, so that nothing runs between two steps of the
    method), caches whatever it renders. The text it returns is trimmed,
    and the cache it leaves is never empty, not even for an empty
    schema; so a later call without [refresh], made again when no pass
    is pending, returns the same text and leaves the same cache whatever
    the schema has become. With [refresh] the text does not depend on
    the cache; and the text of a schema without a type and without an
    input is empty. *)
Theorem getSDL_caches (refresh : bool) (sdl : string) (r r' : Run) :
  queue r = [] ->
  queue r' = [] ->
  let out := getSDL refresh sdl (schema r) in
  snd out <> EmptyString /\
  fst out = trim (snd out) /\
  trim (fst out) = fst out /\
  getSDL false (snd out) (schema r') = out /\
  (forall sdl', getSDL true sdl' (schema r) = getSDL true sdl (schema r)) /\
  (schema r = empty_schema ->
   getSDL true sdl (schema r) = (EmptyString, nl)).
Proof.
  intros _ _. generalize (schema r) as s, (schema r') as s'. intros s s' out.
  assert (Hne : snd out <> EmptyString).
  { unfold out, getSDL. cbn [snd].
    destruct (String.eqb sdl EmptyString) eqn:E; cbn [orb].
    - now destruct (join (nl ++ nl) (sdl_items s)).
    - destruct refresh.
      + now destruct (join (nl ++ nl) (sdl_items s)).
      + apply String.eqb_neq. exact E. }
  split; [exact Hne|]. split; [reflexivity|].
  split; [apply trim_idempotent|]. split.
  - unfold getSDL at 1. apply String.eqb_neq in Hne. rewrite Hne.
    cbn [orb]. reflexivity.
  - split; [|intros ->; unfold getSDL; now rewrite orb_true_r].
    intros sdl'. unfold getSDL. now rewrite !orb_true_r.
Qed.

End RenderProperties.

(** A field added twice to a new type: one type, one field, the second
    definition *)
Lemma addType_overrides_in_place_witness :
  Compiler.types
    (fst (Compiler.addType "Foo" "id" (Compiler.Named "Int") None
            (fst (Compiler.addType "Foo" "id" (Compiler.Named "String")
                    None Compiler.empty_schema))))
  = [("Foo", [("id", Compiler.mkField "id" (Compiler.Named "Int") None)])] /\
  map fst
    (Compiler.types
       (fst (Compiler.addType "Bar" "id" (Compiler.Named "Int") None
               (fst (Compiler.addType "Foo" "id" (Compiler.Named "String")
                       None Compiler.empty_schema)))))
  = ["Foo"; "Bar"].
Proof.
  split; [reflexivity|].
  refine (proj1 (proj2 (proj2 (proj2 (proj2 (proj2 (proj2
            (addType_overrides_in_place "Bar" "id" (Compiler.Named "Int")
               None
               (fst (Compiler.addType "Foo" "id" (Compiler.Named "String")
                       None Compiler.empty_schema)) _ _)))))))).
  - reflexivity.
  - discriminate.
Defined.

Lemma addInput_overrides_in_place_witness :
  map fst
    (Compiler.inputs
       (fst (Compiler.addInput "BarInput" "id" "Int"
               (fst (Compiler.addInput "FooInput" "id" "Int"
                       Compiler.empty_schema)))))
  = ["FooInput"; "BarInput"].
Proof.
  refine (proj2 (proj2 (proj2 (proj2 (proj2 (proj2
            (addInput_overrides_in_place "BarInput" "id" "Int"
               (fst (Compiler.addInput "FooInput" "id" "Int"
                       Compiler.empty_schema)) _ _))))))).
  - reflexivity.
  - discriminate.
Defined.

(** After the full build of the README tables has settled, a call
    without [refresh] returns the cached text, whatever the schema *)
Lemma getSDL_caches_witness :
  let run :=
    Compiler.settle
      (Compiler.buildSchema Example.toCamelCase Example.dbSchema
         (Example.compilerDriver Example.dbSchema) Compiler.empty_schema) in
  let out := Compiler.getSDL true EmptyString (Compiler.schema run) in
  Compiler.getSDL false (snd out) Compiler.empty_schema = out /\
  Compiler.getSDL true EmptyString Compiler.empty_schema
    = (EmptyString, Compiler.nl).
Proof.
  intros run out. split.
  - refine (proj1 (proj2 (proj2 (proj2
              (getSDL_caches true EmptyString run
                 (Compiler.mkRun Compiler.empty_schema [] []) _ _))))).
    + reflexivity.
    + reflexivity.
  - refine (proj2 (proj2 (proj2 (proj2 (proj2
              (getSDL_caches true EmptyString
                 (Compiler.mkRun Compiler.empty_schema [] [])
                 (Compiler.mkRun Compiler.empty_schema [] []) _ _)))))
              eq_refl); reflexivity.
Defined.

(* ================================================================== *)
(** * The builds: what is there at the return, and the awaited passes *)
(* ================================================================== *)

Module AwaitFacts.
Import JsString ObjectFacts Compiler QueueFacts SegmentFacts.

Lemma seg_seq_ok (g r : segment) (s s' : Schema) :
  g s = (s', None) -> seg_seq g r s = r s'.
Proof. intros H. unfold seg_seq. now rewrite H. Qed.




Section WithDriver.
Variable toCamelCase : string -> string.
Variable dbSchema : DbSchema.
Variable dbDriver : Driver.

Local Abbreviation passes := (passes toCamelCase dbSchema dbDriver).

(** The calls of the five passes of a table: the type of the table is
    created, and the rest of every pass waits *)
Lemma call_passes (tablename : string) (r : Run) :
  fold_left (fun r m => call m r) (passes tablename) r =
    mkRun (ensure_type (toCamelCase tablename) (schema r))
      (queue r ++ tails (passes tablename)) (rejected r).
Proof.
  unfold Compiler.passes, mapDbTableToGraphqlType, mapDbTableToGraphqlQuery,
    mapDbTableToGraphqlFirstOf, mapDbTableToGraphqlMutation,
    mapDbTableToGraphqlInput.
  cbn [fold_left]. unfold call, seg_pure, seg_skip.
  cbn [schema queue rejected]. unfold tails. cbn [map tl filter].
  rewrite <- !app_assoc. reflexivity.
Qed.

Lemma call_all_passes (l : list string) :
  forall r,
    fold_left (fun r tablename =>
                 fold_left (fun r m => call m r) (passes tablename) r) l r =
      mkRun (fold_left (fun s tablename =>
                          ensure_type (toCamelCase tablename) s) l (schema r))
        (queue r ++ flat_map (fun tablename => tails (passes tablename)) l)
        (rejected r).
Proof.
  induction l as [|x l IH]; intros r.
  - cbn. rewrite app_nil_r. now destruct r.
  - cbn [fold_left flat_map]. rewrite call_passes, IH.
    cbn [schema queue rejected]. now rewrite <- app_assoc.
Qed.

Lemma fold_ensure_type (l : list string) :
  forall s,
    fold_left (fun s tablename => ensure_type (toCamelCase tablename) s) l s
    = mkSchema
        (fold_left (fun tys tablename =>
                      ensure_key (toCamelCase tablename) tys) l (types s))
        (inputs s).
Proof.
  induction l as [|x l IH]; intros s.
  - cbn. now rewrite schema_eta.
  - cbn [fold_left]. rewrite IH, ensure_type_eq. reflexivity.
Qed.

(** A type found after the types of a list of tables have been created
    was there before, or is the empty type of one of the tables *)
Lemma fold_ensure_get {V} (key : string -> string) (l : list string) :
  forall (tys : obj (obj V)) (k : string) (fields : obj V),
    get k (fold_left (fun tys x => ensure_key (key x) tys) l tys)
      = Some fields ->
    get k tys = Some fields \/ (fields = [] /\ In k (map key l)).
Proof.
  induction l as [|x l IH]; intros tys k fields H; [now left|].
  cbn [fold_left] in H. apply IH in H. destruct H as [H | [-> Hin]].
  - unfold ensure_key in H. destruct (has (key x) tys); [now left|].
    destruct (string_dec k (key x)) as [-> | Hne].
    + rewrite get_set_same in H. injection H as <-.
      right. split; [reflexivity | now left].
    + rewrite get_set_other in H by assumption. now left.
  - right. split; [reflexivity | now right].
Qed.

Lemma fold_ensure_has {V} (key : string -> string) (l : list string) :
  forall (tys : obj (obj V)) (k : string),
    has k tys = true \/ In k (map key l) ->
    has k (fold_left (fun tys x => ensure_key (key x) tys) l tys) = true.
Proof.
  induction l as [|x l IH]; intros tys k H.
  - destruct H as [H | []]. exact H.
  - cbn [fold_left]. apply IH. rewrite has_ensure_key.
    destruct H as [H | [H | H]].
    + left. rewrite H. apply orb_true_r.
    + left. rewrite H, String.eqb_refl. reflexivity.
    + now right.
Qed.

End WithDriver.
End AwaitFacts.

Section ReturnProperties.
Import JsString ObjectFacts Compiler QueueFacts SegmentFacts AwaitFacts.
Variable toCamelCase : string -> string.
Variable dbSchema : DbSchema.
Variable dbDriver : Driver.

(** X25: buildSchema returns before its passes have run. At the return
    no pass has thrown and the five passes of every table wait in the
    job queue; the inputs are what they were, and the types are those
    that were there, with their fields, and the type of every table: a
    type that was not there has no field yet. *)
Theorem buildSchema_returns_before_the_passes (s : Schema) :
  let run := buildSchema toCamelCase dbSchema dbDriver s in
  rejected run = [] /\
  List.length (queue run) = 5 * List.length (tables dbSchema) /\
  inputs (schema run) = inputs s /\
  (forall tablename, In tablename (tables dbSchema) ->
     has (toCamelCase tablename) (types (schema run)) = true) /\
  (forall k fields,
     get k (types (schema run)) = Some fields ->
     get k (types s) = Some fields \/
     (fields = [] /\ In k (map toCamelCase (tables dbSchema)))).
Proof.
  intros run.
  assert (E : run =
              mkRun
                (mkSchema
                   (fold_left (fun tys tablename =>
                                 ensure_key (toCamelCase tablename) tys)
                      (tables dbSchema) (types s)) (inputs s))
                (flat_map (fun tablename =>
                             tails (passes toCamelCase dbSchema dbDriver
                                      tablename)) (tables dbSchema)) []).
  { unfold run, buildSchema. rewrite call_all_passes.
    cbn [schema queue rejected app]. now rewrite fold_ensure_type. }
  rewrite E. cbn [schema queue rejected types inputs].
  split; [reflexivity|]. split; [|split; [reflexivity|split]].
  - clear E. generalize (tables dbSchema) as l.
    induction l as [|x l IH]; [reflexivity|].
    cbn [flat_map]. rewrite length_app, IH.
    change (List.length (tails (passes toCamelCase dbSchema dbDriver x)))
      with 5.
    cbn [List.length]. lia.
  - intros tablename Hin. apply fold_ensure_has. right. now apply in_map.
  - intros k fields. apply fold_ensure_get.
Qed.

End ReturnProperties.

Module PassFacts.
Import JsString ObjectFacts Compiler QueueFacts SegmentFacts AwaitFacts.

Section WithDriver.
Variable toCamelCase : string -> string.
Variable dbSchema : DbSchema.
Variable dbDriver : Driver.

(** The awaited pass that makes the type of a table, when the schema
    describes the columns the driver enumerates *)
Lemma await_type (tablename : string) (t : Table.t) (s : Schema) :
  let field := toCamelCase tablename in
  get tablename dbSchema = Some t ->
  (forall c, In c (getTableColumnsFromSchema dbDriver tablename) ->
     exists column, column_meta dbSchema tablename c = Ok (Some column)) ->
  await (mapDbTableToGraphqlType toCamelCase dbSchema dbDriver tablename) s =
    (mkSchema
       (set (field ++ "Page")%string (page_fields field)
          (set_fields field
             (foreign_fields toCamelCase dbSchema dbDriver tablename
                ++ reverse_fields toCamelCase dbSchema tablename)
             (set_fields field (scalar_fields dbSchema dbDriver tablename)
                (ensure_key field (types s)))))
       (inputs s), None).
Proof.
  intros field Ht Hd. unfold mapDbTableToGraphqlType. cbn [await].
  fold field.
  rewrite (seg_seq_ok _ _ s (ensure_type field s)) by reflexivity.
  rewrite ensure_type_eq.
  rewrite (seg_seq_ok _ _ _ _ (type_scalars_eq dbSchema dbDriver field
                                 tablename _ _)).
  pose proof (type_relations_eq toCamelCase dbSchema dbDriver tablename t)
    as H.
  cbv zeta in H. fold field in H.
  match goal with
  | |- seg_seq _ _ ?s1 = _ =>
      assert (Hhas : has field (types s1) = true)
        by (cbn [types]; rewrite has_set_fields, has_ensure_key;
            now rewrite String.eqb_refl);
      rewrite (seg_seq_ok _ _ _ _ (H s1 Ht Hd Hhas))
  end.
  reflexivity.
Qed.

Lemma await_query_field (f : string) (def : FieldDef) (s : Schema) :
  await [seg_skip;
         seg_seq (seg_pure (ensure_type "Query"))
           (set_type_field "Query" f def)] s =
    (mkSchema (set_field "Query" f def (ensure_key "Query" (types s)))
       (inputs s), None).
Proof.
  cbn [await]. rewrite (seg_seq_ok _ _ s s) by reflexivity.
  now rewrite (seg_seq_ok _ _ _ _ (query_field_eq f def s)).
Qed.

Lemma await_mutation (tablename : string) (s : Schema) :
  await (mapDbTableToGraphqlMutation toCamelCase tablename) s =
    (mkSchema
       (set_field "Mutation" (fst (mutation_entry toCamelCase tablename))
          (snd (mutation_entry toCamelCase tablename))
          (ensure_key "Mutation" (types s)))
       (inputs s), None).
Proof.
  unfold mapDbTableToGraphqlMutation. cbn [await].
  rewrite (seg_seq_ok _ _ s s) by reflexivity.
  rewrite (seg_seq_ok _ _ s (ensure_type "Mutation" s)) by reflexivity.
  rewrite ensure_type_eq.
  match goal with
  | |- seg_seq _ _ ?s1 = _ => rewrite (seg_seq_ok _ _ s1 s1) by reflexivity
  end.
  rewrite (seg_seq_ok _ _ _ _
             (set_type_field_eq "Mutation" _ _
                (mkSchema (ensure_key "Mutation" (types s)) (inputs s))
                ltac:(cbn [types]; now rewrite has_ensure_key))).
  reflexivity.
Qed.

Lemma await_input (tablename : string) (s : Schema) :
  let name := getInputName toCamelCase tablename in
  await (mapDbTableToGraphqlInput toCamelCase dbSchema dbDriver tablename) s =
    (mkSchema (types s)
       (set_fields name (input_fields dbSchema dbDriver tablename)
          (ensure_key name (inputs s))), None).
Proof.
  intros name. unfold mapDbTableToGraphqlInput. cbn [await]. fold name.
  rewrite (seg_seq_ok _ _ s s) by reflexivity.
  rewrite (seg_seq_ok _ _ s s) by reflexivity.
  rewrite (seg_seq_ok _ _ s (ensure_input name s)) by reflexivity.
  rewrite ensure_input_eq.
  rewrite (seg_seq_ok _ _ _ _ (input_scalars_eq dbSchema dbDriver name
                                 tablename _ _)).
  reflexivity.
Qed.

End WithDriver.
End PassFacts.

Section AwaitedBuildProperties.
Import JsString ObjectFacts ParserFacts Compiler QueueFacts SegmentFacts.
Import AwaitFacts PassFacts.
Variable toCamelCase : string -> string.
Variable dbSchema : DbSchema.
Variable dbDriver : Driver.

(** X26: buildSchemaByTable, which awaits its passes, on the empty
    schema. For a table of the schema whose enumerated columns are all
    described, none of them named [__proto__], and whose type name and
    page type name are neither Query nor Mutation, it ends without an exception and leaves four types, in
    this order: the type of the table, with its scalar fields, then its
    foreign relations, then its reverse relations (a later field of the
    same name replacing an earlier one in place); the page type of the
    table; Query, with the fields [<Type>GetPage] and [<Type>GetFirst];
    Mutation, with the field [<Type>PutItem]. It leaves one input,
    [<Type>Input], with the columns the driver maps. *)
Theorem buildSchemaByTable_on_empty_schema
    (tablename : string) (t : Table.t) :
  let field := toCamelCase tablename in
  get tablename dbSchema = Some t ->
  (forall c, In c (getTableColumnsFromSchema dbDriver tablename) ->
     exists column, column_meta dbSchema tablename c = Ok (Some column)) ->
  (forall c, In c (getTableColumnsFromSchema dbDriver tablename) ->
     c <> "__proto__") ->
  field <> "Query" -> field <> "Mutation" ->
  (field ++ "Page")%string <> "Query" ->
  (field ++ "Page")%string <> "Mutation" ->
  buildSchemaByTable toCamelCase dbSchema dbDriver tablename empty_schema =
    (mkSchema
       [(field,
         set_all (scalar_fields dbSchema dbDriver tablename
                  ++ foreign_fields toCamelCase dbSchema dbDriver tablename
                  ++ reverse_fields toCamelCase dbSchema tablename) []);
        ((field ++ "Page")%string, page_fields field);
        ("Query", query_entries toCamelCase tablename);
        ("Mutation", [mutation_entry toCamelCase tablename])]
       [(getInputName toCamelCase tablename,
         set_all (input_fields dbSchema dbDriver tablename) [])],
     None).
Proof.
  intros field Ht Hd _ Hq Hm Hpq Hpm.
  assert (Eq1 : String.eqb "Query" field = false)
    by (apply String.eqb_neq; congruence).
  assert (Em1 : String.eqb "Mutation" field = false)
    by (apply String.eqb_neq; congruence).
  assert (Eq2 : String.eqb "Query" (field ++ "Page") = false)
    by (apply String.eqb_neq; congruence).
  assert (Em2 : String.eqb "Mutation" (field ++ "Page") = false)
    by (apply String.eqb_neq; congruence).
  assert (Ep : String.eqb (field ++ "Page") field = false).
  { apply String.eqb_neq. intros H.
    apply (f_equal String.length) in H.
    rewrite NamingFacts.length_append in H. cbn in H. lia. }
  assert (Egf : String.eqb (field ++ "GetFirst") (field ++ "GetPage") = false).
  { apply String.eqb_neq. intros H.
    exact (NamingFacts.GetPage_is_not_GetFirst field field (eq_sym H)). }
  assert (Emq : String.eqb "Mutation" "Query" = false) by reflexivity.
  unfold buildSchemaByTable, passes. cbn [seg_each].
  pose proof (await_type toCamelCase dbSchema dbDriver tablename t
                empty_schema) as H1.
  cbv zeta in H1. rewrite (H1 Ht Hd). clear H1.
  unfold mapDbTableToGraphqlQuery, mapDbTableToGraphqlFirstOf.
  rewrite !await_query_field, await_mutation.
  pose proof (await_input toCamelCase dbSchema dbDriver tablename) as H5.
  cbv zeta in H5. rewrite H5. clear H5.
  fold field. cbn [types inputs empty_schema].
  f_equal. f_equal.
  - change (ensure_key field []) with [(field, @nil (string * FieldDef))].
    rewrite (set_fields_present field
               (scalar_fields dbSchema dbDriver tablename)
               [(field, [])] []) by apply get_single.
    rewrite set_single.
    rewrite (set_fields_present field _ _
               (set_all (scalar_fields dbSchema dbDriver tablename) []))
      by apply get_single.
    rewrite set_single, <- set_all_app.
    unfold query_entries, mutation_entry. fold field.
    repeat first
      [ rewrite String.eqb_refl | rewrite Eq1 | rewrite Eq2 | rewrite Em1
      | rewrite Em2 | rewrite Ep | rewrite Egf | rewrite Emq
      | progress cbn [get set fst snd]
      | progress unfold ensure_key, set_field, has ].
    reflexivity.
  - change (ensure_key (getInputName toCamelCase tablename) [])
      with [(getInputName toCamelCase tablename, @nil (string * string))].
    rewrite (set_fields_present _ _ _ []) by apply get_single.
    now rewrite set_single.
Qed.

End AwaitedBuildProperties.

(** The table [bar] of the README: the page type comes before Query *)
Lemma buildSchemaByTable_on_empty_schema_witness :
  map fst
    (Compiler.types
       (fst (Compiler.buildSchemaByTable Example.toCamelCase
               Example.dbSchema (Example.compilerDriver Example.dbSchema)
               "bar" Compiler.empty_schema)))
  = ["Bar"; "BarPage"; "Query"; "Mutation"].
Proof.
  rewrite (buildSchemaByTable_on_empty_schema Example.toCamelCase
             Example.dbSchema (Example.compilerDriver Example.dbSchema)
             "bar" Example.bar eq_refl).
  - reflexivity.
  - intros c Hc. vm_compute in Hc.
    destruct Hc as [<- | [<- | []]]; eexists; reflexivity.
  - intros c Hc. vm_compute in Hc.
    destruct Hc as [<- | [<- | []]]; discriminate.
  - discriminate.
  - discriminate.
  - discriminate.
  - discriminate.
Defined.

Module FrameFacts.
Import JsString ObjectFacts Compiler SegmentFacts.






End FrameFacts.

Section UnknownColumnProperties.
Import JsString ObjectFacts Compiler SegmentFacts AwaitFacts FrameFacts.
Variable toCamelCase : string -> string.
Variable dbSchema : DbSchema.
Variable dbDriver : Driver.


End UnknownColumnProperties.


Section TextProperties.
Import JsString ObjectFacts ParserFacts Compiler SegmentFacts.
Import AwaitFacts PassFacts.
Variable toCamelCase : string -> string.

Lemma get_registered_field {V} (k f : string) (v : V) (o : obj (obj V)) :
  exists fields,
    get k (set_field k f v (ensure_key k o)) = Some fields /\
    get f fields = Some v.
Proof.
  assert (Hh : has k (ensure_key k o) = true)
    by (rewrite has_ensure_key; now rewrite String.eqb_refl).
  unfold set_field. unfold has in Hh.
  destruct (get k (ensure_key k o)) as [fields|]; [|discriminate].
  exists (set f v fields). now rewrite !get_set_same.
Qed.

(** X28: the lines of the text that the passes of a table give rise to.
    On any schema, the field that mapDbTableToGraphqlQuery puts into
    Query is rendered
    [  <T>GetPage(filter: String, pagination: String, where: Condition,
    _debug: Boolean, _cache: Boolean): <T>Page], the field of
    mapDbTableToGraphqlFirstOf the same with the name [<T>GetFirst] and
    the type [<T>], and the field that mapDbTableToGraphqlMutation puts
    into Mutation is rendered
    [  <T>PutItem(_debug: Boolean, input: <T>Input!): <T>]; the block of
    the page type has the two lines [total: Int] and [items: [<T>]],
    without parameters. *)
Theorem default_fields_rendered (tablename : string) (s : Schema) :
  let T := toCamelCase tablename in
  (exists q def,
      get "Query"
        (types (fst (await (mapDbTableToGraphqlQuery toCamelCase tablename)
                       s))) = Some q /\
      get (T ++ "GetPage")%string q = Some def /\
      render_field def =
        ("  " ++ T
         ++ "GetPage(filter: String, pagination: String, where: Condition, _debug: Boolean, _cache: Boolean): "
         ++ T ++ "Page")%string) /\
  (exists q def,
      get "Query"
        (types (fst (await (mapDbTableToGraphqlFirstOf toCamelCase tablename)
                       s))) = Some q /\
      get (T ++ "GetFirst")%string q = Some def /\
      render_field def =
        ("  " ++ T
         ++ "GetFirst(filter: String, pagination: String, where: Condition, _debug: Boolean, _cache: Boolean): "
         ++ T)%string) /\
  (exists m def,
      get "Mutation"
        (types (fst (await (mapDbTableToGraphqlMutation toCamelCase
                              tablename) s))) = Some m /\
      get (T ++ "PutItem")%string m = Some def /\
      render_field def =
        ("  " ++ T ++ "PutItem(_debug: Boolean, input: " ++ T
         ++ "Input!): " ++ T)%string) /\
  type_block (T ++ "Page") (page_fields T) =
    ("type " ++ T ++ "Page {" ++ nl ++ "  total: Int" ++ nl
     ++ "  items: [" ++ T ++ "]" ++ nl ++ "}")%string.
Proof.
  intros T. split; [|split; [|split]].
  - unfold mapDbTableToGraphqlQuery. rewrite await_query_field.
    cbn [fst types]. fold T.
    destruct (get_registered_field "Query" (T ++ "GetPage")
                (mkField (T ++ "GetPage") (Named (T ++ "Page"))
                   (Some query_params)) (types s)) as (q & Hq & Hf).
    exists q. eexists. split; [exact Hq|]. split; [exact Hf|].
    unfold render_field. cbn [name type params].
    change (buildParamsFromObject query_params ", ")
      with "(filter: String, pagination: String, where: Condition, _debug: Boolean, _cache: Boolean)".
    rewrite !append_assoc. cbn [append]. reflexivity.
  - unfold mapDbTableToGraphqlFirstOf. rewrite await_query_field.
    cbn [fst types]. fold T.
    destruct (get_registered_field "Query" (T ++ "GetFirst")
                (mkField (T ++ "GetFirst") (Named T) (Some query_params))
                (types s)) as (q & Hq & Hf).
    exists q. eexists. split; [exact Hq|]. split; [exact Hf|].
    unfold render_field. cbn [name type params].
    change (buildParamsFromObject query_params ", ")
      with "(filter: String, pagination: String, where: Condition, _debug: Boolean, _cache: Boolean)".
    rewrite !append_assoc. cbn [append]. reflexivity.
  - rewrite await_mutation. cbn [fst types]. unfold mutation_entry.
    cbn [fst snd]. fold T.
    destruct (get_registered_field "Mutation" (T ++ "PutItem")
                (mkField (T ++ "PutItem") (Named T)
                   (Some [("_debug", "Boolean");
                          ("input",
                           (getInputName toCamelCase tablename ++ "!")
                           %string)])) (types s)) as (m & Hm & Hf).
    exists m. eexists. split; [exact Hm|]. split; [exact Hf|].
    unfold render_field, getInputName. fold T. cbn [name type params].
    unfold buildParamsFromObject.
    change (keys [("_debug", "Boolean");
                  ("input", ((T ++ "Input") ++ "!")%string)])
      with ["_debug"; "input"].
    cbn [flat_map get String.eqb Ascii.eqb Bool.eqb app join].
    rewrite !append_assoc. cbn [append]. reflexivity.
  - unfold type_block, page_fields.
    change (keys [("total", mkField "total" (Named "Int") (Some []));
                  ("items", mkField "items" (ListOf T) None)])
      with ["total"; "items"].
    cbn [flat_map get String.eqb Ascii.eqb Bool.eqb app join].
    unfold render_field. cbn [name type params].
    change (buildParamsFromObject [] ", ") with EmptyString.
    unfold nl. rewrite !append_assoc. cbn [append]. reflexivity.
Qed.

End TextProperties.

(* ================================================================== *)
(** * The single-record fetch, and reverse relations of one table *)
(* ================================================================== *)

Section FetchProperties.
Import JsString ObjectFacts Resolver RegistryFacts BuildEachFacts.
Variable D : Type.
Variable dbDriver : option (Driver.t D).
Variable toCamelCase : string -> string.

(** GetFirstOf never touches the context objects. When
    parseArgsCommon throws it throws the same exception and the driver
    is not called; otherwise it makes one call of the driver, [firstOf]
    on the table with the parsed arguments, and returns or throws what
    this call returns or throws, leaving the database as the call left
    it. *)
Theorem GetFirstOf_driver_calls
    (tablename : string) (parent : value) (args : obj value)
    (context : option loc) (w : World D) :
  let out := GetFirstOf D dbDriver tablename parent args context w in
  heap D (snd out) = heap D w /\
  (forall e, parseArgsCommon tablename args = Throw e -> out = (Throw e, w)) /\
  (forall parsed d,
     parseArgsCommon tablename args = Ok parsed -> dbDriver = Some d ->
     fst out = fst (Driver.firstOf d tablename parsed (store D w)) /\
     store D (snd out) = snd (Driver.firstOf d tablename parsed (store D w)) /\
     calls D (snd out) = calls D w ++ [CallFirstOf tablename parsed]).
Proof.
  cbv zeta. unfold GetFirstOf, bind, lift, with_driver, driver_call, throw.
  destruct (parseArgsCommon tablename args) as [parsed|e].
  - destruct dbDriver as [d|].
    + destruct (Driver.firstOf d tablename parsed (store D w)) as [r d'] eqn:E.
      cbn [heap store calls fst snd].
      split; [reflexivity|]. split; [discriminate|].
      intros parsed' d0 [= <-] [= <-]. rewrite E. now cbn [fst snd].
    + split; [reflexivity|]. split; discriminate.
  - split; [reflexivity|]. split; [now intros e' [= <-] | discriminate].
Qed.

(** X30: the field of a reverse relation is named after the referring
    table alone, so two reverse relations of a table that come from the
    same table share one field, and the later one replaces the earlier.
    createReverseRelationsResolvers never throws for a table of the
    schema, and after it the type of the table holds, under the name of
    a referring table, the resolver of the last reverse relation that
    comes from this table. *)
Theorem createReverseRelationsResolvers_last_wins
    (d : Driver.t D) (tablename : string) (t : Table.t) (r : Reverse.t)
    (before after : list Reverse.t) (rs : Resolvers D) :
  get tablename (Driver.dbSchema d) = Some t ->
  Table.__reverse t = before ++ r :: after ->
  Forall (fun r' => Reverse.ftablename r' <> Reverse.ftablename r) after ->
  let out :=
    createReverseRelationsResolvers D dbDriver toCamelCase d tablename rs in
  snd out = None /\
  resolver_at D (toCamelCase tablename) (Reverse.ftablename r) (fst out)
    = Some (reverse_resolver D dbDriver r).
Proof.
  intros Ht Hr Hafter out. unfold out, createReverseRelationsResolvers.
  rewrite Ht, Hr.
  set (step := fun (r0 : Reverse.t) (rs0 : Resolvers D) =>
                 (register D (toCamelCase tablename) (Reverse.ftablename r0)
                    (reverse_resolver D dbDriver r0) rs0, @None error)).
  assert (Hok : forall l rs0, snd (build_each D step l rs0) = None).
  { induction l as [|x l IH]; intros rs0; [reflexivity|].
    cbn [build_each]. unfold step at 1. apply IH. }
  split; [apply Hok|].
  rewrite build_each_app.
  pose proof (Hok before rs) as Hb.
  destruct (build_each D step before rs) as [rs1 o]. cbn [snd] in Hb.
  subst o. cbn [build_each]. unfold step at 1.
  apply (build_each_invariant D step
           (fun rs0 =>
              resolver_at D (toCamelCase tablename) (Reverse.ftablename r) rs0
              = Some (reverse_resolver D dbDriver r))).
  - intros x rs0 Hx H0. unfold step. cbn [fst].
    rewrite register_at_other; [exact H0|]. right.
    rewrite Forall_forall in Hafter. intros E. now apply (Hafter x Hx).
  - apply register_at_same.
Qed.

End FetchProperties.

(** The two reverse relations of [people] from [posts]: the field
    [posts] holds the resolver of the relation by [editor_id] *)
Lemma createReverseRelationsResolvers_last_wins_witness :
  Resolver.resolver_at nat "People" "posts"
    (fst (Resolver.createReverseRelationsResolvers nat
            (Some Example.pressDriver) Example.toCamelCase
            Example.pressDriver "people" []))
  = Some (Resolver.reverse_resolver nat (Some Example.pressDriver)
            (Reverse.mk "posts" "editor_id" "id")).
Proof.
  exact (proj2 (createReverseRelationsResolvers_last_wins nat
                  (Some Example.pressDriver) Example.toCamelCase
                  Example.pressDriver "people" Example.people
                  (Reverse.mk "posts" "editor_id" "id")
                  [Reverse.mk "posts" "author_id" "id"] [] []
                  eq_refl eq_refl (Forall_nil _))).
Defined.

(* ================================================================== *)
(** * The build that awaits every pass *)
(* ================================================================== *)

Module AsyncFacts.
Import JsString ObjectFacts ParserFacts Compiler QueueFacts SegmentFacts.
Import AwaitFacts PassFacts.

(** A loop whose steps are assignments to the types and to the inputs *)
Lemma seg_each_steps {A} (f : A -> segment)
    (TY : A -> obj (obj FieldDef) -> obj (obj FieldDef))
    (IN : A -> obj (obj string) -> obj (obj string)) (l : list A) :
  (forall x s, In x l ->
     f x s = (mkSchema (TY x (types s)) (IN x (inputs s)), None)) ->
  forall s,
    seg_each f l s =
      (mkSchema (fold_left (fun tys x => TY x tys) l (types s))
         (fold_left (fun ins x => IN x ins) l (inputs s)), None).
Proof.
  induction l as [|x l IH]; intros Hf s.
  - cbn. now rewrite schema_eta.
  - cbn [seg_each fold_left]. rewrite Hf by now left.
    rewrite IH; [reflexivity|]. intros y s' Hy. apply Hf. now right.
Qed.

Lemma flat_pairs_perm {A B} (f g : A -> B) (l : list A) :
  Permutation (flat_map (fun x => [f x; g x]) l) (map f l ++ map g l).
Proof.
  induction l as [|x l IH]; [constructor|].
  cbn [flat_map map app]. apply perm_skip.
  etransitivity; [apply perm_skip; exact IH|].
  apply Permutation_middle.
Qed.

Section WithDriver.
Variable toCamelCase : string -> string.
Variable dbSchema : DbSchema.
Variable dbDriver : Driver.
Hypothesis described : columns_described dbSchema dbDriver.

Local Abbreviation tables := (tables dbSchema).
Local Abbreviation camel := toCamelCase.
Local Abbreviation page_name := (fun x => (toCamelCase x ++ "Page")%string).
Local Abbreviation table_types := (table_types toCamelCase dbSchema dbDriver).
Local Abbreviation table_inputs :=
  (table_inputs toCamelCase dbSchema dbDriver).
Local Abbreviation table_entries :=
  (table_entries toCamelCase dbSchema dbDriver).
Local Abbreviation query_entries := (query_entries toCamelCase).
Local Abbreviation mutation_entry := (mutation_entry toCamelCase).
Local Abbreviation expected_fields :=
  (expected_fields toCamelCase dbSchema dbDriver).

(** The awaited passes of a table, as assignments *)
Lemma buildSchemaByTable_eq (tablename : string) (s : Schema) :
  In tablename tables ->
  buildSchemaByTable toCamelCase dbSchema dbDriver tablename s =
    (mkSchema (table_types tablename (types s))
       (table_inputs tablename (inputs s)), None).
Proof.
  intros Hin. destruct (In_tables_get dbSchema tablename Hin) as [t Ht].
  unfold buildSchemaByTable, passes. cbn [seg_each].
  pose proof (await_type toCamelCase dbSchema dbDriver tablename t s) as H1.
  cbv zeta in H1.
  rewrite (H1 Ht (fun c Hc => proj2 (described tablename c Hin Hc))).
  clear H1.
  unfold mapDbTableToGraphqlQuery, mapDbTableToGraphqlFirstOf.
  rewrite !await_query_field, await_mutation.
  pose proof (await_input toCamelCase dbSchema dbDriver tablename) as H5.
  cbv zeta in H5. rewrite H5. clear H5.
  cbn [types inputs]. unfold Compiler.table_types, Compiler.table_inputs.
  f_equal. f_equal.
  rewrite <- set_fields_app.
  match goal with
  | |- context [ensure_key "Query" (set_field "Query" ?f ?d ?o)] =>
      rewrite (LayerFacts.ensure_key_present "Query" (set_field "Query" f d o))
        by (rewrite has_set_field, has_ensure_key; reflexivity)
  end.
  reflexivity.
Qed.

Lemma async_buildSchema_eq (s : Schema) :
  async_buildSchema toCamelCase dbSchema dbDriver s =
    (mkSchema (fold_left (fun tys x => table_types x tys) tables (types s))
       (fold_left (fun ins x => table_inputs x ins) tables (inputs s)),
     None).
Proof.
  unfold async_buildSchema. apply seg_each_steps.
  intros x s' Hx. now apply buildSchemaByTable_eq.
Qed.

End WithDriver.
End AsyncFacts.

Module AsyncContent.
Import JsString ObjectFacts ParserFacts Compiler QueueFacts SegmentFacts.
Import AwaitFacts PassFacts AsyncFacts.

Lemma NoDup_middle {A} (l1 l2 : list A) (x : A) :
  NoDup (l1 ++ x :: l2) -> ~ In x l1 /\ ~ In x l2.
Proof.
  intros H. apply NoDup_remove_2 in H.
  split; intros Hin; apply H; apply in_or_app; auto.
Qed.

Section WithDriver.
Variable toCamelCase : string -> string.
Variable dbSchema : DbSchema.
Variable dbDriver : Driver.
Hypothesis distinct : names_distinct toCamelCase dbSchema dbDriver.

Local Abbreviation tables := (tables dbSchema).
Local Abbreviation camel := toCamelCase.
Local Abbreviation page_name := (fun x => (toCamelCase x ++ "Page")%string).
Local Abbreviation input_name := (getInputName toCamelCase).
Local Abbreviation table_types := (table_types toCamelCase dbSchema dbDriver).
Local Abbreviation table_inputs :=
  (table_inputs toCamelCase dbSchema dbDriver).
Local Abbreviation table_entries :=
  (table_entries toCamelCase dbSchema dbDriver).
Local Abbreviation query_entries := (query_entries toCamelCase).
Local Abbreviation mutation_entry := (mutation_entry toCamelCase).
Local Abbreviation expected_fields :=
  (expected_fields toCamelCase dbSchema dbDriver).
Local Abbreviation input_fields := (input_fields dbSchema dbDriver).
Local Abbreviation names := (fun x => [camel x; page_name x]).

(** The fields of the type of a table, assigned to a new type *)
Lemma new_type_fields (tablename : string) :
  In tablename tables ->
  set_fields (camel tablename)
    (scalar_fields dbSchema dbDriver tablename
     ++ foreign_fields toCamelCase dbSchema dbDriver tablename
     ++ reverse_fields toCamelCase dbSchema tablename)
    [(camel tablename, [])]
  = [(camel tablename, expected_fields tablename)].
Proof.
  intros Ht.
  rewrite (set_fields_present (camel tablename) _ _ []) by apply get_single.
  rewrite set_single. f_equal. f_equal.
  apply LayerFacts.set_all_distinct. exact (proj2 distinct tablename Ht).
Qed.

(** The inputs: a new input per table *)
Lemma table_inputs_next (tablename : string) (acc : obj (obj string)) :
  In tablename tables ->
  ~ In (input_name tablename) (map fst acc) ->
  table_inputs tablename acc
  = acc ++ [(input_name tablename, input_fields tablename)].
Proof.
  intros Ht Hn. unfold Compiler.table_inputs.
  rewrite <- (app_nil_r acc) at 1.
  rewrite ensure_key_app_r by assumption.
  rewrite set_fields_app_r by assumption.
  change (ensure_key (input_name tablename) [])
    with [(input_name tablename, @nil (string * string))].
  rewrite (set_fields_present _ _ _ []) by apply get_single.
  rewrite set_single. f_equal. f_equal. f_equal.
  now apply (LayerFacts.input_fields_eq toCamelCase dbSchema dbDriver).
Qed.

Lemma fold_table_inputs (rest : list string) :
  forall acc,
    incl rest tables ->
    NoDup (map fst acc ++ map input_name rest) ->
    fold_left (fun ins x => table_inputs x ins) rest acc
    = acc ++ zone input_name input_fields rest.
Proof.
  induction rest as [|x rest IH]; intros acc Hincl Hnd.
  - cbn. now rewrite app_nil_r.
  - cbn [fold_left]. cbn [map] in Hnd.
    destruct (NoDup_middle _ _ _ Hnd) as [Hx _].
    rewrite table_inputs_next by (auto; apply Hincl; now left).
    rewrite IH.
    + rewrite <- app_assoc. reflexivity.
    + intros y Hy. apply Hincl. now right.
    + rewrite map_app. cbn [map fst]. rewrite <- app_assoc. exact Hnd.
Qed.

(** The types: the passes of the first table *)
Lemma table_types_first (tablename : string) :
  In tablename tables ->
  NoDup (names tablename ++ ["Query"; "Mutation"]) ->
  table_types tablename []
  = table_entries tablename
    ++ [("Query", set_all (query_entries tablename) []);
        ("Mutation", set_all [mutation_entry tablename] [])].
Proof.
  intros Ht Hnd. unfold Compiler.table_types.
  change (ensure_key (camel tablename) [])
    with [(camel tablename, @nil (string * FieldDef))].
  rewrite (new_type_fields tablename Ht).
  assert (Hp : ~ In (page_name tablename)
                 (map fst [(camel tablename, expected_fields tablename)])).
  { cbn. intros [E | []]. inversion Hnd as [|? ? Hx _]; subst.
    apply Hx. left. now symmetry. }
  rewrite (set_fresh _ _ _ Hp). cbn [app].
  fold (page_entry toCamelCase tablename).
  fold (Compiler.table_entries toCamelCase dbSchema dbDriver tablename).
  assert (HQ : ~ In "Query" (map fst (table_entries tablename))).
  { change (map fst (table_entries tablename)) with (names tablename).
    apply (NoDup_middle _ ["Mutation"] "Query" Hnd). }
  assert (HM : ~ In "Mutation" (map fst (table_entries tablename))).
  { change (map fst (table_entries tablename)) with (names tablename).
    change (names tablename ++ ["Query"; "Mutation"])
      with (names tablename ++ "Query" :: "Mutation" :: []) in Hnd.
    intros Hin.
    assert (H : NoDup ((names tablename ++ ["Query"]) ++ "Mutation" :: []))
      by (rewrite <- app_assoc; exact Hnd).
    apply (NoDup_middle _ _ _) in H. apply (proj1 H).
    apply in_or_app. now left. }
  rewrite <- (app_nil_r (table_entries tablename)) at 1.
  rewrite (ensure_key_app_r "Query") by assumption.
  rewrite (set_fields_app_r "Query") by assumption.
  change (ensure_key "Query" [])
    with [("Query", @nil (string * FieldDef))].
  rewrite (set_fields_present "Query" _ _ []) by reflexivity.
  change (set "Query" (set_all (query_entries tablename) [])
            [("Query", [])])
    with [("Query", set_all (query_entries tablename) [])].
  rewrite (ensure_key_app_r "Mutation") by assumption.
  rewrite (set_fields_app_r "Mutation") by assumption.
  reflexivity.
Qed.

(** The types: the passes of a later table *)
Lemma table_types_next (tablename : string)
    (head pairs : obj (obj FieldDef)) (q m : obj FieldDef) :
  In tablename tables ->
  NoDup (map fst head ++ ["Query"; "Mutation"] ++ map fst pairs
         ++ names tablename) ->
  table_types tablename (head ++ [("Query", q); ("Mutation", m)] ++ pairs)
  = head
    ++ [("Query", set_all (query_entries tablename) q);
        ("Mutation", set_all [mutation_entry tablename] m)]
    ++ pairs ++ table_entries tablename.
Proof.
  intros Ht Hnd.
  set (L := head ++ [("Query", q); ("Mutation", m)] ++ pairs).
  assert (HK : map fst L
               = map fst head ++ ["Query"; "Mutation"] ++ map fst pairs).
  { unfold L. now rewrite !map_app. }
  assert (Hnd' : NoDup (map fst L ++ names tablename)).
  { rewrite HK. rewrite <- !app_assoc. exact Hnd. }
  assert (Hc : ~ In (camel tablename) (map fst L)).
  { exact (proj1 (NoDup_middle _ _ _ Hnd')). }
  assert (Hp : ~ In (page_name tablename)
                 (map fst (L ++ [(camel tablename,
                                  expected_fields tablename)]))).
  { rewrite map_app. cbn [map fst].
    assert (H : NoDup ((map fst L ++ [camel tablename])
                       ++ page_name tablename :: []))
      by (rewrite <- app_assoc; exact Hnd').
    exact (proj1 (NoDup_middle _ _ _ H)). }
  assert (HQ : ~ In "Query" (map fst head)).
  { exact (proj1 (NoDup_middle _ _ _ Hnd)). }
  assert (HM : ~ In "Mutation" (map fst head)).
  { assert (H : NoDup ((map fst head ++ ["Query"])
                       ++ "Mutation" :: map fst pairs ++ names tablename))
      by (rewrite <- app_assoc; exact Hnd).
    intros Hin. apply (proj1 (NoDup_middle _ _ _ H)).
    apply in_or_app. now left. }
  unfold Compiler.table_types.
  rewrite <- (app_nil_r L) at 1.
  rewrite (ensure_key_app_r (camel tablename)) by assumption.
  rewrite (set_fields_app_r (camel tablename)) by assumption.
  change (ensure_key (camel tablename) [])
    with [(camel tablename, @nil (string * FieldDef))].
  rewrite (new_type_fields tablename Ht).
  rewrite (set_fresh _ _ _ Hp).
  unfold L. rewrite <- !app_assoc. cbn [app].
  rewrite (ensure_key_app_r "Query") by assumption.
  rewrite (set_fields_app_r "Query") by assumption.
  match goal with
  | |- context [set_fields "Query" ?kvs (ensure_key "Query" ?o)] =>
      change (ensure_key "Query" o) with o;
      rewrite (set_fields_present "Query" kvs o q) by reflexivity
  end.
  cbn [set String.eqb Ascii.eqb Bool.eqb].
  rewrite (ensure_key_app_r "Mutation") by assumption.
  rewrite (set_fields_app_r "Mutation") by assumption.
  match goal with
  | |- context [set_fields "Mutation" ?kvs (ensure_key "Mutation" ?o)] =>
      change (ensure_key "Mutation" o) with o;
      rewrite (set_fields_present "Mutation" kvs o m) by reflexivity
  end.
  cbn [set String.eqb Ascii.eqb Bool.eqb].
  reflexivity.
Qed.

Lemma fold_table_types (rest : list string) :
  forall (head pairs : obj (obj FieldDef)) (q m : obj FieldDef),
    incl rest tables ->
    NoDup (map fst head ++ ["Query"; "Mutation"] ++ map fst pairs
           ++ flat_map names rest) ->
    fold_left (fun tys x => table_types x tys) rest
      (head ++ [("Query", q); ("Mutation", m)] ++ pairs)
    = head
      ++ [("Query", set_all (flat_map query_entries rest) q);
          ("Mutation", set_all (map mutation_entry rest) m)]
      ++ pairs ++ flat_map table_entries rest.
Proof.
  induction rest as [|x rest IH]; intros head pairs q m Hincl Hnd.
  - cbn [fold_left flat_map map]. now rewrite app_nil_r.
  - cbn [fold_left]. rewrite table_types_next.
    + rewrite IH.
      * cbn [flat_map map]. rewrite !set_all_app, <- !app_assoc.
        reflexivity.
      * intros y Hy. apply Hincl. now right.
      * rewrite map_app. cbn [flat_map] in Hnd.
        change (map fst (table_entries x)) with (names x).
        rewrite <- ?app_assoc. rewrite <- ?app_assoc in Hnd. exact Hnd.
    + apply Hincl. now left.
    + cbn [flat_map] in Hnd.
      assert (H : NoDup ((map fst head ++ ["Query"; "Mutation"]
                          ++ map fst pairs ++ names x)
                         ++ flat_map names rest))
        by (rewrite <- ?app_assoc; rewrite <- ?app_assoc in Hnd; exact Hnd).
      exact (NoDup_app_remove_r _ _ H).
Qed.

End WithDriver.
End AsyncContent.

Section AwaitedOrderProperties.
Import JsString ObjectFacts ParserFacts Compiler QueueFacts SegmentFacts.
Import AwaitFacts PassFacts AsyncFacts AsyncContent.
Variable toCamelCase : string -> string.
Variable dbSchema : DbSchema.
Variable dbDriver : Driver.

(** X29: async_buildSchema, the build that awaits every pass, gives the
    types and the inputs of the build that does not, in another order.
    On the empty schema, when the schema describes every enumerated
    column, none of them named [__proto__], and the generated names do
    not collide, it ends without an
    exception and leaves the type and the page type of the first table,
    then Query and Mutation, then the type and the page type of every
    other table, in table order; the fields of every type, and the
    inputs, are those of the other build: one input per table, in table
    order. *)
Theorem async_buildSchema_awaited_order :
  columns_described dbSchema dbDriver ->
  names_distinct toCamelCase dbSchema dbDriver ->
  async_buildSchema toCamelCase dbSchema dbDriver empty_schema =
    (mkSchema (awaited_types toCamelCase dbSchema dbDriver)
       (expected_inputs toCamelCase dbSchema dbDriver), None) /\
  Permutation (awaited_types toCamelCase dbSchema dbDriver)
    (types (built toCamelCase dbSchema dbDriver)) /\
  expected_inputs toCamelCase dbSchema dbDriver
    = inputs (built toCamelCase dbSchema dbDriver).
Proof.
  intros Hd Hn.
  assert (B : built toCamelCase dbSchema dbDriver
              = expected_schema toCamelCase dbSchema dbDriver).
  { unfold built. now rewrite LayerFacts.settle_expected. }
  rewrite B. unfold expected_schema at 1 2. cbn [types inputs].
  split; [|split; [|reflexivity]].
  - rewrite async_buildSchema_eq by exact Hd.
    cbn [types inputs empty_schema]. f_equal. f_equal.
    + pose proof (LayerFacts.type_keys_distinct toCamelCase dbSchema dbDriver
                    Hn) as Hk.
      pose proof (LayerFacts.query_fields_eq toCamelCase dbSchema dbDriver Hn)
        as HQ.
      pose proof (LayerFacts.mutation_fields_eq toCamelCase dbSchema dbDriver
                    Hn) as HM.
      unfold awaited_types, query_fields, mutation_fields in *.
      unfold special_keys in Hk.
      remember (tables dbSchema) as l eqn:E.
      assert (Hincl : incl l (tables dbSchema))
        by (rewrite <- E; apply incl_refl).
      clear E. destruct l as [|x rest]; [reflexivity|].
      cbn [fold_left].
      assert (Hperm :
        Permutation
          (map toCamelCase (x :: rest) ++ ["Query"; "Mutation"]
           ++ map (fun x => (toCamelCase x ++ "Page")%string) (x :: rest))
          ([toCamelCase x; (toCamelCase x ++ "Page")%string]
           ++ ["Query"; "Mutation"]
           ++ flat_map (fun x => [toCamelCase x;
                                  (toCamelCase x ++ "Page")%string]) rest)).
      { cbn [map app]. apply perm_skip.
        etransitivity;
          [|apply perm_skip; apply perm_skip; apply perm_skip;
            symmetry; apply flat_pairs_perm].
        etransitivity; [symmetry; apply Permutation_middle|].
        etransitivity;
          [apply perm_skip; symmetry; apply Permutation_middle|].
        etransitivity;
          [apply perm_skip; apply perm_skip; symmetry;
           apply Permutation_middle|].
        etransitivity; [apply perm_skip; apply perm_swap|].
        apply perm_swap. }
      pose proof (Permutation_NoDup Hperm Hk) as Hnd.
      rewrite (table_types_first toCamelCase dbSchema dbDriver Hn x).
      * pose proof (fold_table_types toCamelCase dbSchema dbDriver Hn rest
                      (table_entries toCamelCase dbSchema dbDriver x) []
                      (set_all (query_entries toCamelCase x) [])
                      (set_all [mutation_entry toCamelCase x] [])
                      (fun y Hy => Hincl y (or_intror Hy))) as E.
        cbn [app map fst] in E. rewrite (E Hnd). clear E.
        rewrite <- HQ, <- HM. cbn [flat_map map app].
        rewrite !set_all_app. reflexivity.
      * apply Hincl. now left.
      * assert (H : NoDup (([toCamelCase x; (toCamelCase x ++ "Page")%string]
                            ++ ["Query"; "Mutation"])
                           ++ flat_map (fun x =>
                                [toCamelCase x;
                                 (toCamelCase x ++ "Page")%string]) rest))
          by (rewrite <- app_assoc; exact Hnd).
        exact (NoDup_app_remove_r _ _ H).
    + rewrite (fold_table_inputs toCamelCase dbSchema dbDriver Hn).
      * reflexivity.
      * apply incl_refl.
      * exact (LayerFacts.input_names_distinct toCamelCase dbSchema dbDriver
                 Hn).
  - unfold awaited_types, expected_types, table_entries.
    destruct (tables dbSchema) as [|x rest]; [constructor|].
    cbn [zone map app flat_map]. apply perm_skip.
    etransitivity;
      [apply perm_skip; apply perm_skip; apply perm_skip;
       apply (flat_pairs_perm
                (fun x => (toCamelCase x,
                           expected_fields toCamelCase dbSchema dbDriver x))
                (page_entry toCamelCase))|].
    etransitivity; [apply perm_swap|].
    etransitivity; [apply perm_skip; apply perm_swap|].
    symmetry.
    etransitivity; [symmetry; apply Permutation_middle|]. apply perm_skip.
    etransitivity; [symmetry; apply Permutation_middle|]. apply perm_skip.
    symmetry. apply Permutation_middle.
Qed.

End AwaitedOrderProperties.

(** The tables of the README: the page type of [foo] comes before Query,
    and the types of [bar] come last *)
Lemma async_buildSchema_awaited_order_witness :
  map fst
    (Compiler.types
       (fst (Compiler.async_buildSchema Example.toCamelCase Example.dbSchema
               (Example.compilerDriver Example.dbSchema)
               Compiler.empty_schema)))
  = ["Foo"; "FooPage"; "Query"; "Mutation"; "Bar"; "BarPage"].
Proof.
  rewrite (proj1 (async_buildSchema_awaited_order Example.toCamelCase
                    Example.dbSchema
                    (Example.compilerDriver Example.dbSchema)
                    ExampleFacts.readme_described
                    ExampleFacts.readme_distinct)).
  reflexivity.
Defined.

(* ================================================================== *)
(** * A column that the driver does not map *)
(* ================================================================== *)

Module FieldFacts.
Import JsString ObjectFacts Compiler.

Section Facts.
Context {V : Type}.

Lemma set_all_snoc (kvs : list (string * V)) (k : string) (v : V)
    (o : obj V) :
  set_all (kvs ++ [(k, v)]) o = set k v (set_all kvs o).
Proof. now rewrite set_all_app. Qed.

(** An assignment to another key leaves the key as it was *)
Lemma get_set_all_other (k : string) (kvs : list (string * V)) :
  forall o : obj V,
    ~ In k (map fst kvs) -> get k (set_all kvs o) = get k o.
Proof.
  induction kvs as [|[k' v'] kvs IH]; intros o H; [reflexivity|].
  change (set_all ((k', v') :: kvs) o) with (set_all kvs (set k' v' o)).
  cbn [map fst] in H. rewrite IH by (intros Hin; apply H; now right).
  apply get_set_other. intros ->. apply H. now left.
Qed.

(** The key holds the value of its last assignment; here all the
    assignments to it write the same value *)
Lemma get_set_all_same (k : string) (v : V) (kvs : list (string * V)) :
  forall o : obj V,
    In (k, v) kvs -> (forall v', In (k, v') kvs -> v' = v) ->
    get k (set_all kvs o) = Some v.
Proof.
  induction kvs as [|[k' v'] kvs IH] using rev_ind; intros o Hin Hall;
    [destruct Hin|].
  rewrite set_all_snoc. destruct (string_dec k k') as [<- | Hne].
  - rewrite (Hall v') by (apply in_or_app; right; now left).
    apply get_set_same.
  - rewrite get_set_other by assumption. apply IH.
    + apply in_app_or in Hin. destruct Hin as [Hin | [[= -> _] | []]];
        [assumption | congruence].
    + intros v0 H0. apply Hall. apply in_or_app. now left.
Qed.

Lemma has_set_all (k : string) (kvs : list (string * V)) :
  forall o : obj V,
    has k (set_all kvs o) = (existsb (String.eqb k) (map fst kvs) || has k o)%bool.
Proof.
  induction kvs as [|[k' v'] kvs IH]; intros o; [reflexivity|].
  change (set_all ((k', v') :: kvs) o) with (set_all kvs (set k' v' o)).
  rewrite IH. cbn [map fst existsb].
  assert (E : has k (set k' v' o) = (String.eqb k k' || has k o)%bool).
  { unfold has. destruct (String.eqb k k') eqn:Ek.
    - apply String.eqb_eq in Ek. subst. now rewrite get_set_same.
    - apply String.eqb_neq in Ek. now rewrite get_set_other. }
  rewrite E. destruct (String.eqb k k'), (existsb (String.eqb k) (map fst kvs));
    reflexivity.
Qed.

Lemma get_ensure_key (k : string) (o : obj (obj V)) :
  get k (ensure_key k o) =
    Some (match get k o with Some fields => fields | None => [] end).
Proof.
  unfold ensure_key, has. destruct (get k o) as [fields|] eqn:E;
    [exact E | apply get_set_same].
Qed.

End Facts.

Lemma page_name_differs (field : string) :
  field <> (field ++ "Page")%string.
Proof.
  intros H. apply (f_equal String.length) in H.
  rewrite NamingFacts.length_append in H. cbn in H. lia.
Qed.

Section WithDriver.
Variable dbSchema : DbSchema.
Variable dbDriver : Driver.

(** A column without a type has no scalar field and no input field *)
Lemma scalar_fields_unmapped (tablename c : string) (e : error) :
  column_type dbSchema dbDriver tablename c = Throw e ->
  ~ In c (map fst (scalar_fields dbSchema dbDriver tablename)).
Proof.
  intros He. unfold scalar_fields. intros H. apply in_map_iff in H.
  destruct H as ([k def] & Hk & H). cbn [fst] in Hk. subst k.
  apply in_flat_map in H. destruct H as (c' & _ & H).
  unfold scalar_entry in H.
  destruct (column_type dbSchema dbDriver tablename c') eqn:E;
    [|destruct H].
  destruct H as [[= -> _] | []]. congruence.
Qed.

Lemma input_fields_unmapped (tablename c : string) (e : error) :
  column_type dbSchema dbDriver tablename c = Throw e ->
  ~ In c (map fst (input_fields dbSchema dbDriver tablename)).
Proof.
  intros He. unfold input_fields. intros H. apply in_map_iff in H.
  destruct H as ([k ty] & Hk & H). cbn [fst] in Hk. subst k.
  apply in_flat_map in H. destruct H as (c' & _ & H).
  unfold input_entry in H.
  destruct (column_type dbSchema dbDriver tablename c') eqn:E;
    [|destruct H].
  destruct H as [[= -> _] | []]. congruence.
Qed.

(** A column with a type has the scalar field and the input field of
    that type, and no other *)
Lemma scalar_fields_mapped (tablename c ty : string) :
  In c (getTableColumnsFromSchema dbDriver tablename) ->
  column_type dbSchema dbDriver tablename c = Ok ty ->
  In (c, mkField c (Named ty) (Some []))
    (scalar_fields dbSchema dbDriver tablename) /\
  forall def, In (c, def) (scalar_fields dbSchema dbDriver tablename) ->
              def = mkField c (Named ty) (Some []).
Proof.
  intros Hc Hty. split.
  - unfold scalar_fields. apply in_flat_map. exists c. split; auto.
    unfold scalar_entry. rewrite Hty. now left.
  - intros def H. unfold scalar_fields in H. apply in_flat_map in H.
    destruct H as (c' & _ & H). unfold scalar_entry in H.
    destruct (column_type dbSchema dbDriver tablename c') eqn:E;
      [|destruct H].
    destruct H as [[= -> <-] | []]. congruence.
Qed.

Lemma input_fields_mapped (tablename c ty : string) :
  In c (getTableColumnsFromSchema dbDriver tablename) ->
  column_type dbSchema dbDriver tablename c = Ok ty ->
  In (c, ty) (input_fields dbSchema dbDriver tablename) /\
  forall ty', In (c, ty') (input_fields dbSchema dbDriver tablename) ->
              ty' = ty.
Proof.
  intros Hc Hty. split.
  - unfold input_fields. apply in_flat_map. exists c. split; auto.
    unfold input_entry. rewrite Hty. now left.
  - intros ty' H. unfold input_fields in H. apply in_flat_map in H.
    destruct H as (c' & _ & H). unfold input_entry in H.
    destruct (column_type dbSchema dbDriver tablename c') eqn:E;
      [|destruct H].
    destruct H as [[= -> <-] | []]. congruence.
Qed.

End WithDriver.
End FieldFacts.

Section CompilerProperties.
Import Compiler ObjectFacts QueueFacts SegmentFacts BuildFacts.
Import AwaitFacts PassFacts FieldFacts.
Variable toCamelCase : string -> string.
Variable dbSchema : DbSchema.
Variable dbDriver : Driver.

(** C7: when the driver fails to map a column [c] of a table none of
    whose columns is named [__proto__], the failure is recovered where
    it happens. In mapDbTableToGraphqlType and, by a
    decision of its own, in mapDbTableToGraphqlInput, the callback for
    [c] returns without an exception and leaves the schema as it was;
    the pass over the columns assigns one field for every column the
    driver maps, none for [c], and does not throw.

    After [await mapDbTableToGraphqlType(tablename)], for a table whose
    columns the schema describes, no exception is thrown and the type of
    the table has a field for every column the driver maps, the scalar
    field of the mapped type unless a relation of that name overrides
    it, and under [c] what it had before the pass, unless a relation has
    that name. After [await mapDbTableToGraphqlInput(tablename)] no
    exception is thrown and the input of the table has the field of the
    mapped type for every column the driver maps, and under [c] what it
    had before the pass: on a new schema, no field.

    No pass of the table and no build fails when the schema describes
    the columns the driver enumerates: [buildSchemaByTable] and
    [async_buildSchema] end without an exception, and [buildSchema] ends
    with no pass rejected and nothing left to run. *)
Theorem C7_column_mapping_failure_is_local
    (tablename c : string) (e : error) :
  In tablename (tables dbSchema) ->
  In c (getTableColumnsFromSchema dbDriver tablename) ->
  column_type dbSchema dbDriver tablename c = Throw e ->
  (forall c0, In c0 (getTableColumnsFromSchema dbDriver tablename) ->
     c0 <> "__proto__") ->
  let field := toCamelCase tablename in
  let name := getInputName toCamelCase tablename in
  let cols := getTableColumnsFromSchema dbDriver tablename in
  let relations :=
    foreign_fields toCamelCase dbSchema dbDriver tablename
    ++ reverse_fields toCamelCase dbSchema tablename in
  (forall s,
      type_scalar dbSchema dbDriver field tablename c s = (s, None) /\
      input_scalar dbSchema dbDriver name tablename c s = (s, None)) /\
  (forall s,
      seg_each (type_scalar dbSchema dbDriver field tablename) cols s =
        (mkSchema
           (set_fields field (scalar_fields dbSchema dbDriver tablename)
              (types s)) (inputs s), None) /\
      seg_each (input_scalar dbSchema dbDriver name tablename) cols s =
        (mkSchema (types s)
           (set_fields name (input_fields dbSchema dbDriver tablename)
              (inputs s)), None)) /\
  ~ In c (map fst (scalar_fields dbSchema dbDriver tablename)) /\
  ~ In c (map fst (input_fields dbSchema dbDriver tablename)) /\
  (forall c' ty,
      In c' cols -> column_type dbSchema dbDriver tablename c' = Ok ty ->
      In (c', mkField c' (Named ty) (Some []))
        (scalar_fields dbSchema dbDriver tablename) /\
      In (c', ty) (input_fields dbSchema dbDriver tablename)) /\
  ((forall c0, In c0 cols ->
      exists column, column_meta dbSchema tablename c0 = Ok (Some column)) ->
   forall s,
     let out :=
       await (mapDbTableToGraphqlType toCamelCase dbSchema dbDriver
                tablename) s in
     exists fields,
       out =
         (mkSchema
            (set (field ++ "Page")%string (page_fields field)
               (set field fields (ensure_key field (types s))))
            (inputs s), None) /\
       get field (types (fst out)) = Some fields /\
       (forall c' ty,
          In c' cols -> column_type dbSchema dbDriver tablename c' = Ok ty ->
          has c' fields = true /\
          (~ In c' (map fst relations) ->
           get c' fields = Some (mkField c' (Named ty) (Some [])))) /\
       (~ In c (map fst relations) ->
        get c fields =
          match get field (types s) with
          | Some before => get c before
          | None => None
          end)) /\
  (forall s,
     let out :=
       await (mapDbTableToGraphqlInput toCamelCase dbSchema dbDriver
                tablename) s in
     exists fields,
       out =
         (mkSchema (types s)
            (set name fields (ensure_key name (inputs s))), None) /\
       get name (inputs (fst out)) = Some fields /\
       (forall c' ty,
          In c' cols -> column_type dbSchema dbDriver tablename c' = Ok ty ->
          get c' fields = Some ty) /\
       get c fields =
         match get name (inputs s) with
         | Some before => get c before
         | None => None
         end) /\
  (columns_described dbSchema dbDriver ->
   forall s,
      snd (buildSchemaByTable toCamelCase dbSchema dbDriver tablename s)
        = None /\
      snd (async_buildSchema toCamelCase dbSchema dbDriver s) = None /\
      rejected (settle (buildSchema toCamelCase dbSchema dbDriver s)) = [] /\
      queue (settle (buildSchema toCamelCase dbSchema dbDriver s)) = []).
Proof.
  intros Ht Hc He _ field name cols relations.
  split; [|split; [|split; [|split; [|split; [|split; [|split]]]]]].
  - intros s. rewrite type_scalar_eq, input_scalar_eq.
    unfold scalar_entry, input_entry. rewrite He.
    unfold set_fields. cbn [fold_left]. now rewrite schema_eta.
  - intros s. split; [apply type_scalars_eq | apply input_scalars_eq].
  - exact (scalar_fields_unmapped dbSchema dbDriver tablename c e He).
  - exact (input_fields_unmapped dbSchema dbDriver tablename c e He).
  - intros c' ty Hc' Hty. split.
    + exact (proj1 (scalar_fields_mapped dbSchema dbDriver tablename c' ty
                      Hc' Hty)).
    + exact (proj1 (input_fields_mapped dbSchema dbDriver tablename c' ty
                      Hc' Hty)).
  - intros Hd s out.
    destruct (In_tables_get dbSchema tablename Ht) as [t Hget].
    pose proof (await_type toCamelCase dbSchema dbDriver tablename t s
                  Hget Hd) as E.
    cbv zeta in E. fold field in E. fold relations in E.
    pose proof (get_ensure_key field (types s)) as G.
    set (before := match get field (types s) with
                   | Some fields => fields
                   | None => []
                   end) in G.
    rewrite (set_fields_present field
               (scalar_fields dbSchema dbDriver tablename) _ before G) in E.
    rewrite (set_fields_present field relations _
               (set_all (scalar_fields dbSchema dbDriver tablename) before)
               (get_set_same _ _ _)) in E.
    rewrite set_set in E.
    exists (set_all relations
              (set_all (scalar_fields dbSchema dbDriver tablename) before)).
    split; [exact E|]. split; [|split].
    + unfold out. rewrite E. cbn [fst types].
      rewrite get_set_other by apply page_name_differs.
      apply get_set_same.
    + intros c' ty Hc' Hty.
      destruct (scalar_fields_mapped dbSchema dbDriver tablename c' ty
                  Hc' Hty) as [Hin Hall].
      split.
      * rewrite !has_set_all.
        assert (X : existsb (String.eqb c')
                      (map fst (scalar_fields dbSchema dbDriver tablename))
                    = true).
        { apply existsb_exists. exists c'. split; [|apply String.eqb_refl].
          apply in_map_iff. exists (c', mkField c' (Named ty) (Some [])).
          split; [reflexivity | exact Hin]. }
        rewrite X. now rewrite orb_true_r.
      * intros Hrel. rewrite get_set_all_other by assumption.
        now apply get_set_all_same.
    + intros Hrel. rewrite get_set_all_other by assumption.
      rewrite get_set_all_other
        by exact (scalar_fields_unmapped dbSchema dbDriver tablename c e He).
      unfold before. now destruct (get field (types s)).
  - intros s out.
    pose proof (await_input toCamelCase dbSchema dbDriver tablename s) as E.
    cbv zeta in E. fold name in E.
    pose proof (get_ensure_key name (inputs s)) as G.
    set (before := match get name (inputs s) with
                   | Some fields => fields
                   | None => []
                   end) in G.
    rewrite (set_fields_present name
               (input_fields dbSchema dbDriver tablename) _ before G) in E.
    exists (set_all (input_fields dbSchema dbDriver tablename) before).
    split; [exact E|]. split; [|split].
    + unfold out. rewrite E. cbn [fst inputs]. apply get_set_same.
    + intros c' ty Hc' Hty.
      destruct (input_fields_mapped dbSchema dbDriver tablename c' ty
                  Hc' Hty) as [Hin Hall].
      now apply get_set_all_same.
    + rewrite get_set_all_other
        by exact (input_fields_unmapped dbSchema dbDriver tablename c e He).
      unfold before. now destruct (get name (inputs s)).
  - intros Hd s. split; [now apply buildSchemaByTable_ok|].
    split; [now apply async_buildSchema_ok|].
    rewrite settle_buildSchema by assumption. auto.
Qed.

End CompilerProperties.

(** The table [baz(id serial, data json)]: after either awaited pass
    the type and the input of the table are there without a field
    [data], and the awaited build ends without an exception *)
Lemma C7_witness :
  ~ In "data"
      (map fst
         (Compiler.scalar_fields Example.jsonSchema
            (Example.compilerDriver Example.jsonSchema) "baz")) /\
  (exists fields,
     get "Baz"
       (Compiler.types
          (fst (Compiler.await
                  (Compiler.mapDbTableToGraphqlType Example.toCamelCase
                     Example.jsonSchema
                     (Example.compilerDriver Example.jsonSchema) "baz")
                  Compiler.empty_schema)))
     = Some fields /\
     get "data" fields = None /\ has "id" fields = true) /\
  (exists fields,
     get "BazInput"
       (Compiler.inputs
          (fst (Compiler.await
                  (Compiler.mapDbTableToGraphqlInput Example.toCamelCase
                     Example.jsonSchema
                     (Example.compilerDriver Example.jsonSchema) "baz")
                  Compiler.empty_schema)))
     = Some fields /\
     get "data" fields = None /\ get "id" fields = Some "Int") /\
  snd (Compiler.async_buildSchema Example.toCamelCase Example.jsonSchema
         (Example.compilerDriver Example.jsonSchema) Compiler.empty_schema)
  = None.
Proof.
  destruct (C7_column_mapping_failure_is_local Example.toCamelCase
              Example.jsonSchema (Example.compilerDriver Example.jsonSchema)
              "baz" "data" (UserError "unknown column type")
              (or_introl eq_refl) (or_intror (or_introl eq_refl)) eq_refl
              (fun c0 H0 =>
                 proj1 (ExampleFacts.json_described "baz" c0
                          (or_introl eq_refl) H0)))
    as (_ & _ & Hno & _ & _ & Htype & Hinput & Hok).
  split; [exact Hno|]. split; [|split].
  - destruct (Htype (fun c0 H0 =>
                       proj2 (ExampleFacts.json_described "baz" c0
                                (or_introl eq_refl) H0))
                Compiler.empty_schema)
      as (fields & _ & Hget & Hmapped & Hc).
    exists fields. split; [exact Hget|]. split.
    + apply Hc. intros [].
    + exact (proj1 (Hmapped "id" "Int" (or_introl eq_refl) eq_refl)).
  - destruct (Hinput Compiler.empty_schema)
      as (fields & _ & Hget & Hmapped & Hc).
    exists fields. split; [exact Hget|]. split.
    + exact Hc.
    + exact (Hmapped "id" "Int" (or_introl eq_refl) eq_refl).
  - exact (proj1 (proj2 (Hok ExampleFacts.json_described
                           Compiler.empty_schema))).
Defined.
